(** * chadtree: the tree renderer, the cut and copy transitions, the text
    decorations

    A shallow embedding of [_gen_comp], [_ignore], [_paint] and [render]
    of [chadtree/view/render.py], with the properties of the flattened
    tree, the highlight resolver, the badges and the byte offsets; of
    [_find_dest] and [_operation] of [chadtree/_transitions/cut_copy.py];
    and of the processing of icons and colours in
    [ci/text_decorations/__init__.py]. *)

From Stdlib Require Import ZArith NArith List Ascii String DecimalString.
From stdpp Require Import base option list gmap sets sorting.

Local Open Scope Z_scope.

(** ** Python values *)

(** A Python [str] is a sequence of code points. *)
Definition codepoint := N.
Definition str := list codepoint.

(** A literal of the source, written with ASCII characters only. *)
Definition lit (s : string) : str := List.map N_of_ascii (list_ascii_of_string s).

Definition byte := N.

(** The exceptions the rendering code can raise. *)
Inductive exn :=
| KeyError (key : str)
| UnicodeEncodeError (object : str)
| ValueError.

Definition result (A : Type) : Type := exn + A.

Definition ret {A} (a : A) : result A := inr a.
Definition raise {A} (e : exn) : result A := inl e.
Definition bind {A B} (m : result A) (k : A -> result B) : result B :=
  match m with
  | inl e => inl e
  | inr a => k a
  end.

Notation "x <- m ;; k" := (bind m (fun x => k))
  (at level 100, m at next level, right associativity).

(** [for x in l: ys += f(x)] with the first exception ending the loop. *)
Fixpoint collect {A B} (f : A -> result (list B)) (l : list A) : result (list B) :=
  match l with
  | [] => ret []
  | x :: l' => ys <- f x ;; zs <- collect f l' ;; ret (ys ++ zs)
  end.

(** [str.encode()]: UTF-8 with [errors="strict"]; a surrogate code point
    cannot be encoded. A [str] holds no code point above U+10FFFF. *)
Definition is_surrogate (c : codepoint) : bool :=
  ((0xD800 <=? c) && (c <=? 0xDFFF))%N.

Definition encode_cp (c : codepoint) : option (list byte) :=
  if (c <? 0x80)%N then Some [c]
  else if (c <? 0x800)%N then
    Some [N.lor 0xC0 (N.shiftr c 6); N.lor 0x80 (N.land c 0x3F)]
  else if is_surrogate c then None
  else if (c <? 0x10000)%N then
    Some [N.lor 0xE0 (N.shiftr c 12);
          N.lor 0x80 (N.land (N.shiftr c 6) 0x3F);
          N.lor 0x80 (N.land c 0x3F)]
  else if (c <? 0x110000)%N then
    Some [N.lor 0xF0 (N.shiftr c 18);
          N.lor 0x80 (N.land (N.shiftr c 12) 0x3F);
          N.lor 0x80 (N.land (N.shiftr c 6) 0x3F);
          N.lor 0x80 (N.land c 0x3F)]
  else None.

Fixpoint encode_opt (s : str) : option (list byte) :=
  match s with
  | [] => Some []
  | c :: s' =>
      match encode_cp c, encode_opt s' with
      | Some bs, Some bs' => Some (bs ++ bs')
      | _, _ => None
      end
  end.

Definition str_encode (s : str) : result (list byte) :=
  match encode_opt s with
  | Some bs => ret bs
  | None => raise (UnicodeEncodeError s)
  end.

(** [len(s.encode())] *)
Definition encoded_len (s : str) : result nat :=
  bs <- str_encode s ;; ret (length bs).

(** [old] occurs at the head of [s]. *)
Fixpoint startswith (s old : str) : bool :=
  match old, s with
  | [], _ => true
  | _ :: _, [] => false
  | o :: old', c :: s' => bool_decide (o = c) && startswith s' old'
  end.

(** [s.replace(old, new)]: the occurrences of [old] found left to right,
    without overlap. [skip] counts the code points of an occurrence that
    are still to be passed over. *)
Fixpoint replace_from (old new : str) (skip : nat) (s : str) : str :=
  match s with
  | [] => []
  | c :: s' =>
      match skip with
      | S k => replace_from old new k s'
      | O =>
          if startswith s old
          then new ++ replace_from old new (length old - 1) s'
          else c :: replace_from old new O s'
      end
  end.

(** An empty [old] occurs before every code point and at the end. *)
Definition replace (s old new : str) : str :=
  match old with
  | [] => new ++ flat_map (fun c => c :: new) s
  | _ :: _ => replace_from old new O s
  end.

(** [n * " "]: a negative count gives the empty string. *)
Definition str_mul (n : Z) (s : str) : str :=
  concat (replicate (Z.to_nat n) s).

(** [f"{n}"] for an [int]. *)
Definition format_int (n : Z) : str :=
  lit (NilZero.string_of_int (Z.to_int n)).

(** [a or b] on strings: the empty string is falsy. *)
Definition str_or (a b : str) : str :=
  match a with
  | [] => b
  | _ => a
  end.

(** [s < t] on strings: by code point, a proper prefix first. *)
Fixpoint str_lt (s t : str) : bool :=
  match s, t with
  | _, [] => false
  | [], _ :: _ => true
  | c :: s', d :: t' =>
      if (c <? d)%N then true
      else if (d <? c)%N then false
      else str_lt s' t'
  end.

(** ** The data model *)

(** [Mode] is an [IntEnum]: a mode is its integer value, and [sorted]
    orders modes by it. *)
Definition Mode := Z.

(** The members of [Mode] that the renderer names. *)
Class ModeEnum := {
  Mode_folder : Mode;
  Mode_link : Mode;
  Mode_orphan_link : Mode;
}.

(** What the renderer takes from the standard library and the platform:
    [fnmatch.fnmatch name pattern], [locale.strxfrm], [os.linesep] and
    [os.path.sep]. *)
Class Platform := {
  fnmatch : str -> str -> bool;
  strxfrm : str -> str;
  linesep : str;
  sep : str;
}.

(** [Node]: [children] is a mapping from the child's path to the child,
    kept in the order of its entries. *)
#[local] Unset Elimination Schemes.
Inductive Node := mkNode {
  path : str;
  name : str;
  ext : option str;
  mode : gset Mode;
  children : option (list (str * Node));
}.
#[local] Set Elimination Schemes.

Inductive Sortby := is_folder | by_ext | fname.

Record HLgroup := { hl_name : str }.

Record FilterPattern := { pattern : str }.

(** [QuickFix.locations] is read by subscript. [locations_missing] is the
    value a default-providing mapping ([Counter], [defaultdict]) gives for
    an absent key; a plain [dict] has none. *)
Record QuickFix := {
  locations : gmap str Z;
  locations_missing : option Z;
}.

Record VCStatus := {
  ignored : gset str;
  status : gmap str str;
}.

Record Ignores := {
  ignores_name : list str;
  ignores_path : list str;
}.

Record HLcontext := {
  mode_lookup_pre : gmap (option Mode) HLgroup;
  mode_lookup_post : gmap (option Mode) HLgroup;
  ext_lookup : gmap str HLgroup;
  name_lookup : list (str * HLgroup);
}.

Record Icons := {
  default_icon : str;
  folder_open : str;
  folder_closed : str;
  link_normal : str;
  link_broken : str;
  status_selected : str;
  status_active : str;
  name_exact : gmap str str;
  icons_type : gmap str str;
  name_glob : list (str * str);
}.

Record HLGroups := {
  groups_quickfix : str;
  groups_version_control : str;
}.

Record Highlights := {
  exts : gmap str HLgroup;
  groups : HLGroups;
}.

Record View := {
  hl_context : HLcontext;
  icons : Icons;
  highlights : Highlights;
  use_icons : bool;
  sort_by : list Sortby;
}.

Record Settings := {
  ignores : Ignores;
  view : View;
}.

Record Badge := { text : str; badge_group : str }.

Record Highlight := { group : str; begin : nat; end_ : nat }.

Record Render := {
  line : str;
  badges : list Badge;
  render_highlights : list Highlight;
}.

Record Derived := {
  lookup : list Node;
  paths_lookup : gmap str nat;
  rendered : list Render;
}.

(** ** [_gen_comp] *)

(** [_CompVals] *)
Definition FOLDER : Z := 1.
Definition FILE : Z := 2.

(** What [cont] yields: a [_CompVals] member, the one-element tuple
    [strxfrm(node.ext or ""),] or the string [strxfrm(node.name)]. *)
Inductive CompVal :=
| K_rank (v : Z)
| K_ext (s : str)
| K_name (s : str).

#[global] Instance CompVal_eq_dec : EqDecision CompVal.
Proof. solve_decision. Defined.

(** [x < y] on yielded values. Values of two different kinds are never
    compared: every key is built from the same [sortby]. *)
Definition val_lt (x y : CompVal) : bool :=
  match x, y with
  | K_rank a, K_rank b => a <? b
  | K_ext s, K_ext t => str_lt s t
  | K_name s, K_name t => str_lt s t
  | _, _ => false
  end.

(** [a < b] on tuples: decided at the first position where they differ. *)
Fixpoint tuple_lt (a b : list CompVal) : bool :=
  match a, b with
  | _, [] => false
  | [], _ :: _ => true
  | x :: a', y :: b' =>
      if decide (x = y) then tuple_lt a' b' else val_lt x y
  end.

(** [sorted(l, key=key)]: a stable sort; an element moves in front of
    another only when its key is strictly smaller. *)
Fixpoint insort {A} (key : A -> list CompVal) (x : A) (l : list A) : list A :=
  match l with
  | [] => [x]
  | y :: l' =>
      if tuple_lt (key y) (key x) then y :: insort key x l' else x :: l
  end.

Definition sorted {A} (key : A -> list CompVal) (l : list A) : list A :=
  foldr (insort key) [] l.

(** [sorted(node.mode)] *)
Definition sorted_modes (node : Node) : list Mode :=
  merge_sort Z.le (elements (mode node)).

(** [node.ext or ""] *)
Definition ext_or_empty (node : Node) : str :=
  match ext node with
  | Some e => e
  | None => []
  end.

Section Renderer.
Context {modes : ModeEnum} {platform : Platform}.

Definition comp (sortby : list Sortby) (node : Node) : list CompVal :=
  List.map (fun sb =>
    match sb with
    | is_folder =>
        K_rank (if decide (Mode_folder ∈ mode node) then FOLDER else FILE)
    | by_ext => K_ext (strxfrm (ext_or_empty node))
    | fname => K_name (strxfrm (name node))
    end) sortby.

(** ** [_ignore] *)

Definition _ignore (settings : Settings) (vc : VCStatus) (node : Node) : bool :=
  bool_decide (path node ∈ ignored vc)
  || existsb (fun pattern => fnmatch (name node) pattern)
       (ignores_name (ignores settings))
  || existsb (fun pattern => fnmatch (path node) pattern)
       (ignores_path (ignores settings)).

(** ** [_paint] *)

Section Paint.
Variables (settings : Settings) (index selection : gset str)
  (qf : QuickFix) (vc : VCStatus) (current : option str).

(** [for mode in s_modes: hl = lookup.get(mode); if hl: return hl] *)
Fixpoint first_mode (lookup : gmap (option Mode) HLgroup) (s_modes : list Mode)
  : option HLgroup :=
  match s_modes with
  | [] => None
  | m :: rest =>
      match lookup !! Some m with
      | Some hl => Some hl
      | None => first_mode lookup rest
      end
  end.

(** [for pattern, v in table.items(): if fnmatch(name, pattern): return v] *)
Fixpoint first_glob {V} (table : list (str * V)) (nm : str) : option V :=
  match table with
  | [] => None
  | (pat, v) :: rest => if fnmatch nm pat then Some v else first_glob rest nm
  end.

Definition search_hl (node : Node) : option HLgroup :=
  let context := hl_context (view settings) in
  let s_modes := sorted_modes node in
  match first_mode (mode_lookup_pre context) s_modes with
  | Some hl => Some hl
  | None =>
  match ext_lookup context !! ext_or_empty node with
  | Some hl => Some hl
  | None =>
  match first_glob (name_lookup context) (name node) with
  | Some grp => Some grp
  | None =>
  match first_mode (mode_lookup_post context) s_modes with
  | Some hl => Some hl
  | None => mode_lookup_post context !! None
  end end end end.

Definition space : str := lit " ".

Definition gen_spacer (depth : nat) : str :=
  str_mul (Z.of_nat depth * 2 - 1) space.

Definition gen_status (p : str) : str :=
  let selected :=
    if decide (p ∈ selection) then status_selected (icons (view settings))
    else space in
  let active :=
    if decide (current = Some p) then status_active (icons (view settings))
    else space in
  selected ++ active.

Definition gen_decor_pre (node : Node) (depth : nat) : list str :=
  [gen_spacer depth; gen_status (path node)].

Definition gen_icon (node : Node) : list str :=
  let ic := icons (view settings) in
  [space;
   if decide (Mode_folder ∈ mode node) then
     if decide (path node ∈ index) then folder_open ic else folder_closed ic
   else if use_icons (view settings) then
     str_or (default [] (name_exact ic !! name node))
       (str_or (default [] (icons_type ic !! ext_or_empty node))
          (default (default_icon ic) (first_glob (name_glob ic) (name node))))
   else default_icon ic;
   space].

Definition gen_name (node : Node) : list str :=
  replace (name node) linesep (lit "\n")
  :: (if negb (use_icons (view settings)) && bool_decide (Mode_folder ∈ mode node)
      then [sep] else []).

Definition gen_decor_post (node : Node) : list str :=
  if decide (Mode_orphan_link ∈ mode node) then
    [space; link_broken (icons (view settings))]
  else if decide (Mode_link ∈ mode node) then
    [space; link_normal (icons (view settings))]
  else [].

(** [qf.locations[path]] *)
Definition locations_getitem (p : str) : result Z :=
  match locations qf !! p with
  | Some n => ret n
  | None =>
      match locations_missing qf with
      | Some d => ret d
      | None => raise (KeyError p)
      end
  end.

Definition gen_badges (p : str) : result (list Badge) :=
  qf_count <- locations_getitem p ;;
  let stat := status vc !! p in
  ret ((if decide (qf_count = 0) then []
        else [ {| text := lit "(" ++ format_int qf_count ++ lit ")";
                  badge_group := groups_quickfix (groups (highlights (view settings))) |} ])
       ++
       match stat with
       | Some (c :: st) =>
           [ {| text := lit "[" ++ (c :: st) ++ lit "]";
                badge_group :=
                  groups_version_control (groups (highlights (view settings))) |} ]
       | _ => []
       end).

Definition gen_highlights (node : Node) (pre icon nm : str)
  : result (list Highlight) :=
  begin0 <- encoded_len pre ;;
  icon_len <- encoded_len icon ;;
  let end0 := (begin0 + icon_len)%nat in
  let first :=
    match exts (highlights (view settings)) !! ext_or_empty node with
    | Some grp => [ {| group := hl_name grp; begin := begin0; end_ := end0 |} ]
    | None => []
    end in
  match search_hl node with
  | Some grp =>
      name_len <- encoded_len nm ;;
      ret (first ++
           [ {| group := hl_name grp; begin := end0;
                end_ := (name_len + end0)%nat |} ])
  | None => ret first
  end.

Definition show (node : Node) (depth : nat) : result Render :=
  let pre := concat (gen_decor_pre node depth) in
  let icon := concat (gen_icon node) in
  let nm := concat (gen_name node) in
  let post := concat (gen_decor_post node) in
  let ln := pre ++ icon ++ nm ++ post in
  bs <- gen_badges (path node) ;;
  hls <- gen_highlights node pre icon nm ;;
  ret {| line := ln; badges := bs; render_highlights := hls |}.

End Paint.

(** ** [render] *)

(** [(node.children or {}).values()] *)
Definition child_nodes (node : Node) : list Node :=
  match children node with
  | Some cs => List.map snd cs
  | None => []
  end.

(** [{node.path: idx for idx, node in enumerate(lookup)}] *)
Definition enumerate {A} (l : list A) : list (nat * A) :=
  imap (fun idx x => (idx, x)) l.

Definition index_paths (l : list Node) : gmap str nat :=
  foldl (fun m ix => <[path ix.2 := ix.1]> m) ∅ (enumerate l).

Section Render.
Variables (settings : Settings) (index selection : gset str)
  (filter_pattern : option FilterPattern)
  (qf : QuickFix) (vc : VCStatus) (show_hidden : bool) (current : option str).

Definition drop : Node -> bool :=
  if show_hidden then (fun _ => false) else _ignore settings vc.

Definition is_clear (cleared : bool) (node : Node) : bool :=
  cleared
  || match filter_pattern with
     | None => true
     | Some fp => fnmatch (name node) (pattern fp)
     end.

Definition nonempty {A} (l : list A) : bool :=
  match l with
  | [] => false
  | _ => true
  end.

(** The inner [render]. Each child's generator is a value; the ones of
    the children that are not dropped are run in sorted order, after the
    node itself has been painted. [render_inner_eq] below gives the same
    function with the recursive call written where the source has it. *)
Fixpoint render_inner (keep_open : gset str) (node : Node) (depth : nat)
  (cleared : bool) {struct node} : result (list (Node * Render)) :=
  let clear := is_clear cleared node in
  let gens :=
    match children node with
    | Some cs =>
        List.map (fun kc =>
          (snd kc, render_inner keep_open (snd kc) (S depth) clear)) cs
    | None => []
    end in
  rend <- show settings index selection qf vc current node depth ;;
  chn <- collect snd
           (sorted (fun g => comp (sort_by (view settings)) (fst g))
              (List.filter (fun g => negb (drop (fst g))) gens)) ;;
  ret ((if clear || nonempty chn || bool_decide (path node ∈ keep_open)
        then [(node, rend)] else []) ++ chn).

Definition render (node : Node) : result Derived :=
  let keep_open : gset str := {[ path node ]} in
  out <- render_inner keep_open node 0 false ;;
  match out with
  | [] => raise ValueError
  | _ :: _ =>
      let lookup0 := List.map fst out in
      ret {| lookup := lookup0;
             paths_lookup := index_paths lookup0;
             rendered := List.map snd out |}
  end.

End Render.
End Renderer.

(** ** Vocabulary of the statements *)

(** Every node reachable through [children], with its depth, in pre-order. *)
Fixpoint descendants (node : Node) (depth : nat) : list (Node * nat) :=
  (node, depth)
  :: match children node with
     | Some cs => flat_map (fun kc => descendants (snd kc) (S depth)) cs
     | None => []
     end.

(** [{node.path: idx + k for idx, node in enumerate(l)}] written over [m]. *)
Definition index_from (k : nat) (m : gmap str nat) (l : list Node) : gmap str nat :=
  foldl (fun m ix => <[path ix.2 := ix.1]> m) m (imap (fun idx x => (k + idx, x)%nat) l).

(** Two yielded values come from the same sort key. *)
Definition same_kind (x y : CompVal) : Prop :=
  match x, y with
  | K_rank _, K_rank _ | K_ext _, K_ext _ | K_name _, K_name _ => True
  | _, _ => False
  end.

(** [a] may stand before [b]: [b]'s key is not strictly smaller. *)
Definition key_le {A} (key : A -> list CompVal) (a b : A) : Prop :=
  tuple_lt (key b) (key a) = false.

(** [off] is the encoded length of some whole-character prefix of [s]. *)
Definition char_boundary (s : str) (off : nat) : Prop :=
  exists k bs, encode_opt (take k s) = Some bs /\ length bs = off.

(** [off] does not exceed [len(s.encode())], when [s] can be encoded. *)
Definition within_encoded (s : str) (off : nat) : Prop :=
  forall bs, encode_opt s = Some bs -> (off <= length bs)%nat.

(** The first tier that yields something. *)
Definition first_some {A} (tiers : list (option A)) : option A :=
  foldr (fun t rest => match t with Some x => Some x | None => rest end) None tiers.

(** [old] occurs in [s]. *)
Definition occurs_in (old s : str) : Prop := exists pre post, s = pre ++ old ++ post.

Section Vocabulary.
Context {modes : ModeEnum} {platform : Platform}.
Variables (settings : Settings) (index selection : gset str)
  (filter_pattern : option FilterPattern)
  (qf : QuickFix) (vc : VCStatus) (show_hidden : bool) (current : option str).

#[local] Abbreviation inner :=
  (render_inner settings index selection filter_pattern qf vc show_hidden current).
#[local] Abbreviation render_tree :=
  (render settings index selection filter_pattern qf vc show_hidden current).
#[local] Abbreviation dropped := (drop settings vc show_hidden).
#[local] Abbreviation clear_of := (is_clear filter_pattern).
#[local] Abbreviation context := (hl_context (view settings)).

(** [a] ranks before [b] under one sort key: a folder before a node that
    is not a folder; the smaller collated extension; the smaller collated
    name. *)
Definition key_lt (sb : Sortby) (a b : Node) : Prop :=
  match sb with
  | is_folder => Mode_folder ∈ mode a /\ Mode_folder ∉ mode b
  | by_ext =>
      str_lt (strxfrm (ext_or_empty a)) (strxfrm (ext_or_empty b)) = true
  | fname => str_lt (strxfrm (name a)) (strxfrm (name b)) = true
  end.

(** [a] and [b] tie under one sort key. *)
Definition key_eq (sb : Sortby) (a b : Node) : Prop :=
  match sb with
  | is_folder => Mode_folder ∈ mode a <-> Mode_folder ∈ mode b
  | by_ext => strxfrm (ext_or_empty a) = strxfrm (ext_or_empty b)
  | fname => strxfrm (name a) = strxfrm (name b)
  end.

(** The lexicographic order over the configured keys: [a] and [b] tie
    under the keys before some key, under which [a] ranks before [b]. *)
Definition ranks_before (sortby : list Sortby) (a b : Node) : Prop :=
  exists pre sb post,
    sortby = pre ++ sb :: post
    /\ (forall k, k ∈ pre -> key_eq k a b)
    /\ key_lt sb a b.

(** The children the walk recurses into, in the order it takes them:
    [sorted(child for child in children.values() if not drop(child), key=comp)]. *)
Definition kids_of (node : Node) : list Node :=
  sorted (comp (sort_by (view settings)))
    (List.filter (fun c => negb (dropped c)) (child_nodes node)).

(** The calls of the inner [render] that a call on [root] leads to: the
    node, its depth and the [cleared] it is given, with the nodes above it
    and their [clear] flags, nearest first. *)
Inductive call (root : Node) : list (Node * bool) -> Node -> nat -> bool -> Prop :=
| call_root : call root [] root 0 false
| call_child ancs n d c ch :
    call root ancs n d c -> ch ∈ kids_of n ->
    call root ((n, clear_of c n) :: ancs) ch (S d) (clear_of c n).


(** The mapping of the first mode tag, in sorted order, that has one. *)
Definition tier_mode (table : gmap (option Mode) HLgroup) (node : Node)
  : option HLgroup :=
  list_find (fun m => is_Some (table !! Some m)) (sorted_modes node)
  ≫= fun im => table !! Some im.2.

(** The group of the first configured pattern that matches the name. *)
Definition tier_glob (node : Node) : option HLgroup :=
  (fun ikv => ikv.2.2)
  <$> list_find (fun kv => fnmatch (name node) kv.1 = true) (name_lookup context).

(** The five tiers of the resolver, in order. *)
Definition tiers (node : Node) : list (option HLgroup) :=
  [ tier_mode (mode_lookup_pre context) node;
    ext_lookup context !! ext_or_empty node;
    tier_glob node;
    tier_mode (mode_lookup_post context) node;
    mode_lookup_post context !! None ].

(** The badges [(N)] and [[code]]. *)
Definition quickfix_badge (count : Z) : Badge :=
  {| text := lit "(" ++ format_int count ++ lit ")";
     badge_group := groups_quickfix (groups (highlights (view settings))) |}.

Definition vc_badge (code : str) : Badge :=
  {| text := lit "[" ++ code ++ lit "]";
     badge_group := groups_version_control (groups (highlights (view settings))) |}.

(** The claim about the version-control badge as the spec words it: the
    badge is there exactly when the path has an entry in [vc.status]. *)
Definition vc_badge_as_specified (node : Node) (r : Render) : Prop :=
  forall code, vc_badge code ∈ badges r <-> status vc !! path node = Some code.

(** The four parts of a line. *)
Definition decor_pre (node : Node) (depth : nat) : str :=
  concat (gen_decor_pre settings selection current node depth).
Definition icon_text (node : Node) : str := concat (gen_icon settings index node).
Definition name_text (node : Node) : str := concat (gen_name settings node).
Definition decor_post (node : Node) : str := concat (gen_decor_post settings node).

(** The claim about encoding errors as the spec words it: no render is
    ever ended by one. *)
Definition encoding_errors_non_fatal (root : Node) : Prop :=
  forall e, render_tree root = inl e -> forall s, e <> UnicodeEncodeError s.

End Vocabulary.

(** * The transitions and the text decorations

    What [chadtree/_transitions/cut_copy.py] and
    [ci/text_decorations/__init__.py] compute, with the dictionaries and
    the path functions they use. *)

(** ** More of Python's strings *)

(** [s.rstrip(chars)] *)
Fixpoint rstrip (chars s : str) : str :=
  match s with
  | [] => []
  | c :: s' =>
      match rstrip chars s' with
      | [] => if bool_decide (c ∈ chars) then [] else [c]
      | t => c :: t
      end
  end.

(** [s.endswith(suffix)] *)
Definition endswith (s suffix : str) : bool :=
  startswith (reverse s) (reverse suffix).

(** [sep.join(parts)] *)
Definition str_join (sep : str) (parts : list str) : str :=
  match parts with
  | [] => []
  | p :: ps => p ++ flat_map (fun q => sep ++ q) ps
  end.

(** ** Python dictionaries *)

(** A [dict] with string keys: its items in the order of insertion, the
    keys pairwise different. *)
Abbreviation pydict V := (list (str * V)).

(** [d[k] = v]: a key that is there keeps its place. *)
Fixpoint dict_setitem {V} (d : pydict V) (k : str) (v : V) : pydict V :=
  match d with
  | [] => [(k, v)]
  | (k', v') :: d' =>
      if decide (k' = k) then (k', v) :: d' else (k', v') :: dict_setitem d' k v
  end.

(** [{k: v for k, v in items}] *)
Definition dict_of {V} (items : list (str * V)) : pydict V :=
  foldl (fun d kv => dict_setitem d kv.1 kv.2) [] items.

(** [d.get(k)] *)
Fixpoint dict_get {V} (d : pydict V) (k : str) : option V :=
  match d with
  | [] => None
  | (k', v) :: d' => if decide (k' = k) then Some v else dict_get d' k
  end.

(** [d.popitem()]: the item inserted last, and what is left; nothing for
    an empty [dict]. *)
Definition dict_popitem {V} (d : pydict V) : option ((str * V) * pydict V) :=
  match reverse d with
  | [] => None
  | kv :: r => Some (kv, reverse r)
  end.

(** [{**a, **b}] *)
Definition dict_merge {V} (a b : pydict V) : pydict V :=
  foldl (fun d kv => dict_setitem d kv.1 kv.2) a b.

(** ** [os.path] on a POSIX system *)

Module posixpath.

Definition slash : codepoint := 47%N.

(** [(p[:i], p[i:])] for [i = p.rfind("/") + 1] *)
Fixpoint rsplit (p : str) : str * str :=
  match p with
  | [] => ([], [])
  | c :: p' =>
      match rsplit p' with
      | ([], t) => if bool_decide (c = slash) then ([c], t) else ([], c :: t)
      | (h, t) => (c :: h, t)
      end
  end.

Definition basename (p : str) : str := (rsplit p).2.

Definition dirname (p : str) : str :=
  let head := (rsplit p).1 in
  if bool_decide (head <> []) && bool_decide (head <> replicate (length head) slash)
  then rstrip [slash] head
  else head.

Definition join (a b : str) : str :=
  if startswith b [slash] then b
  else if bool_decide (a = []) || endswith a [slash] then a ++ b
  else a ++ slash :: b.

End posixpath.

(** ** [chadtree/_transitions/cut_copy.py] *)

Module CutCopy.
Section Operation.
Context {platform : Platform}.

(** [fs.cartographer.is_dir]; [os.path.exists] as it answers when the
    call starts; [view.ops.display_path] for the state of the call; the
    exceptions that an action raises. *)
Variables (is_dir : Node -> bool) (path_exists : str -> bool)
  (display_path : str -> str) (Exn : Type).

Definition _find_dest (src : str) (node : Node) : str :=
  let name := posixpath.basename src in
  let parent := if is_dir node then path node else posixpath.dirname (path node) in
  posixpath.join parent name.

(** The loop [while pre_existing: ...] of [_operation]. An answer is what
    [nvim.funcs.input] returns, the empty string standing for no answer as
    well, with what [exists] says of it. The result is nothing when the
    answers run out before the loop ends: the editor is still asking. *)
Fixpoint ask (answers : list (str * bool)) (pre_existing new_operations : pydict str)
  : option (pydict str * pydict str) :=
  match dict_popitem pre_existing with
  | None => Some (pre_existing, new_operations)
  | Some ((source, dest), rest) =>
      match answers with
      | [] => None
      | (resp, resp_exists) :: answers' =>
          match resp with
          | [] => Some (rest, new_operations)
          | _ :: _ =>
              if resp_exists
              then ask answers' (dict_setitem rest source resp) new_operations
              else ask answers' rest (dict_setitem new_operations source resp)
          end
      end
  end.

(** ["{display_path(s)} -> {display_path(d)}"] for the items sorted by
    [strxfrm] of the source. *)
Definition arrows (items : pydict str) : list str :=
  List.map (fun sd => display_path sd.1 ++ lit " -> " ++ display_path sd.2)
    (sorted (fun t => [K_name (strxfrm t.1)]) items).

(** What a call of [_operation] comes to. *)
Inductive outcome :=
| nothing_select
    (* s_write(nvim, LANG("nothing_select"), error=True); return None *)
| awaiting_answer
    (* nvim.funcs.input has not returned *)
| already_exist (message : str)
    (* s_write(nvim, message, error=True); return None *)
| declined (question : str)
    (* nvim.funcs.confirm(question, ...) != 1; return None *)
| action_failed (question : str) (operations : pydict str) (e : Exn)
    (* action(operations) raised e; s_write(nvim, e, error=True);
       return refresh(nvim, state=state, settings=settings) *)
| staged (question : str) (operations : pydict str) (paths _index : gset str).
    (* action(operations) returned; forward(state, settings=settings,
       index=_index, selection=frozenset(), paths=paths);
       kill_buffers(nvim, paths=selection); return Stage(new_state) *)

(** [node] is what [index(nvim, state=state)] returned, [unified] what
    [unify_ancestors(selection)] yielded, [state_index] is [state.index],
    [confirm] what [nvim.funcs.confirm] returns, and [action] says what
    the action raises, if anything. *)
Definition _operation (node : option Node) (unified : list str)
    (state_index : gset str) (op_name : str)
    (answers : list (str * bool)) (confirm : Z)
    (action : pydict str -> option Exn) : outcome :=
  match unified, node with
  | _ :: _, Some node =>
      let pre_operations :=
        dict_of (List.map (fun src => (src, _find_dest src node)) unified) in
      let pre_existing :=
        dict_of (List.filter (fun sd => path_exists sd.2) pre_operations) in
      match ask answers pre_existing [] with
      | None => awaiting_answer
      | Some (pre_existing, new_operations) =>
          match pre_existing with
          | _ :: _ =>
              let msg := str_join (lit ", ") (arrows pre_existing) in
              already_exist
                ([0x26A0%N; 0xFE0F%N] ++ lit "  -- " ++ op_name
                 ++ lit ": path(s) already exist! :: " ++ msg)
          | [] =>
              let operations := dict_merge pre_operations new_operations in
              let msg := str_join linesep (arrows operations) in
              let question := op_name ++ linesep ++ msg ++ lit "?" in
              if confirm =? 1 then
                match action operations with
                | Some e => action_failed question operations e
                | None =>
                    let paths : gset str :=
                      list_to_set (List.map posixpath.dirname
                                     (operations.*1 ++ operations.*2)) in
                    staged question operations paths (state_index ∪ paths)
                end
              else declined question
          end
      end
  | _, _ => nothing_select
  end.

End Operation.
End CutCopy.

(** The operations that the action was called with. *)
Definition acted_on {Exn} (o : CutCopy.outcome Exn) : option (pydict str) :=
  match o with
  | CutCopy.action_failed _ _ operations _ => Some operations
  | CutCopy.staged _ _ operations _ _ => Some operations
  | _ => None
  end.

(** ** [ci/text_decorations/__init__.py] *)

Module TextDecorations.

Definition _process_exts (exts : pydict str) : pydict str :=
  dict_of (List.map (fun kv => (lit "." ++ kv.1, kv.2)) exts).

(** [k.rstrip("$").replace(r"\.", ".")] *)
Definition glob_key (k : str) : str :=
  replace (rstrip (lit "$") k) (lit "\.") (lit ".").

Definition _process_glob (glob : pydict str) : pydict str :=
  dict_of (List.map (fun kv => (glob_key kv.1, kv.2)) glob).

Definition _process_hexcode (colours : pydict str) : pydict str :=
  dict_of (List.map (fun kv => (kv.1, lit "#" ++ kv.2)) colours).

Section Colours.
(** [std2.coloursys.hex_inverse] *)
Variable hex_inverse : str -> str.

Definition _process_inverse (colours : pydict str) : pydict str :=
  dict_of (List.map (fun kv => (kv.1, hex_inverse kv.2)) colours).

Record TextColours := {
  colours_ext_exact : pydict str;
  colours_name_exact : pydict str;
  colours_name_glob : pydict str;
}.

Definition _process_colours (colours : TextColours) : TextColours :=
  {| colours_ext_exact := _process_hexcode (_process_exts (colours_ext_exact colours));
     colours_name_exact := _process_hexcode (colours_name_exact colours);
     colours_name_glob := _process_hexcode (_process_glob (colours_name_glob colours)) |}.

Definition _make_lightmode (colours : TextColours) : TextColours :=
  {| colours_ext_exact := _process_inverse (colours_ext_exact colours);
     colours_name_exact := _process_inverse (colours_name_exact colours);
     colours_name_glob := _process_inverse (colours_name_glob colours) |}.

End Colours.

Section Icons.
(** The glyph groups that [_process_icons] hands on as they are. *)
Variables (Folder Link Status : Type).

Record IconGlyphs := {
  default_icon : str;
  folder : Folder;
  link : Link;
  status : Status;
  ext_exact : pydict str;
  name_exact : pydict str;
  name_glob : pydict str;
}.

Definition _process_icons (icons : IconGlyphs) : IconGlyphs :=
  {| default_icon := default_icon icons;
     folder := folder icons;
     link := link icons;
     status := status icons;
     ext_exact := _process_exts (ext_exact icons);
     name_exact := name_exact icons;
     name_glob := _process_glob (name_glob icons) |}.

End Icons.

End TextDecorations.

(** ** A concrete platform and a small tree

    The statements below hold for every [Platform]; the examples run on
    this one: POSIX separators, the "C" locale (where [strxfrm] leaves a
    string as it is), and glob patterns made of literal characters, [?]
    and [*]. *)

Fixpoint glob (pat nm : str) {struct pat} : bool :=
  match pat with
  | [] => match nm with [] => true | _ => false end
  | p :: pat' =>
      if (p =? 42)%N then
        (fix star (nm : str) : bool :=
           glob pat' nm
           || match nm with
              | [] => false
              | _ :: nm' => star nm'
              end) nm
      else
        match nm with
        | [] => false
        | c :: nm' => ((p =? 63)%N || (p =? c)%N) && glob pat' nm'
        end
  end.

Definition posix : Platform := {|
  fnmatch := fun nm pat => glob pat nm;
  strxfrm := fun s => s;
  linesep := [10%N];
  sep := lit "/";
|}.

Definition mode_values : ModeEnum := {|
  Mode_orphan_link := 1;
  Mode_link := 2;
  Mode_folder := 5;
|}.

Module Ex.

Definition file (p nm e : string) : Node :=
  {| path := lit p; name := lit nm; ext := Some (lit e); mode := ∅;
     children := None |}.

Definition folder (p nm : string) (cs : list Node) : Node :=
  {| path := lit p; name := lit nm; ext := None;
     mode := {[ @Mode_folder mode_values ]};
     children := Some (List.map (fun c => (path c, c)) cs) |}.

Definition b_txt : Node := file "/r/b.txt" "b.txt" ".txt".
Definition dir_A : Node := folder "/r/A" "A" [].
Definition root : Node := folder "/r" "r" [b_txt; dir_A].

Definition icons0 : Icons := {|
  default_icon := lit "f";
  folder_open := lit "v";
  folder_closed := lit ">";
  link_normal := lit "@";
  link_broken := lit "!";
  status_selected := lit "*";
  status_active := lit "+";
  name_exact := ∅;
  icons_type := ∅;
  name_glob := [];
|}.

Definition context0 : HLcontext := {|
  mode_lookup_pre := ∅;
  mode_lookup_post := ∅;
  ext_lookup := ∅;
  name_lookup := [];
|}.

Definition view0 : View := {|
  hl_context := context0;
  icons := icons0;
  highlights :=
    {| exts := ∅;
       groups := {| groups_quickfix := lit "QF";
                    groups_version_control := lit "VC" |} |};
  use_icons := true;
  sort_by := [is_folder; fname];
|}.

Definition settings0 : Settings := {|
  ignores := {| ignores_name := []; ignores_path := [] |};
  view := view0;
|}.

(** A [Counter] with no entries, and a plain empty [dict]. *)
Definition counter0 : QuickFix := {| locations := ∅; locations_missing := Some 0 |}.
Definition dict0 : QuickFix := {| locations := ∅; locations_missing := None |}.

Definition vc0 : VCStatus := {| ignored := ∅; status := ∅ |}.

Definition txt_only : FilterPattern := {| pattern := lit "*.txt" |}.

(** A child that carries the root's own path. *)
Definition dup : Node :=
  {| path := lit "/r"; name := lit "x"; ext := None; mode := ∅;
     children := None |}.
Definition root_dup : Node := folder "/r" "r" [dup].

(** A name with a lone surrogate, as [os.listdir] gives for a file name
    that is not valid UTF-8. *)
Definition bad : Node :=
  {| path := lit "/r/bad"; name := [0xDC80%N]; ext := None; mode := ∅;
     children := None |}.
Definition root_bad : Node := folder "/r" "r" [bad].

(** A name and an icon that take more than one byte each. *)
Definition e_txt : Node :=
  {| path := lit "/r/e.txt"; name := 0xE9%N :: lit ".txt";
     ext := Some (lit ".txt"); mode := ∅; children := None |}.

Definition grp_txt : HLgroup := {| hl_name := lit "Txt" |}.
Definition grp_normal : HLgroup := {| hl_name := lit "Normal" |}.

(** Settings with a page glyph for [.txt], a group for the extension and
    a fallback group. *)
Definition settings_hl : Settings := {|
  ignores := {| ignores_name := []; ignores_path := [] |};
  view := {|
    hl_context :=
      {| mode_lookup_pre := ∅;
         mode_lookup_post := {[ None := grp_normal ]};
         ext_lookup := ∅;
         name_lookup := [] |};
    icons :=
      {| default_icon := lit "f"; folder_open := lit "v"; folder_closed := lit ">";
         link_normal := lit "@"; link_broken := lit "!";
         status_selected := lit "*"; status_active := lit "+";
         name_exact := ∅;
         icons_type := {[ lit ".txt" := [0x1F4C4%N] ]};
         name_glob := [] |};
    highlights :=
      {| exts := {[ lit ".txt" := grp_txt ]};
         groups := {| groups_quickfix := lit "QF";
                      groups_version_control := lit "VC" |} |};
    use_icons := true;
    sort_by := [is_folder; fname];
  |};
|}.

(** Three quickfix locations at [/r/b.txt], and its status "M". *)
Definition qf3 : QuickFix :=
  {| locations := {[ lit "/r/b.txt" := 3 ]}; locations_missing := Some 0 |}.
Definition vc_M : VCStatus :=
  {| ignored := ∅; status := {[ lit "/r/b.txt" := lit "M" ]} |}.

(** A status entry that is the empty string. *)
Definition vc_blank : VCStatus :=
  {| ignored := ∅; status := {[ lit "/r/b.txt" := [] ]} |}.


(** A wider tree, listed as [b.txt], [B], [A]. *)
Definition dir_B : Node := folder "/r/B" "B" [].
Definition root3 : Node := folder "/r" "r" [b_txt; dir_B; dir_A].

(** A pattern that matches nothing in it. *)
Definition md_only : FilterPattern := {| pattern := lit "*.md" |}.

(** No sort keys. *)
Definition settings_unsorted : Settings := {|
  ignores := {| ignores_name := []; ignores_path := [] |};
  view := {| hl_context := context0; icons := icons0;
             highlights := highlights view0; use_icons := true; sort_by := [] |};
|}.

(** [/r/A] is ignored by version control. *)
Definition vc_A_ignored : VCStatus := {| ignored := {[ lit "/r/A" ]}; status := ∅ |}.

(** Groups for [.txt] and a fallback group, with ASCII icons. *)
Definition settings_ascii : Settings := {|
  ignores := {| ignores_name := []; ignores_path := [] |};
  view := {|
    hl_context :=
      {| mode_lookup_pre := ∅;
         mode_lookup_post := {[ None := grp_normal ]};
         ext_lookup := ∅;
         name_lookup := [] |};
    icons := icons0;
    highlights :=
      {| exts := {[ lit ".txt" := grp_txt ]};
         groups := {| groups_quickfix := lit "QF";
                      groups_version_control := lit "VC" |} |};
    use_icons := true;
    sort_by := [is_folder; fname];
  |};
|}.

(** A name with a line feed in it. *)
Definition two_lines : Node :=
  {| path := lit "/r/n"; name := [97%N; 10%N; 98%N]; ext := None; mode := ∅;
     children := None |}.

(** Icons of extensions, keyed without the dot; patterns with the marks of
    a regular expression, two of them for the same glob. *)
Definition glyphs : TextDecorations.IconGlyphs unit unit unit := {|
  TextDecorations.default_icon := lit "f";
  TextDecorations.folder := tt;
  TextDecorations.link := tt;
  TextDecorations.status := tt;
  TextDecorations.ext_exact := [(lit "txt", lit "T"); (lit "md", lit "M")];
  TextDecorations.name_exact := [(lit "Makefile", lit "K")];
  TextDecorations.name_glob :=
    [(lit "*\.lock$", lit "L"); (lit "*.lock", lit "l"); (lit "*~", lit "b")];
|}.

Definition palette : TextDecorations.TextColours := {|
  TextDecorations.colours_ext_exact := [(lit "txt", lit "ffffff")];
  TextDecorations.colours_name_exact := [(lit "Makefile", lit "00ff00")];
  TextDecorations.colours_name_glob := [];
|}.

(** A folder is a node with the folder mode; [/r/A/b.txt] exists. *)
Definition folder_mode (n : Node) : bool := bool_decide (@Mode_folder mode_values ∈ mode n).
Definition on_disk (p : str) : bool := bool_decide (p = lit "/r/A/b.txt").

End Ex.

(** * Properties *)

(** ** Exceptions and loops *)

Lemma bind_inr {A B} (m : result A) (k : A -> result B) (b : B) :
  bind m k = inr b <-> exists a, m = inr a /\ k a = inr b.
Proof.
  destruct m as [e|a]; simpl; split.
  - discriminate.
  - intros (a & Ha & _). discriminate.
  - eauto.
  - intros (a' & Ha & Hk). congruence.
Qed.

Lemma bind_inl {A B} (m : result A) (k : A -> result B) (e : exn) :
  bind m k = inl e <-> m = inl e \/ exists a, m = inr a /\ k a = inl e.
Proof.
  destruct m as [e'|a]; simpl; split.
  - intros [= ->]. by left.
  - intros [H | (a & H & _)]; congruence.
  - intros H. right. eauto.
  - intros [H | (a' & H & Hk)]; congruence.
Qed.

Lemma collect_inr {A B} (f : A -> result (list B)) (l : list A) (out : list B) :
  collect f l = inr out <->
  exists blocks, Forall2 (fun x b => f x = inr b) l blocks /\ out = concat blocks.
Proof.
  revert out. induction l as [|x l IH]; intros out; simpl.
  - split.
    + intros [= <-]. exists []. split; [constructor | reflexivity].
    + intros (blocks & HF & ->). inversion HF; subst. reflexivity.
  - rewrite bind_inr. split.
    + intros (ys & Hx & Hrest). apply bind_inr in Hrest.
      destruct Hrest as (zs & Hzs & [= <-]).
      apply IH in Hzs. destruct Hzs as (blocks & HF & ->).
      exists (ys :: blocks). split; [by constructor | reflexivity].
    + intros (blocks & HF & ->). inversion HF as [|? b ? bs Hx HF']; subst.
      exists b. split; [assumption|].
      apply bind_inr. exists (concat bs). split; [|reflexivity].
      apply IH. eauto.
Qed.

Lemma collect_total {A B} (f : A -> result (list B)) (l : list A) :
  (forall x, x ∈ l -> exists b, f x = inr b) -> exists out, collect f l = inr out.
Proof.
  induction l as [|x l IH]; intros H; simpl.
  - eauto.
  - destruct (H x) as (b & ->); [by left|]. simpl.
    destruct IH as (out & ->); [intros; apply H; by right|].
    simpl. eauto.
Qed.

Lemma collect_inl_inv {A B} (f : A -> result (list B)) (l : list A) (e : exn) :
  collect f l = inl e -> exists x, x ∈ l /\ f x = inl e.
Proof.
  induction l as [|y l IH]; simpl; [discriminate|].
  destruct (f y) as [e0|ys] eqn:Hy; simpl.
  - intros [= ->]. exists y. split; [by left | assumption].
  - destruct (collect f l) as [e1|zs]; simpl; [|discriminate].
    intros [= ->]. destruct IH as (x & Hx & Hfx); [reflexivity|].
    exists x. split; [by right | assumption].
Qed.

Lemma collect_snd_map {A B} (f : A -> result (list B)) (l : list A) :
  collect snd (List.map (fun x => (x, f x)) l) = collect f l.
Proof. induction l as [|x l IH]; simpl; [reflexivity|]. by rewrite IH. Qed.

(** ** The order on strings and keys *)

Lemma str_lt_irrefl (s : str) : str_lt s s = false.
Proof.
  induction s as [|c s IH]; simpl; [reflexivity|].
  by rewrite N.ltb_irrefl.
Qed.

Lemma str_lt_trans (s t u : str) :
  str_lt s t = true -> str_lt t u = true -> str_lt s u = true.
Proof.
  revert t u. induction s as [|c s IH]; intros [|d t] [|e u]; simpl; try done.
  destruct (N.ltb_spec c d), (N.ltb_spec d c), (N.ltb_spec d e),
    (N.ltb_spec e d), (N.ltb_spec c e), (N.ltb_spec e c);
    try done; try lia.
  apply IH.
Qed.

Lemma str_lt_total (s t : str) :
  str_lt s t = true \/ s = t \/ str_lt t s = true.
Proof.
  revert t. induction s as [|c s IH]; intros [|d t]; simpl; auto.
  destruct (N.ltb_spec c d), (N.ltb_spec d c); auto; try lia.
  assert (c = d) as -> by lia.
  destruct (IH t) as [?|[->|?]]; auto.
Qed.

Lemma val_lt_irrefl (x : CompVal) : val_lt x x = false.
Proof. destruct x; simpl; auto using str_lt_irrefl. apply Z.ltb_irrefl. Qed.

Lemma val_lt_trans (x y z : CompVal) :
  val_lt x y = true -> val_lt y z = true -> val_lt x z = true.
Proof.
  destruct x, y, z; simpl; try done; eauto using str_lt_trans.
  rewrite !Z.ltb_lt. lia.
Qed.

Lemma val_lt_total (x y : CompVal) :
  same_kind x y -> val_lt x y = true \/ x = y \/ val_lt y x = true.
Proof.
  destruct x as [a|s|s], y as [b|t|t]; simpl; try done; intros _.
  - rewrite !Z.ltb_lt. destruct (Z.lt_trichotomy a b) as [?|[->|?]]; auto.
  - destruct (str_lt_total s t) as [?|[->|?]]; auto.
  - destruct (str_lt_total s t) as [?|[->|?]]; auto.
Qed.

Lemma val_lt_negtrans (x y z : CompVal) :
  same_kind x y -> val_lt x z = true -> val_lt x y = true \/ val_lt y z = true.
Proof.
  intros Hk Hxz. destruct (val_lt_total x y Hk) as [?|[->|Hyx]]; auto.
  right. eauto using val_lt_trans.
Qed.

Lemma tuple_lt_irrefl (a : list CompVal) : tuple_lt a a = false.
Proof.
  induction a as [|x a IH]; simpl; [reflexivity|].
  by rewrite decide_True.
Qed.

Lemma tuple_lt_negtrans (a b c : list CompVal) :
  Forall2 same_kind a b -> Forall2 same_kind b c ->
  tuple_lt a c = true -> tuple_lt a b = true \/ tuple_lt b c = true.
Proof.
  intros Hab. revert c. induction Hab as [|x y a b Hxy Hab IH]; intros c Hbc.
  - inversion Hbc; subst. simpl. auto.
  - inversion Hbc as [|? z ? c' Hyz Hbc']; subst. simpl.
    destruct (decide (x = z)) as [->|Hxz].
    + intros Hac. destruct (decide (z = y)) as [->|Hzy].
      * rewrite decide_True by done. eauto.
      * rewrite (decide_False (P := y = z)) by congruence.
        destruct (val_lt_total z y Hxy) as [?|[?|?]]; auto; congruence.
    + intros Hv. destruct (decide (x = y)) as [->|Hxy'].
      * rewrite (decide_False (P := y = z)) by congruence. auto.
      * destruct (decide (y = z)) as [->|Hyz']; [auto|].
        apply val_lt_negtrans; assumption.
Qed.

Lemma val_lt_asym (x y : CompVal) : val_lt x y = true -> val_lt y x = false.
Proof.
  intros Hxy. destruct (val_lt y x) eqn:Hyx; [|reflexivity].
  pose proof (val_lt_trans _ _ _ Hxy Hyx) as H.
  by rewrite val_lt_irrefl in H.
Qed.

Lemma tuple_lt_asym (a b : list CompVal) :
  tuple_lt a b = true -> tuple_lt b a = false.
Proof.
  revert b. induction a as [|x a IH]; intros [|y b]; simpl; try done.
  destruct (decide (x = y)) as [->|Hne].
  - rewrite decide_True by done. apply IH.
  - rewrite decide_False by congruence. apply val_lt_asym.
Qed.

(** ** [sorted] is a stable sort *)

Section StableSort.
Context {A : Type} (key : A -> list CompVal).
Hypothesis key_shape : forall a b, Forall2 same_kind (key a) (key b).

Lemma insort_perm (x : A) (l : list A) : insort key x l ≡ₚ x :: l.
Proof.
  induction l as [|y l IH]; simpl; [reflexivity|].
  destruct (tuple_lt (key y) (key x)); [|reflexivity].
  rewrite IH. apply Permutation_swap.
Qed.

Lemma sorted_perm (l : list A) : sorted key l ≡ₚ l.
Proof.
  induction l as [|x l IH]; simpl; [reflexivity|].
  unfold sorted in *. simpl. rewrite insort_perm. by rewrite IH.
Qed.

Lemma insort_sorted (x : A) (l : list A) :
  StronglySorted (key_le key) l -> StronglySorted (key_le key) (insort key x l).
Proof.
  induction 1 as [|y l Hl IH Hy]; simpl.
  - repeat constructor.
  - destruct (tuple_lt (key y) (key x)) eqn:Hyx.
    + constructor; [assumption|].
      rewrite insort_perm. constructor; [|assumption].
      unfold key_le. by apply tuple_lt_asym.
    + constructor; [by constructor|].
      constructor; [assumption|].
      eapply Forall_impl; [exact Hy|]. intros z Hz. unfold key_le in *.
      destruct (tuple_lt (key z) (key x)) eqn:Hzx; [|reflexivity].
      destruct (tuple_lt_negtrans (key z) (key y) (key x)) as [H|H];
        auto; congruence.
Qed.

Lemma sorted_sorted (l : list A) : StronglySorted (key_le key) (sorted key l).
Proof.
  induction l as [|x l IH]; [constructor|].
  unfold sorted in *. simpl. by apply insort_sorted.
Qed.

Lemma insort_stable (k : list CompVal) (x : A) (l : list A) :
  List.filter (fun a => bool_decide (key a = k)) (insort key x l)
  = List.filter (fun a => bool_decide (key a = k)) (x :: l).
Proof.
  induction l as [|y l IH]; [reflexivity|]. cbn [insort].
  destruct (tuple_lt (key y) (key x)) eqn:Hyx; [|reflexivity].
  cbn [List.filter] in *. rewrite IH.
  destruct (bool_decide_reflect (key y = k)) as [Hy|Hy];
    destruct (bool_decide_reflect (key x = k)) as [Hx|Hx]; try reflexivity.
  rewrite Hy, Hx, tuple_lt_irrefl in Hyx. discriminate.
Qed.

Lemma sorted_stable (k : list CompVal) (l : list A) :
  List.filter (fun a => bool_decide (key a = k)) (sorted key l)
  = List.filter (fun a => bool_decide (key a = k)) l.
Proof.
  induction l as [|x l IH]; [reflexivity|].
  unfold sorted in *. cbn [foldr]. rewrite insort_stable.
  cbn [List.filter]. by rewrite IH.
Qed.

End StableSort.

Lemma insort_map {A B} (key : B -> list CompVal) (g : A -> B) (x : A) (l : list A) :
  insort key (g x) (List.map g l) = List.map g (insort (fun a => key (g a)) x l).
Proof.
  induction l as [|y l IH]; simpl; [reflexivity|].
  destruct (tuple_lt (key (g y)) (key (g x))); simpl; [by rewrite IH | reflexivity].
Qed.

Lemma sorted_map {A B} (key : B -> list CompVal) (g : A -> B) (l : list A) :
  sorted key (List.map g l) = List.map g (sorted (fun a => key (g a)) l).
Proof.
  induction l as [|x l IH]; [reflexivity|].
  unfold sorted in *. simpl. rewrite IH. apply insort_map.
Qed.

Lemma filter_map_comm {A B} (p : B -> bool) (g : A -> B) (l : list A) :
  List.filter p (List.map g l) = List.map g (List.filter (fun a => p (g a)) l).
Proof.
  induction l as [|x l IH]; simpl; [reflexivity|].
  destruct (p (g x)); simpl; by rewrite IH.
Qed.

(** ** Trees *)

Lemma Node_ind (P : Node -> Prop) :
  (forall n, (forall c, c ∈ child_nodes n -> P c) -> P n) -> forall n, P n.
Proof.
  intros step. fix IH 1. intros [p nm e m cs]. apply step.
  assert (Forall P (child_nodes (mkNode p nm e m cs))) as HF.
  { unfold child_nodes. simpl. destruct cs as [cs|]; [|constructor].
    induction cs as [|[k c] cs IHcs]; simpl; constructor;
      [apply IH | exact IHcs]. }
  clear IH. intros c Hc. rewrite Forall_forall in HF. by apply HF.
Qed.

Lemma descendants_eq (node : Node) (depth : nat) :
  descendants node depth
  = (node, depth) :: flat_map (fun c => descendants c (S depth)) (child_nodes node).
Proof.
  destruct node as [p nm e m [cs|]]; simpl; [|reflexivity]. f_equal.
  unfold child_nodes. simpl. induction cs as [|kc cs IH]; simpl; [reflexivity|].
  by rewrite IH.
Qed.

Lemma descendants_child (root : Node) (d0 : nat) (n c : Node) (d : nat) :
  (n, d) ∈ descendants root d0 -> c ∈ child_nodes n ->
  (c, S d) ∈ descendants root d0.
Proof.
  revert d0. induction root as [root IH] using Node_ind. intros d0 Hn Hc.
  rewrite descendants_eq in *. apply elem_of_cons in Hn.
  destruct Hn as [[= -> ->] | Hn].
  - right. apply list_elem_of_In, in_flat_map. exists c.
    split; [by apply list_elem_of_In|].
    rewrite descendants_eq. by left.
  - right. apply list_elem_of_In, in_flat_map in Hn.
    destruct Hn as (k & Hk & Hn). apply list_elem_of_In in Hk, Hn.
    apply list_elem_of_In, in_flat_map. exists k.
    split; [by apply list_elem_of_In|]. apply list_elem_of_In. eauto.
Qed.

(** ** The reverse index *)

Lemma submseteq_NoDup {A} (l k : list A) : l ⊆+ k -> NoDup k -> NoDup l.
Proof.
  intros Hsub Hk. apply submseteq_Permutation in Hsub. destruct Hsub as (k' & Hperm).
  rewrite Hperm in Hk. by apply NoDup_app in Hk as (? & _ & _).
Qed.

Lemma flat_map_bind {A B} (f : A -> list B) (l : list A) : flat_map f l = l ≫= f.
Proof. induction l as [|x l IH]; [reflexivity|]. simpl. by rewrite IH. Qed.

Lemma index_from_cons (k : nat) (m : gmap str nat) (x : Node) (l : list Node) :
  index_from k m (x :: l) = index_from (S k) (<[path x := k]> m) l.
Proof.
  unfold index_from. rewrite imap_cons. cbn [foldl]. simpl.
  rewrite Nat.add_0_r. f_equal. apply imap_ext. intros i y _. simpl.
  f_equal. lia.
Qed.

Lemma index_paths_from (l : list Node) : index_paths l = index_from 0 ∅ l.
Proof. reflexivity. Qed.

Lemma index_from_other (k : nat) (m : gmap str nat) (l : list Node) (p : str) :
  p ∉ path <$> l -> index_from k m l !! p = m !! p.
Proof.
  revert k m. induction l as [|x l IH]; intros k m Hp; [reflexivity|].
  rewrite index_from_cons. rewrite fmap_cons, not_elem_of_cons in Hp.
  destruct Hp as [Hne Hp]. rewrite IH by done. by rewrite lookup_insert_ne.
Qed.

Lemma index_from_is_Some (k : nat) (m : gmap str nat) (l : list Node) (p : str) :
  is_Some (m !! p) \/ p ∈ path <$> l -> is_Some (index_from k m l !! p).
Proof.
  revert k m. induction l as [|x l IH]; intros k m Hp.
  - destruct Hp as [Hp|Hp]; [exact Hp | by apply elem_of_nil in Hp].
  - rewrite index_from_cons. apply IH.
    destruct (decide (p = path x)) as [->|Hne].
    + left. rewrite lookup_insert_eq. eauto.
    + destruct Hp as [Hp|Hp].
      * left. by rewrite lookup_insert_ne.
      * right. rewrite fmap_cons in Hp. apply elem_of_cons in Hp. by destruct Hp.
Qed.

Lemma index_from_NoDup (k : nat) (m : gmap str nat) (l : list Node) (i : nat) (n : Node) :
  NoDup (path <$> l) -> l !! i = Some n ->
  index_from k m l !! path n = Some (k + i)%nat.
Proof.
  revert k m i. induction l as [|x l IH]; intros k m i Hnd Hi; [done|].
  rewrite index_from_cons. rewrite fmap_cons in Hnd. apply NoDup_cons in Hnd.
  destruct Hnd as [Hx Hnd]. destruct i as [|i]; simpl in Hi.
  - injection Hi as ->. rewrite index_from_other by done.
    rewrite lookup_insert_eq. f_equal. lia.
  - rewrite (IH _ _ i) by done. f_equal. lia.
Qed.

(** ** The comparator *)

Section Comparator.
Context {modes : ModeEnum} {platform : Platform}.

Lemma comp_cons (sb : Sortby) (sortby : list Sortby) (node : Node) :
  comp (sb :: sortby) node = comp [sb] node ++ comp sortby node.
Proof. reflexivity. Qed.

Lemma comp_shape (sortby : list Sortby) (a b : Node) :
  Forall2 same_kind (comp sortby a) (comp sortby b).
Proof.
  induction sortby as [|sb sortby IH]; [constructor|].
  constructor; [|exact IH]. destruct sb; exact I.
Qed.

Lemma comp_head_eq (sb : Sortby) (a b : Node) :
  comp [sb] a = comp [sb] b <-> key_eq sb a b.
Proof.
  destruct sb; cbn [comp List.map key_eq].
  - unfold FOLDER, FILE.
    destruct (decide (Mode_folder ∈ mode a)), (decide (Mode_folder ∈ mode b));
      split; try done; try tauto; intros [Hab Hba]; tauto.
  - split; [by intros [= ->] | by intros ->].
  - split; [by intros [= ->] | by intros ->].
Qed.

Lemma comp_head_lt (sb : Sortby) (a b : Node) :
  tuple_lt (comp [sb] a) (comp [sb] b) = true <-> key_lt sb a b.
Proof.
  destruct sb; cbn [comp List.map key_lt tuple_lt].
  - unfold FOLDER, FILE.
    destruct (decide (Mode_folder ∈ mode a)), (decide (Mode_folder ∈ mode b));
      simpl; split; try done; try tauto; intros [? ?]; tauto.
  - destruct (decide (K_ext _ = K_ext _)) as [[= ->]|Hne]; simpl;
      [by rewrite str_lt_irrefl | reflexivity].
  - destruct (decide (K_name _ = K_name _)) as [[= ->]|Hne]; simpl;
      [by rewrite str_lt_irrefl | reflexivity].
Qed.

Lemma key_lt_not_eq (sb : Sortby) (a b : Node) : key_lt sb a b -> ~ key_eq sb a b.
Proof.
  destruct sb; cbn [key_lt key_eq].
  - tauto.
  - intros Hlt Heq. rewrite Heq, str_lt_irrefl in Hlt. discriminate.
  - intros Hlt Heq. rewrite Heq, str_lt_irrefl in Hlt. discriminate.
Qed.

(** [comp a < comp b] is the lexicographic order over the sort keys. *)
Lemma comp_lt_spec (sortby : list Sortby) (a b : Node) :
  tuple_lt (comp sortby a) (comp sortby b) = true <-> ranks_before sortby a b.
Proof.
  induction sortby as [|sb sortby IH].
  - split; [discriminate|]. intros (pre & k & post & Heq & _).
    by destruct pre.
  - pose proof (comp_head_eq sb a b) as Heq.
    pose proof (comp_head_lt sb a b) as Hlt.
    rewrite (comp_cons sb sortby a), (comp_cons sb sortby b).
    assert (exists x, comp [sb] a = [x]) as (x & Ha) by (eexists; reflexivity).
    assert (exists y, comp [sb] b = [y]) as (y & Hb) by (eexists; reflexivity).
    rewrite Ha, Hb in *. clear Ha Hb.
    cbn [app tuple_lt] in *. destruct (decide (x = y)) as [->|Hne].
    + rewrite IH. split.
      * intros (pre & k & post & -> & Hpre & Hk). exists (sb :: pre), k, post.
        split; [reflexivity|]. split; [|exact Hk].
        intros k' Hk'. apply elem_of_cons in Hk'.
        destruct Hk' as [-> | Hk']; [by apply Heq | by apply Hpre].
      * intros (pre & k & post & Hsplit & Hpre & Hk). destruct pre as [|k0 pre].
        -- injection Hsplit as <- <-. apply key_lt_not_eq in Hk.
           destruct Hk. by apply Heq.
        -- injection Hsplit as <- ->. exists pre, k, post.
           split; [reflexivity|]. split; [|exact Hk].
           intros k' Hk'. apply Hpre. by right.
    + split.
      * intros Hv. exists [], sb, sortby. split; [reflexivity|].
        split; [intros k Hk; by apply elem_of_nil in Hk|].
        by apply Hlt.
      * intros (pre & k & post & Hsplit & Hpre & Hk). destruct pre as [|k0 pre].
        -- injection Hsplit as <- <-. by apply Hlt in Hk.
        -- injection Hsplit as <- ->. destruct Hne.
           assert (key_eq sb a b) as Hk0 by (apply Hpre; by left).
           apply Heq in Hk0. congruence.
Qed.

End Comparator.


Lemma StronglySorted_before {A} (R : A -> A -> Prop) (l1 l2 l3 : list A) (a b : A) :
  StronglySorted R (l1 ++ a :: l2 ++ b :: l3) -> R a b.
Proof.
  induction l1 as [|x l1 IH]; simpl; intros H; inversion H as [|? ? Hl HF]; subst.
  - rewrite Forall_app, Forall_cons in HF. apply HF.
  - by apply IH.
Qed.

Lemma comp_eq_spec `{ModeEnum, Platform} (sortby : list Sortby) (a b : Node) :
  comp sortby a = comp sortby b <-> forall sb, sb ∈ sortby -> key_eq sb a b.
Proof.
  induction sortby as [|sb sortby IH].
  - split; [|reflexivity]. intros _ sb Hsb. by apply elem_of_nil in Hsb.
  - rewrite (comp_cons sb sortby a), (comp_cons sb sortby b).
    pose proof (comp_head_eq sb a b) as Heq.
    assert (exists x, comp [sb] a = [x]) as (x & Ha) by (eexists; reflexivity).
    assert (exists y, comp [sb] b = [y]) as (y & Hb) by (eexists; reflexivity).
    rewrite Ha, Hb in *. clear Ha Hb. cbn [app]. split.
    + intros [= -> Htl] k Hk. apply elem_of_cons in Hk.
      destruct Hk as [-> | Hk]; [by apply Heq | by apply IH].
    + intros Hall. assert ([x] = [y]) as [= ->] by (apply Heq, Hall; by left).
      f_equal. apply IH. intros k Hk. apply Hall. by right.
Qed.


(** ** The walk of [render] *)

Section Walk.
Context {modes : ModeEnum} {platform : Platform}.
Variables (settings : Settings) (index selection : gset str)
  (filter_pattern : option FilterPattern)
  (qf : QuickFix) (vc : VCStatus) (show_hidden : bool) (current : option str).

#[local] Abbreviation paint := (show settings index selection qf vc current).
#[local] Abbreviation inner :=
  (render_inner settings index selection filter_pattern qf vc show_hidden current).
#[local] Abbreviation dropped := (drop settings vc show_hidden).
#[local] Abbreviation clear_of := (is_clear filter_pattern).
#[local] Abbreviation kids := (kids_of settings vc show_hidden).
#[local] Abbreviation called := (call settings filter_pattern vc show_hidden).

(** The inner [render] as the source has it: paint the node, recurse into
    the sorted children that are not dropped, yield the node's line when
    it is included, then the children's lines. *)
Lemma render_inner_eq (keep_open : gset str) (node : Node) (depth : nat) (cleared : bool) :
  inner keep_open node depth cleared =
  (rend <- paint node depth ;;
   chn <- collect (fun c => inner keep_open c (S depth) (clear_of cleared node))
            (kids node) ;;
   ret ((if clear_of cleared node || nonempty chn
            || bool_decide (path node ∈ keep_open)
         then [(node, rend)] else []) ++ chn)).
Proof.
  destruct node as [p nm e m cs]. cbn [render_inner].
  set (n := mkNode p nm e m cs).
  destruct (paint n depth) as [err|rend]; [reflexivity|]. cbn [bind].
  assert (match children n with
          | Some cs0 =>
              List.map (fun kc : str * Node =>
                (kc.2, inner keep_open kc.2 (S depth) (clear_of cleared n))) cs0
          | None => []
          end
          = List.map (fun c => (c, inner keep_open c (S depth) (clear_of cleared n)))
              (child_nodes n)) as Hgens.
  { unfold child_nodes. destruct (children n); [|reflexivity].
    by rewrite List.map_map. }
  rewrite Hgens, filter_map_comm.
  rewrite (sorted_map (fun g : Node * result (list (Node * Render)) =>
                         comp (sort_by (view settings)) g.1)).
  rewrite collect_snd_map. reflexivity.
Qed.

(** What a call that returns is made of. *)
Lemma render_inner_inv (ko : gset str) (n : Node) (d : nat) (c : bool)
    (out : list (Node * Render)) :
  inner ko n d c = inr out ->
  exists rend blocks,
    paint n d = inr rend
    /\ Forall2 (fun ch b => inner ko ch (S d) (clear_of c n) = inr b) (kids n) blocks
    /\ out = (if clear_of c n || nonempty (concat blocks)
                 || bool_decide (path n ∈ ko)
              then [(n, rend)] else []) ++ concat blocks.
Proof.
  rewrite render_inner_eq. intros H.
  apply bind_inr in H. destruct H as (rend & Hrend & H).
  apply bind_inr in H. destruct H as (chn & Hchn & [= <-]).
  apply collect_inr in Hchn. destruct Hchn as (blocks & HF & ->).
  eauto.
Qed.

(** A call yields nothing, or the node's own line first. *)
Lemma render_inner_head (ko : gset str) (n : Node) (d : nat) (c : bool)
    (out : list (Node * Render)) :
  inner ko n d c = inr out ->
  out = [] \/ exists rend rest, paint n d = inr rend /\ out = (n, rend) :: rest.
Proof.
  intros H. apply render_inner_inv in H.
  destruct H as (rend & blocks & Hrend & _ & ->).
  destruct (clear_of c n || nonempty (concat blocks) || bool_decide (path n ∈ ko))
    eqn:Hincl.
  - right. eauto.
  - left. rewrite !orb_false_iff in Hincl. destruct Hincl as [[_ Hne] _].
    by destruct (concat blocks).
Qed.

Lemma kids_children (n ch : Node) : ch ∈ kids n -> ch ∈ child_nodes n.
Proof.
  unfold kids_of. rewrite sorted_perm. intros H.
  apply list_elem_of_In, filter_In in H. apply list_elem_of_In, H.
Qed.


(** Every call is on a node reachable from the root, at its depth. *)
Lemma call_descendant (root : Node) ancs n d c :
  called root ancs n d c -> (n, d) ∈ descendants root 0.
Proof.
  induction 1 as [|ancs n d c ch _ IH Hch].
  - rewrite descendants_eq. by left.
  - eauto using descendants_child, kids_children.
Qed.

(** When the walk returns, every call it made returned, and what that call
    yielded is one contiguous run of the result. *)
Lemma call_returns (ko : gset str) (root : Node) (out : list (Node * Render)) ancs n d c :
  inner ko root 0 false = inr out -> called root ancs n d c ->
  exists o l1 l2,
    inner ko n d c = inr o /\ out = l1 ++ o ++ l2
    /\ (d = 0%nat -> l1 = [] /\ l2 = []).
Proof.
  intros Hroot. induction 1 as [|ancs n d c ch _ IH Hch].
  - exists out, [], []. by rewrite app_nil_r.
  - destruct IH as (o & l1 & l2 & Ho & Hout & _).
    apply render_inner_inv in Ho. destruct Ho as (rend & blocks & _ & HF & Ho).
    remember (if clear_of c n || nonempty (concat blocks) || bool_decide (path n ∈ ko)
              then [(n, rend)] else []) as own eqn:Hown. clear Hown.
    apply list_elem_of_lookup in Hch. destruct Hch as (i & Hi).
    destruct (Forall2_lookup_l _ _ _ _ _ HF Hi) as (b & Hb & Hret).
    apply take_drop_middle in Hb.
    assert (concat blocks
            = concat (take i blocks) ++ b ++ concat (list.drop (S i) blocks)) as Hcat.
    { rewrite <- Hb at 1. by rewrite concat_app. }
    exists b, (l1 ++ own ++ concat (take i blocks)),
      (concat (list.drop (S i) blocks) ++ l2).
    split; [exact Hret|]. split; [|discriminate].
    rewrite Hout, Ho, Hcat. by rewrite <- !app_assoc.
Qed.

(** A call whose painting raises makes the walk raise. *)
Lemma call_raises (ko : gset str) (root : Node) ancs n d c e :
  called root ancs n d c -> paint n d = inl e ->
  exists e', inner ko root 0 false = inl e'.
Proof.
  intros Hcall Hpaint.
  destruct (inner ko root 0 false) as [e'|out] eqn:Hroot; [eauto|].
  destruct (call_returns _ _ _ _ _ _ _ Hroot Hcall) as (o & _ & _ & Ho & _).
  apply render_inner_inv in Ho. destruct Ho as (rend & _ & Hrend & _). congruence.
Qed.

(** What a call yields is drawn, without repetition, from the nodes
    reachable from its node. *)
Lemma render_inner_submseteq (ko : gset str) (n : Node) (d : nat) (c : bool)
    (out : list (Node * Render)) :
  inner ko n d c = inr out -> out.*1 ⊆+ (descendants n d).*1.
Proof.
  revert d c out. induction n as [n IH] using Node_ind. intros d c out Hout.
  apply render_inner_inv in Hout. destruct Hout as (rend & blocks & _ & HF & ->).
  rewrite descendants_eq, flat_map_bind, fmap_app, fmap_cons.
  change ((n, d).1 :: ((child_nodes n ≫= fun ch => descendants ch (S d)).*1))
    with ([n] ++ (child_nodes n ≫= fun ch => descendants ch (S d)).*1).
  apply submseteq_app.
  - destruct (_ || _ || _); [reflexivity | apply submseteq_nil_l].
  - trans ((kids n ≫= fun ch => descendants ch (S d)).*1).
    + assert (forall ch, ch ∈ kids n -> ch ∈ child_nodes n) as Hsub
        by apply kids_children.
      revert Hsub. induction HF as [|ch b ks bs Hb HF IHF]; intros Hsub.
      * reflexivity.
      * cbn [concat]. rewrite bind_cons, !fmap_app. apply submseteq_app.
        -- eapply IH; [|exact Hb]. apply Hsub. by left.
        -- apply IHF. intros ch' Hch'. apply Hsub. by right.
    + apply fmap_submseteq, bind_submseteq. unfold kids_of.
      rewrite sorted_perm. apply sublist_submseteq.
      clear. induction (child_nodes n) as [|x l IHl]; simpl; [constructor|].
      destruct (negb (dropped x)); by constructor.
Qed.

(** The call on the root yields the root's line first. *)
Lemma render_root_head (root : Node) (out : list (Node * Render)) :
  inner {[ path root ]} root 0 false = inr out ->
  exists rend rest, paint root 0 = inr rend /\ out = (root, rend) :: rest.
Proof.
  intros H. apply render_inner_inv in H.
  destruct H as (rend & blocks & Hrend & _ & ->).
  rewrite (bool_decide_eq_true_2 (path root ∈ ({[ path root ]} : gset str)))
    by set_solver.
  rewrite orb_true_r. eauto.
Qed.

(** When every painting of a reachable node returns, the walk returns. *)
Lemma render_inner_total (ko : gset str) (n : Node) (d : nat) (c : bool) :
  (forall n' d', (n', d') ∈ descendants n d -> exists r, paint n' d' = inr r) ->
  exists out, inner ko n d c = inr out.
Proof.
  revert d c. induction n as [n IH] using Node_ind. intros d c Hpaint.
  rewrite render_inner_eq.
  destruct (Hpaint n d) as (rend & ->); [rewrite descendants_eq; by left|].
  cbn [bind].
  destruct (collect_total
              (fun ch => inner ko ch (S d) (clear_of c n)) (kids n)) as (chn & ->).
  - intros ch Hch. apply IH; [by apply kids_children|].
    intros n' d' Hin. apply Hpaint. rewrite descendants_eq, flat_map_bind.
    right. apply list_elem_of_bind. exists ch. split; [done|].
    by apply kids_children.
  - cbn [bind]. eauto.
Qed.


#[local] Abbreviation render_tree :=
  (render settings index selection filter_pattern qf vc show_hidden current).

Lemma render_inr (root : Node) (d : Derived) :
  render_tree root = inr d ->
  exists rend rest,
    inner {[ path root ]} root 0 false = inr ((root, rend) :: rest)
    /\ paint root 0 = inr rend
    /\ lookup d = root :: rest.*1
    /\ rendered d = rend :: rest.*2
    /\ paths_lookup d = index_paths (lookup d).
Proof.
  unfold render. intros H. apply bind_inr in H. destruct H as (out & Hout & H).
  destruct (render_root_head _ _ Hout) as (rend & rest & Hrend & ->).
  injection H as <-. exists rend, rest. by repeat split.
Qed.

(** When [render] returns, what a call of the walk yielded is one
    contiguous run of [lookup]; the root's call yielded all of it. *)
Lemma render_call (root : Node) (dv : Derived) ancs n d c :
  render_tree root = inr dv -> called root ancs n d c ->
  exists out before after,
    inner {[ path root ]} n d c = inr out
    /\ lookup dv = before ++ out.*1 ++ after
    /\ (d = 0%nat -> before = [] /\ after = []).
Proof.
  intros Hdv Hcall.
  destruct (render_inr _ _ Hdv) as (rend & rest & Hwhole & _ & Hl & _).
  destruct (call_returns _ _ _ _ _ _ _ Hwhole Hcall)
    as (out & l1 & l2 & Hout & Heq & Hzero).
  exists out, (l1.*1), (l2.*1). split; [exact Hout|]. split.
  - rewrite Hl. change (root :: rest.*1) with (((root, rend) :: rest).*1).
    by rewrite Heq, !fmap_app.
  - intros Hd. destruct (Hzero Hd) as [-> ->]. by split.
Qed.

(** Painting raises nothing but a lookup error or an encoding error. *)
Lemma show_raises (n : Node) (d : nat) (e : exn) :
  paint n d = inl e -> e <> ValueError.
Proof.
  unfold show, gen_badges, gen_highlights, locations_getitem, encoded_len,
    str_encode.
  repeat (match goal with
          | |- context [match ?x with _ => _ end] => destruct x
          end; cbn [bind ret raise]); intros [= <-]; discriminate.
Qed.

Lemma render_inner_raises (ko : gset str) (n : Node) (d : nat) (c : bool) (e : exn) :
  inner ko n d c = inl e -> e <> ValueError.
Proof.
  revert d c. induction n as [n IH] using Node_ind. intros d c.
  rewrite render_inner_eq. intros H. apply bind_inl in H.
  destruct H as [H | (rend & _ & H)]; [by eapply show_raises|].
  apply bind_inl in H. destruct H as [H | (chn & _ & H)]; [|discriminate].
  apply collect_inl_inv in H. destruct H as (ch & Hch & H).
  eapply IH; [by apply kids_children | exact H].
Qed.

(** C3. For every filter pattern and every tree: [render] never fails for
    want of output lines; whenever it returns, the root is the first entry
    of [lookup] and its path is a key of [paths_lookup]; and it does return
    whenever the painting of every reachable node returns. *)
Theorem root_always_visible (root : Node) :
  render_tree root <> inl ValueError
  /\ (forall d, render_tree root = inr d ->
        is_Some (paths_lookup d !! path root) /\ lookup d !! 0%nat = Some root)
  /\ ((forall n' d', (n', d') ∈ descendants root 0 -> exists r, paint n' d' = inr r) ->
      exists d, render_tree root = inr d).
Proof.
  split; [|split].
  - unfold render. intros H. apply bind_inl in H.
    destruct H as [H | (out & Hout & H)].
    + by apply render_inner_raises in H.
    + destruct (render_root_head _ _ Hout) as (rend & rest & _ & ->). discriminate.
  - intros d Hd. destruct (render_inr _ _ Hd) as (rend & rest & _ & _ & Hl & _ & Hp).
    rewrite Hp, Hl. split; [|reflexivity].
    rewrite index_paths_from. apply index_from_is_Some. right.
    rewrite fmap_cons. by left.
  - intros Hpaint.
    destruct (render_inner_total {[ path root ]} root 0 false Hpaint) as (out & Hout).
    unfold render. rewrite Hout. cbn [bind].
    destruct (render_root_head _ _ Hout) as (rend & rest & _ & ->). eauto.
Qed.


(** C7. In a tree whose reachable nodes have pairwise different paths, the
    reverse index sends the path of the [i]-th entry of [lookup] to [i]. *)
Theorem lookup_round_trip (root : Node) (d : Derived) (i : nat) (n : Node) :
  NoDup ((fun nd => path nd.1) <$> descendants root 0) ->
  render_tree root = inr d ->
  lookup d !! i = Some n ->
  paths_lookup d !! path n = Some i.
Proof.
  intros Huniq Hd Hi.
  destruct (render_inr _ _ Hd) as (rend & rest & Hout & _ & Hl & _ & Hp).
  rewrite Hp, index_paths_from.
  rewrite (index_from_NoDup 0 ∅ (lookup d) i n); [reflexivity | | exact Hi].
  apply render_inner_submseteq in Hout. rewrite Hl.
  change (root :: rest.*1) with (((root, rend) :: rest).*1).
  eapply submseteq_NoDup; [apply fmap_submseteq, Hout|].
  by rewrite <- list_fmap_compose.
Qed.













(** The order of what one call yields. *)
Lemma render_inner_order (ko : gset str) (n : Node) (d : nat) (c : bool)
    (out : list (Node * Render)) :
  inner ko n d c = inr out ->
  exists rend blocks,
    paint n d = inr rend
    /\ (out = (n, rend) :: concat blocks \/ (out = [] /\ concat blocks = []))
    /\ Forall2 (fun ch b =>
          inner ko ch (S d) (clear_of c n) = inr b
          /\ (b = [] \/ exists r rest, paint ch (S d) = inr r /\ b = (ch, r) :: rest))
        (kids n) blocks
    /\ kids n ≡ₚ List.filter (fun ch => negb (dropped ch)) (child_nodes n)
    /\ (forall l1 a l2 b l3,
          kids n = l1 ++ a :: l2 ++ b :: l3 ->
          ~ ranks_before (sort_by (view settings)) b a)
    /\ (forall k,
          List.filter (fun x => bool_decide (comp (sort_by (view settings)) x = k))
            (kids n)
          = List.filter (fun x => bool_decide (comp (sort_by (view settings)) x = k))
              (List.filter (fun ch => negb (dropped ch)) (child_nodes n)))
    /\ (forall a b,
          (tuple_lt (comp (sort_by (view settings)) a)
             (comp (sort_by (view settings)) b) = true
           <-> ranks_before (sort_by (view settings)) a b)
          /\ (comp (sort_by (view settings)) a = comp (sort_by (view settings)) b
              <-> forall sb, sb ∈ sort_by (view settings) -> key_eq sb a b)).
Proof.
  intros Hout. apply render_inner_inv in Hout.
  destruct Hout as (rend & blocks & Hrend & HF & ->).
  exists rend, blocks. split; [exact Hrend|]. split; [|split; [|split; [|split; [|split]]]].
  - destruct (clear_of c n || nonempty (concat blocks) || bool_decide (path n ∈ ko))
      eqn:Hincl; [by left|].
    right. rewrite !orb_false_iff in Hincl. destruct Hincl as [[_ Hne] _].
    by destruct (concat blocks).
  - eapply Forall2_impl; [exact HF|]. intros ch b Hb. split; [exact Hb|].
    by apply render_inner_head in Hb.
  - apply sorted_perm.
  - intros l1 a l2 b l3 Hsplit Hrank.
    pose proof (sorted_sorted (comp (sort_by (view settings)))
                  (comp_shape (sort_by (view settings)))
                  (List.filter (fun ch => negb (dropped ch)) (child_nodes n))) as Hs.
    fold (kids n) in Hs. rewrite Hsplit in Hs.
    apply StronglySorted_before in Hs. unfold key_le in Hs.
    apply comp_lt_spec in Hrank. congruence.
  - intros k. apply sorted_stable.
  - intros a b. split; [apply comp_lt_spec | apply comp_eq_spec].
Qed.

(** C2. When [render] returns, what each call of the walk yielded is one
    contiguous run of the output, the root's call yielding all of it. The
    run is the node's own line, when it is included, followed by what the
    calls on its children yielded, one contiguous block per child, each
    block empty or headed by that child's line. The children are taken in
    the order of a stable sort of the ones that were not dropped: the same
    nodes; no node stands before one that the comparator ranks strictly
    before it; nodes with equal key tuples keep the order in which they
    were enumerated. The comparator is the lexicographic order over the
    configured sort keys, and two key tuples are equal exactly when the
    nodes tie under every key. *)
Theorem preorder_and_sibling_order (root : Node) (dv : Derived) ancs n d c :
  render_tree root = inr dv ->
  called root ancs n d c ->
  exists out before after rend blocks,
    inner {[ path root ]} n d c = inr out
    /\ lookup dv = before ++ out.*1 ++ after
    /\ (d = 0%nat -> before = [] /\ after = [])
    /\ paint n d = inr rend
    /\ (out = (n, rend) :: concat blocks \/ (out = [] /\ concat blocks = []))
    /\ Forall2 (fun ch b =>
          inner {[ path root ]} ch (S d) (clear_of c n) = inr b
          /\ (b = [] \/ exists r rest, paint ch (S d) = inr r /\ b = (ch, r) :: rest))
        (kids n) blocks
    /\ kids n ≡ₚ List.filter (fun ch => negb (dropped ch)) (child_nodes n)
    /\ (forall l1 a l2 b l3,
          kids n = l1 ++ a :: l2 ++ b :: l3 ->
          ~ ranks_before (sort_by (view settings)) b a)
    /\ (forall k,
          List.filter (fun x => bool_decide (comp (sort_by (view settings)) x = k))
            (kids n)
          = List.filter (fun x => bool_decide (comp (sort_by (view settings)) x = k))
              (List.filter (fun ch => negb (dropped ch)) (child_nodes n)))
    /\ (forall a b,
          (tuple_lt (comp (sort_by (view settings)) a)
             (comp (sort_by (view settings)) b) = true
           <-> ranks_before (sort_by (view settings)) a b)
          /\ (comp (sort_by (view settings)) a = comp (sort_by (view settings)) b
              <-> forall sb, sb ∈ sort_by (view settings) -> key_eq sb a b)).
Proof.
  intros Hdv Hcall.
  destruct (render_call _ _ _ _ _ _ Hdv Hcall)
    as (out & before & after & Hout & Hl & Hzero).
  destruct (render_inner_order _ _ _ _ _ Hout) as (rend & blocks & Horder).
  exists out, before, after, rend, blocks.
  split; [exact Hout|]. split; [exact Hl|]. split; [exact Hzero|]. exact Horder.
Qed.


(** Every line a call yields is a node with what painting it returned. *)
Lemma render_inner_painted (ko : gset str) (n : Node) (d : nat) (c : bool)
    (out : list (Node * Render)) :
  inner ko n d c = inr out ->
  Forall (fun l => exists d', paint l.1 d' = inr l.2) out.
Proof.
  revert d c out. induction n as [n IH] using Node_ind. intros d c out Hout.
  apply render_inner_inv in Hout.
  destruct Hout as (rend & blocks & Hrend & HF & ->).
  apply Forall_app. split.
  - destruct (_ || _ || _); repeat constructor. eauto.
  - assert (forall ks bs,
              Forall2 (fun ch b => inner ko ch (S d) (clear_of c n) = inr b) ks bs ->
              (forall ch, ch ∈ ks -> ch ∈ kids n) ->
              Forall (fun l => exists d', paint l.1 d' = inr l.2) (concat bs)) as Hgen.
    { induction 1 as [|ch b ks' bs Hb HF' IHF]; intros Hsub; cbn [concat];
        [constructor|].
      apply Forall_app. split.
      - eapply IH; [|exact Hb]. apply kids_children, Hsub. by left.
      - apply IHF. intros ch' Hch'. apply Hsub. by right. }
    by eapply Hgen.
Qed.

Lemma render_raises (root : Node) (e : exn) :
  inner {[ path root ]} root 0 false = inl e -> render_tree root = inl e.
Proof. intros H. unfold render. by rewrite H. Qed.


End Walk.

(** ** Encoded lengths *)

Lemma encode_opt_app (s t : str) :
  encode_opt (s ++ t)
  = match encode_opt s, encode_opt t with
    | Some a, Some b => Some (a ++ b)
    | _, _ => None
    end.
Proof.
  induction s as [|c s IH]; simpl.
  - by destruct (encode_opt t).
  - rewrite IH. destruct (encode_cp c) as [bc|]; [|reflexivity].
    destruct (encode_opt s) as [a|]; [|reflexivity].
    destruct (encode_opt t) as [b|]; [|reflexivity].
    by rewrite app_assoc.
Qed.

Lemma encoded_len_inr (s : str) (n : nat) :
  encoded_len s = inr n <-> exists bs, encode_opt s = Some bs /\ length bs = n.
Proof.
  unfold encoded_len, str_encode. destruct (encode_opt s) as [bs|]; cbn.
  - split; [intros [= <-]; eauto | intros (bs' & [= <-] & <-); reflexivity].
  - split; [discriminate | by intros (bs' & ? & _)].
Qed.

Lemma encoded_len_inl (s : str) (e : exn) :
  encoded_len s = inl e <-> encode_opt s = None /\ e = UnicodeEncodeError s.
Proof.
  unfold encoded_len, str_encode. destruct (encode_opt s) as [bs|]; cbn.
  - split; [discriminate | by intros [? _]].
  - split; [by intros [= <-] | by intros [_ ->]].
Qed.

Lemma encoded_len_app (s t : str) (n m : nat) :
  encoded_len s = inr n -> encoded_len t = inr m ->
  encoded_len (s ++ t) = inr (n + m)%nat.
Proof.
  rewrite !encoded_len_inr. intros (a & Ha & <-) (b & Hb & <-).
  exists (a ++ b). by rewrite encode_opt_app, Ha, Hb, length_app.
Qed.

(** A span that covers the part [s2] of [s1 ++ s2 ++ s3]. *)
Lemma span_boundaries (s1 s2 s3 : str) (n1 n2 : nat) :
  encoded_len s1 = inr n1 -> encoded_len s2 = inr n2 ->
  char_boundary (s1 ++ s2 ++ s3) n1
  /\ char_boundary (s1 ++ s2 ++ s3) (n1 + n2)
  /\ within_encoded (s1 ++ s2 ++ s3) (n1 + n2).
Proof.
  intros H1 H2. pose proof (encoded_len_app _ _ _ _ H1 H2) as H12.
  apply encoded_len_inr in H1, H2, H12.
  destruct H1 as (a & Ha & <-), H2 as (b & Hb & <-), H12 as (ab & Hab & Hlen).
  split; [|split].
  - exists (length s1), a. by rewrite take_app_length.
  - exists (length (s1 ++ s2)), ab.
    by rewrite app_assoc, take_app_length.
  - intros bs. rewrite !encode_opt_app, Ha, Hb.
    destruct (encode_opt s3) as [c|]; [|discriminate]. intros [= <-].
    rewrite !length_app. lia.
Qed.


(** ** Names that cannot be encoded *)

Lemma encode_opt_None (s : str) :
  encode_opt s = None <-> exists c, c ∈ s /\ encode_cp c = None.
Proof.
  induction s as [|c s IH]; simpl.
  - split; [discriminate|]. intros (c & Hc & _). by apply elem_of_nil in Hc.
  - destruct (encode_cp c) as [bc|] eqn:Hc.
    + destruct (encode_opt s) as [bs|].
      * split; [discriminate|]. intros (c' & Hc' & Hnone).
        apply elem_of_cons in Hc'. destruct Hc' as [-> | Hc']; [congruence|].
        destruct IH as [_ IH]. discriminate IH. eauto.
      * split; [|reflexivity]. intros _.
        destruct IH as [IH _]. destruct (IH eq_refl) as (c' & Hc' & Hnone).
        exists c'. split; [by right | exact Hnone].
    + split; [|reflexivity]. intros _. exists c. split; [by left | exact Hc].
Qed.

Lemma startswith_prefix (s old : str) :
  startswith s old = true -> exists rest, s = old ++ rest.
Proof.
  revert s. induction old as [|o old IH]; intros s; simpl.
  - eauto.
  - destruct s as [|c s]; [discriminate|]. intros H.
    apply andb_true_iff in H. destruct H as [Hoc H].
    apply bool_decide_eq_true in Hoc. subst c.
    destruct (IH _ H) as (rest & ->). eauto.
Qed.

(** A code point that is not part of [old] survives the replacement. *)
Lemma replace_from_keeps (o : codepoint) (old new : str) (c : codepoint) (s : str)
    (skip : nat) :
  c ∉ o :: old -> (forall x, x ∈ take skip s -> x ∈ o :: old) ->
  c ∈ list.drop skip s ->
  c ∈ replace_from (o :: old) new skip s.
Proof.
  intros Hc. revert skip. induction s as [|x s IH]; intros skip Hskip Hin.
  - by rewrite drop_nil in Hin.
  - destruct skip as [|k]; cbn [replace_from].
    + destruct (startswith (x :: s) (o :: old)) eqn:Hstart.
      * apply elem_of_app. right.
        destruct (startswith_prefix _ _ Hstart) as (rest & Heq).
        injection Heq as -> ->.
        replace (length (o :: old) - 1)%nat with (length old) by (simpl; lia).
        apply IH.
        -- intros y Hy. rewrite take_app_length in Hy. by right.
        -- rewrite drop_app_length. simpl in Hin. apply elem_of_cons in Hin.
           destruct Hin as [-> | Hin]; [destruct Hc; by left|].
           apply elem_of_app in Hin. destruct Hin as [Hin | Hin]; [|exact Hin].
           destruct Hc. by right.
      * simpl in Hin. apply elem_of_cons in Hin. destruct Hin as [-> | Hin].
        -- by left.
        -- right. apply IH; [intros y Hy; by apply elem_of_nil in Hy | exact Hin].
    + apply IH.
      * intros y Hy. apply Hskip. simpl. by right.
      * exact Hin.
Qed.

Lemma replace_keeps (s old new : str) (c : codepoint) :
  c ∈ s -> c ∉ old -> c ∈ replace s old new.
Proof.
  intros Hin Hc. unfold replace. destruct old as [|o old].
  - apply elem_of_app. right. apply list_elem_of_In, in_flat_map.
    exists c. split; [by apply list_elem_of_In | by left].
  - apply replace_from_keeps; [exact Hc | | exact Hin].
    intros y Hy. by apply elem_of_nil in Hy.
Qed.

(** ** The painter *)

Section Painter.
Context {modes : ModeEnum} {platform : Platform}.
Variables (settings : Settings) (index selection : gset str)
  (qf : QuickFix) (vc : VCStatus) (current : option str).

#[local] Abbreviation paint := (show settings index selection qf vc current).
#[local] Abbreviation context := (hl_context (view settings)).

Lemma first_mode_find (table : gmap (option Mode) HLgroup) (l : list Mode) :
  first_mode table l
  = list_find (fun m => is_Some (table !! Some m)) l ≫= fun im => table !! Some im.2.
Proof.
  induction l as [|m l IH]; [reflexivity|]. cbn [first_mode list_find].
  destruct (table !! Some m) as [hl|] eqn:Hm.
  - rewrite decide_True by eauto. simpl. by rewrite Hm.
  - rewrite decide_False by (by intros [? ?]). rewrite IH.
    by destruct (list_find _ l) as [[i m']|].
Qed.

Lemma first_glob_find {V} (table : list (str * V)) (nm : str) :
  first_glob table nm
  = (fun ikv => ikv.2.2) <$> list_find (fun kv => fnmatch nm kv.1 = true) table.
Proof.
  induction table as [|[pat v] table IH]; [reflexivity|].
  cbn [first_glob list_find]. simpl. destruct (fnmatch nm pat) eqn:Hm.
  - by rewrite decide_True.
  - rewrite decide_False by done. rewrite IH.
    by destruct (list_find _ table) as [[i kv]|].
Qed.

(** C5. The resolver returns what the first of the five tiers yields that
    yields something: the "pre" group of the first mode tag, in ascending
    order of the tags, that has one; the group of the extension; the group
    of the first configured name pattern matching the name; the "post"
    group of the first mode tag that has one; the "post" group of the
    no-tag key. When the last is absent too, there is no highlight. *)
Theorem highlight_resolution (node : Node) :
  search_hl settings node = first_some (tiers settings node)
  /\ StronglySorted Z.le (sorted_modes node)
  /\ NoDup (sorted_modes node)
  /\ (forall m, m ∈ sorted_modes node <-> m ∈ mode node).
Proof.
  split; [|split; [|split]].
  - unfold search_hl, tiers, tier_mode, tier_glob, first_some. cbn [foldr].
    rewrite !first_mode_find, first_glob_find.
    destruct (list_find _ _ ≫= _); [reflexivity|].
    destruct (ext_lookup _ !! _); [reflexivity|].
    destruct (_ <$> list_find _ _); [reflexivity|].
    destruct (list_find _ _ ≫= _); [reflexivity|].
    by destruct (mode_lookup_post _ !! None).
  - apply StronglySorted_merge_sort; [intros x y z; lia|].
    intros x y. lia.
  - unfold sorted_modes. rewrite merge_sort_Permutation. apply NoDup_elements.
  - intros m. unfold sorted_modes. rewrite merge_sort_Permutation.
    apply elem_of_elements.
Qed.

Lemma show_inr (node : Node) (depth : nat) (r : Render) :
  paint node depth = inr r ->
  exists bs hls,
    gen_badges settings qf vc (path node) = inr bs
    /\ gen_highlights settings node
         (concat (gen_decor_pre settings selection current node depth))
         (concat (gen_icon settings index node))
         (concat (gen_name settings node)) = inr hls
    /\ r = {| line := concat (gen_decor_pre settings selection current node depth)
                      ++ concat (gen_icon settings index node)
                      ++ concat (gen_name settings node)
                      ++ concat (gen_decor_post settings node);
              badges := bs; render_highlights := hls |}.
Proof.
  unfold show. intros H. apply bind_inr in H. destruct H as (bs & Hbs & H).
  apply bind_inr in H. destruct H as (hls & Hhls & [= <-]). eauto.
Qed.



(** C8, as amended. A painted node has a quickfix badge "(N)" exactly when
    the count [N] read for its path is not zero, and a version-control
    badge "[code]" exactly when its path has a status that is not the
    empty string; the quickfix badge comes first, and there is no other
    badge. *)
Theorem badges_rule (node : Node) (depth : nat) (r : Render) :
  paint node depth = inr r ->
  exists count,
    locations_getitem qf (path node) = inr count
    /\ badges r
       = (if decide (count = 0) then [] else [quickfix_badge settings count])
         ++ match status vc !! path node with
            | Some code => if decide (code = []) then [] else [vc_badge settings code]
            | None => []
            end.
Proof.
  intros Hr. apply show_inr in Hr. destruct Hr as (bs & hls & Hbs & _ & ->).
  unfold gen_badges in Hbs. apply bind_inr in Hbs.
  destruct Hbs as (count & Hcount & [= <-]). exists count.
  split; [exact Hcount|]. cbn [badges]. f_equal.
  destruct (status vc !! path node) as [[|ch code]|]; reflexivity.
Qed.

(** The subscript [qf.locations[path]]: it raises [KeyError] exactly when
    the mapping has no entry for the path and provides no default. *)
Lemma locations_getitem_spec (p : str) :
  (locations_getitem qf p = inl (KeyError p)
   <-> locations qf !! p = None /\ locations_missing qf = None)
  /\ (forall count, locations_getitem qf p = inr count
      <-> locations qf !! p = Some count
          \/ (locations qf !! p = None /\ locations_missing qf = Some count)).
Proof.
  unfold locations_getitem.
  destruct (locations qf !! p) as [n|], (locations_missing qf) as [dflt|];
    cbn [ret raise]; (split; [|intros count]); split;
    try (intros [= ?]); try (intros [? ?]); try (intros [[= ?]|[? [= ?]]]);
    subst; auto; try discriminate.
Qed.

(** Painting reads the count first: without an entry and without a
    default, it raises the lookup error. *)
Lemma show_KeyError (node : Node) (depth : nat) :
  locations qf !! path node = None -> locations_missing qf = None ->
  paint node depth = inl (KeyError (path node)).
Proof.
  intros Hnone Hmiss. unfold show, gen_badges, locations_getitem.
  by rewrite Hnone, Hmiss.
Qed.


Lemma gen_highlights_inr (node : Node) (pre icon nm : str) (hls : list Highlight) :
  gen_highlights settings node pre icon nm = inr hls ->
  exists pre_len icon_len,
    encoded_len pre = inr pre_len
    /\ encoded_len icon = inr icon_len
    /\ exists name_span,
        hls = match exts (highlights (view settings)) !! ext_or_empty node with
              | Some grp =>
                  [ {| group := hl_name grp; begin := pre_len;
                       end_ := (pre_len + icon_len)%nat |} ]
              | None => []
              end ++ name_span
        /\ match search_hl settings node with
           | Some grp =>
               exists name_len,
                 encoded_len nm = inr name_len
                 /\ name_span
                    = [ {| group := hl_name grp; begin := (pre_len + icon_len)%nat;
                           end_ := (pre_len + icon_len + name_len)%nat |} ]
           | None => name_span = []
           end.
Proof.
  unfold gen_highlights. intros H.
  apply bind_inr in H. destruct H as (pre_len & Hpre & H).
  apply bind_inr in H. destruct H as (icon_len & Hicon & H).
  exists pre_len, icon_len. split; [exact Hpre|]. split; [exact Hicon|].
  destruct (search_hl settings node) as [grp|].
  - apply bind_inr in H. destruct H as (name_len & Hname & [= <-]).
    eexists. split; [reflexivity|]. exists name_len. split; [exact Hname|].
    do 2 f_equal. lia.
  - injection H as <-. exists []. by rewrite app_nil_r.
Qed.

(** C6. For every [Render] the painter returns, with the line made of the
    leading decoration, the icon region, the name region and the trailing
    decoration: the span of the extension's group, when there is one, runs
    from the encoded length of the decoration to that of decoration and
    icon; the span of the resolved group, when there is one, starts where
    the icon region ends and is as long as the encoded name; there is no
    other span; and every span's begin and end are encoded lengths of
    whole-character prefixes of the line, with begin <= end <= the encoded
    length of the line. *)
Theorem byte_offsets (node : Node) (depth : nat) (r : Render) :
  paint node depth = inr r ->
  line r = decor_pre settings selection current node depth ++ icon_text settings index node ++ name_text settings node ++ decor_post settings node
  /\ (exists pre_len icon_len name_span,
        encoded_len (decor_pre settings selection current node depth) = inr pre_len
        /\ encoded_len (icon_text settings index node) = inr icon_len
        /\ render_highlights r
           = match exts (highlights (view settings)) !! ext_or_empty node with
             | Some grp =>
                 [ {| group := hl_name grp; begin := pre_len;
                      end_ := (pre_len + icon_len)%nat |} ]
             | None => []
             end ++ name_span
        /\ match search_hl settings node with
           | Some grp =>
               exists name_len,
                 encoded_len (name_text settings node) = inr name_len
                 /\ name_span
                    = [ {| group := hl_name grp; begin := (pre_len + icon_len)%nat;
                           end_ := (pre_len + icon_len + name_len)%nat |} ]
           | None => name_span = []
           end)
  /\ Forall (fun h =>
       char_boundary (line r) (begin h) /\ char_boundary (line r) (end_ h)
       /\ (0 <= begin h <= end_ h)%nat /\ within_encoded (line r) (end_ h))
       (render_highlights r).
Proof.
  intros Hr. apply show_inr in Hr. destruct Hr as (bs & hls & _ & Hhls & ->).
  fold (decor_pre settings selection current node depth) (icon_text settings index node) (name_text settings node) (decor_post settings node)
    in *.
  cbn [line render_highlights]. split; [reflexivity|].
  apply gen_highlights_inr in Hhls.
  destruct Hhls as (pre_len & icon_len & Hpre & Hicon & name_span & -> & Hname).
  split; [by exists pre_len, icon_len, name_span|].
  apply Forall_app. split.
  - destruct (exts _ !! _); [|constructor]. repeat constructor; cbn [begin end_];
      try lia;
      by destruct (span_boundaries _ _ (name_text settings node ++ decor_post settings node) _ _
                     Hpre Hicon) as (? & ? & ?).
  - destruct (search_hl settings node) as [grp|]; [|subst; constructor].
    destruct Hname as (name_len & Hname & ->).
    pose proof (encoded_len_app _ _ _ _ Hpre Hicon) as Hpi.
    destruct (span_boundaries _ _ (decor_post settings node) _ _ Hpi Hname) as (H1 & H2 & H3).
    rewrite <- !app_assoc in H1, H2, H3.
    repeat constructor; cbn [begin end_]; try lia; assumption.
Qed.


(** A name with a code point that cannot be encoded gives a name region
    that cannot be encoded: escaping the line separator leaves it there. *)
Lemma name_text_unencodable (node : Node) (cp : codepoint) :
  cp ∈ name node -> encode_cp cp = None -> encode_opt linesep <> None ->
  encode_opt (name_text settings node) = None.
Proof.
  intros Hin Hcp Hsep. apply encode_opt_None. exists cp. split; [|exact Hcp].
  unfold name_text, gen_name. cbn [concat]. apply elem_of_app. left.
  apply replace_keeps; [exact Hin|]. intros Hmem. apply Hsep.
  apply encode_opt_None. eauto.
Qed.

(** Where painting can raise, in the order of evaluation. *)
Lemma show_eq (node : Node) (depth : nat) :
  paint node depth =
  (count <- locations_getitem qf (path node) ;;
   pre_len <- encoded_len (decor_pre settings selection current node depth) ;;
   icon_len <- encoded_len (icon_text settings index node) ;;
   match search_hl settings node with
   | Some grp =>
       name_len <- encoded_len (name_text settings node) ;;
       paint node depth
   | None => paint node depth
   end).
Proof.
  unfold show at 1, gen_badges, gen_highlights.
  fold (decor_pre settings selection current node depth) (icon_text settings index node) (name_text settings node) (decor_post settings node).
  destruct (locations_getitem qf (path node)) as [e|count] eqn:Hq; [reflexivity|].
  cbn [bind ret].
  destruct (encoded_len (decor_pre settings selection current node depth)) as [e|pre_len] eqn:Hpre;
    [reflexivity|]. cbn [bind].
  destruct (encoded_len (icon_text settings index node)) as [e|icon_len] eqn:Hicon;
    [reflexivity|]. cbn [bind].
  unfold show, gen_badges, gen_highlights.
  fold (decor_pre settings selection current node depth) (icon_text settings index node) (name_text settings node) (decor_post settings node).
  rewrite Hq, Hpre, Hicon. cbn [bind ret].
  destruct (search_hl settings node) as [grp|]; [|reflexivity].
  destruct (encoded_len (name_text settings node)) as [e|name_len] eqn:Hname; reflexivity.
Qed.

(** With a resolved group, a name that cannot be encoded makes painting
    raise; the error is the encoding error of the name region when the
    count is found and decoration and icon can be encoded. *)
Lemma show_unencodable_name (node : Node) (depth : nat) (grp : HLgroup) :
  search_hl settings node = Some grp ->
  encode_opt (name_text settings node) = None ->
  (exists e, paint node depth = inl e)
  /\ (forall count pre_len icon_len,
        locations_getitem qf (path node) = inr count ->
        encoded_len (decor_pre settings selection current node depth) = inr pre_len ->
        encoded_len (icon_text settings index node) = inr icon_len ->
        paint node depth = inl (UnicodeEncodeError (name_text settings node))).
Proof.
  intros Hgrp Hname.
  assert (encoded_len (name_text settings node) = inl (UnicodeEncodeError (name_text settings node)))
    as Hlen by (by apply encoded_len_inl).
  split.
  - rewrite show_eq, Hgrp, Hlen.
    destruct (locations_getitem _ _); cbn [bind]; [eauto|].
    destruct (encoded_len (decor_pre settings selection current _ _)); cbn [bind]; [eauto|].
    destruct (encoded_len (icon_text settings index _)); cbn [bind]; eauto.
  - intros count pre_len icon_len Hq Hpre Hicon.
    by rewrite show_eq, Hgrp, Hlen, Hq, Hpre, Hicon.
Qed.

(** Without a resolved group the name is never encoded: whatever the
    name, painting returns as soon as the count is found and decoration
    and icon can be encoded, and the name stands in the line as it is
    (the line separator escaped). *)
Lemma show_unresolved (node : Node) (depth : nat) (count : Z) (pre_len icon_len : nat) :
  search_hl settings node = None ->
  locations_getitem qf (path node) = inr count ->
  encoded_len (decor_pre settings selection current node depth) = inr pre_len ->
  encoded_len (icon_text settings index node) = inr icon_len ->
  exists r,
    paint node depth = inr r
    /\ line r = decor_pre settings selection current node depth ++ icon_text settings index node
                ++ name_text settings node ++ decor_post settings node.
Proof.
  intros Hgrp Hq Hpre Hicon. unfold show, gen_badges, gen_highlights.
  fold (decor_pre settings selection current node depth) (icon_text settings index node) (name_text settings node) (decor_post settings node).
  rewrite Hq, Hpre, Hicon, Hgrp. cbn [bind ret]. eauto.
Qed.


End Painter.

(** ** Errors of a whole render *)

Section Errors.
Context {modes : ModeEnum} {platform : Platform}.
Variables (settings : Settings) (index selection : gset str)
  (filter_pattern : option FilterPattern)
  (qf : QuickFix) (vc : VCStatus) (show_hidden : bool) (current : option str).

#[local] Abbreviation paint := (show settings index selection qf vc current).
#[local] Abbreviation render_tree :=
  (render settings index selection filter_pattern qf vc show_hidden current).
#[local] Abbreviation called := (call settings filter_pattern vc show_hidden).

(** C9, as amended. Nothing is substituted for a name that cannot be
    encoded. When a highlight group resolves for the node, the painter
    measures the name, and for a name holding a code point with no
    encoding that raises: painting the node fails, with the encoding error
    of the name region when nothing failed before it, and the render of
    the whole tree is ended by an exception. When no group resolves, the
    name is not measured and stands in the line as it is. *)
Theorem unencodable_name (root : Node) ancs n d c (cp : codepoint) :
  called root ancs n d c ->
  cp ∈ name n -> encode_cp cp = None -> encode_opt linesep <> None ->
  (forall grp, search_hl settings n = Some grp ->
     (exists e, paint n d = inl e)
     /\ (exists e, render_tree root = inl e)
     /\ (forall count pre_len icon_len,
           locations_getitem qf (path n) = inr count ->
           encoded_len (decor_pre settings selection current n d) = inr pre_len ->
           encoded_len (icon_text settings index n) = inr icon_len ->
           paint n d = inl (UnicodeEncodeError (name_text settings n))))
  /\ (search_hl settings n = None ->
      forall count pre_len icon_len,
        locations_getitem qf (path n) = inr count ->
        encoded_len (decor_pre settings selection current n d) = inr pre_len ->
        encoded_len (icon_text settings index n) = inr icon_len ->
        exists r, paint n d = inr r /\ cp ∈ line r).
Proof.
  intros Hcall Hin Hcp Hsep.
  pose proof (name_text_unencodable settings n cp Hin Hcp Hsep) as Hname.
  split.
  - intros grp Hgrp.
    destruct (show_unencodable_name settings index selection qf vc current
                n d grp Hgrp Hname) as [(e & He) Hexact].
    split; [eauto|]. split; [|exact Hexact].
    destruct (call_raises settings index selection filter_pattern qf vc show_hidden
                current {[ path root ]} root ancs n d c e Hcall He) as (e' & He').
    exists e'. by apply render_raises.
  - intros Hgrp count pre_len icon_len Hq Hpre Hicon.
    destruct (show_unresolved settings index selection qf vc current
                n d count pre_len icon_len Hgrp Hq Hpre Hicon) as (r & Hr & Hline).
    exists r. split; [exact Hr|]. rewrite Hline, !elem_of_app. right. right. left.
    apply encode_opt_None in Hname.
    unfold name_text, gen_name. cbn [concat]. apply elem_of_app. left.
    apply replace_keeps; [exact Hin|]. intros Hmem. apply Hsep.
    apply encode_opt_None. eauto.
Qed.

(** C10. The count is read by subscript. When [render] returns, the
    subscript returned for the path of every node in [lookup]: the mapping
    has an entry for it or provides a default. For a node the walk calls
    on, a mapping with no entry for its path and no default makes painting
    raise the lookup error, which ends the render. A mapping with a
    default never raises. *)
Theorem quickfix_subscript (root : Node) :
  (forall d, render_tree root = inr d ->
     forall n, n ∈ lookup d ->
       exists count,
         locations_getitem qf (path n) = inr count
         /\ (locations qf !! path n = Some count
             \/ locations_missing qf = Some count))
  /\ (forall ancs n dep c,
        called root ancs n dep c ->
        locations qf !! path n = None -> locations_missing qf = None ->
        paint n dep = inl (KeyError (path n))
        /\ exists e, render_tree root = inl e)
  /\ (forall dflt, locations_missing qf = Some dflt ->
        forall p, exists count, locations_getitem qf p = inr count).
Proof.
  split; [|split].
  - intros d Hd n Hn.
    destruct (render_inr settings index selection filter_pattern qf vc show_hidden
                current root d Hd) as (rend & rest & Hout & _ & Hl & _).
    apply render_inner_painted in Hout. rewrite Hl in Hn.
    change (root :: rest.*1) with (((root, rend) :: rest).*1) in Hn.
    apply list_elem_of_fmap in Hn. destruct Hn as ([n' r] & -> & Hn).
    rewrite Forall_forall in Hout. destruct (Hout _ Hn) as (d' & Hp).
    apply show_inr in Hp. destruct Hp as (bs & _ & Hbs & _).
    unfold gen_badges in Hbs. apply bind_inr in Hbs.
    destruct Hbs as (count & Hcount & _). exists count. split; [exact Hcount|].
    apply (proj2 (locations_getitem_spec qf (path n'))) in Hcount. tauto.
  - intros ancs n dep c Hcall Hnone Hmiss.
    pose proof (show_KeyError settings index selection qf vc current n dep
                  Hnone Hmiss) as Hp.
    split; [exact Hp|].
    destruct (call_raises settings index selection filter_pattern qf vc show_hidden
                current {[ path root ]} root ancs n dep c _ Hcall Hp) as (e' & He').
    exists e'. by apply render_raises.
  - intros dflt Hmiss p. unfold locations_getitem. rewrite Hmiss.
    destruct (locations qf !! p); eauto.
Qed.

End Errors.

(** * More about the renderer

    Properties of [render] and of the painter beyond the statements
    above. *)

(** ** The reverse index, path by path *)

Lemma index_from_spec (k : nat) (m : gmap str nat) (l : list Node) (p : str) (v : nat) :
  index_from k m l !! p = Some v <->
  (exists i n, l !! i = Some n /\ path n = p /\ v = (k + i)%nat
     /\ forall j n', l !! j = Some n' -> path n' = p -> (j <= i)%nat)
  \/ ((p ∉ path <$> l) /\ m !! p = Some v).
Proof.
  revert k m. induction l as [|x l IH]; intros k m.
  - unfold index_from. simpl. split.
    + intros H. right. split; [apply not_elem_of_nil | exact H].
    + intros [(i & n & Hi & _) | [_ H]]; [done | exact H].
  - rewrite index_from_cons, IH. split.
    + intros [(i & n & Hi & Hp & -> & Hlast) | [Hnot Hm]].
      * left. exists (S i), n. repeat split; [exact Hi | exact Hp | lia |].
        intros [|j] n' Hj Hp'; [lia|]. simpl in Hj.
        specialize (Hlast _ _ Hj Hp'). lia.
      * destruct (decide (p = path x)) as [->|Hne].
        -- rewrite lookup_insert_eq in Hm. injection Hm as <-.
           left. exists 0%nat, x. repeat split; [lia|].
           intros [|j] n' Hj Hp'; [lia|]. simpl in Hj. destruct Hnot.
           apply list_elem_of_fmap. exists n'. split; [done|].
           by eapply list_elem_of_lookup_2.
        -- rewrite lookup_insert_ne in Hm by done. right. split; [|exact Hm].
           rewrite fmap_cons, not_elem_of_cons. by split.
    + intros [(i & n & Hi & Hp & -> & Hlast) | [Hnot Hm]].
      * destruct i as [|i]; simpl in Hi.
        -- injection Hi as ->. right. split.
           ++ intros Hin. apply list_elem_of_fmap in Hin.
              destruct Hin as (n' & Hp' & Hin).
              apply list_elem_of_lookup in Hin. destruct Hin as (j & Hj).
              specialize (Hlast (S j) n' Hj (eq_sym (eq_trans Hp' eq_refl))). 
              lia.
           ++ subst p. rewrite lookup_insert_eq. f_equal. lia.
        -- left. exists i, n. repeat split; [exact Hi | exact Hp | lia |].
           intros j n' Hj Hp'. specialize (Hlast (S j) n' Hj Hp'). lia.
      * rewrite fmap_cons, not_elem_of_cons in Hnot. destruct Hnot as [Hne Hnot].
        right. split; [exact Hnot|]. by rewrite lookup_insert_ne.
Qed.

(** ** The lines of the output *)

Section Output.
Context {modes : ModeEnum} {platform : Platform}.
Variables (settings : Settings) (index selection : gset str)
  (filter_pattern : option FilterPattern)
  (qf : QuickFix) (vc : VCStatus) (show_hidden : bool) (current : option str).

#[local] Abbreviation paint := (show settings index selection qf vc current).
#[local] Abbreviation inner :=
  (render_inner settings index selection filter_pattern qf vc show_hidden current).
#[local] Abbreviation dropped := (drop settings vc show_hidden).
#[local] Abbreviation clear_of := (is_clear filter_pattern).
#[local] Abbreviation kids := (kids_of settings vc show_hidden).
#[local] Abbreviation called := (call settings filter_pattern vc show_hidden).
#[local] Abbreviation render_tree :=
  (render settings index selection filter_pattern qf vc show_hidden current).

Lemma call_depth (root : Node) ancs n d c :
  called root ancs n d c -> d = length ancs.
Proof. induction 1; simpl; congruence. Qed.

(** Every line a call yields is the painting of a node that the walk
    called on, at the depth of that call. *)
Lemma call_painted (ko : gset str) (root : Node) ancs n d c
    (out : list (Node * Render)) :
  called root ancs n d c -> inner ko n d c = inr out ->
  Forall (fun l => exists ancs' d' c',
            called root ancs' l.1 d' c' /\ paint l.1 d' = inr l.2) out.
Proof.
  revert ancs d c out. induction n as [n IH] using Node_ind.
  intros ancs d c out Hcall Hout.
  apply render_inner_inv in Hout.
  destruct Hout as (rend & blocks & Hrend & HF & ->).
  apply Forall_app. split.
  - destruct (_ || _ || _); repeat constructor. eauto 6.
  - assert (forall ks bs,
              Forall2 (fun ch b => inner ko ch (S d) (clear_of c n) = inr b) ks bs ->
              (forall ch, ch ∈ ks -> ch ∈ kids n) ->
              Forall (fun l => exists ancs' d' c',
                        called root ancs' l.1 d' c' /\ paint l.1 d' = inr l.2)
                (concat bs)) as Hgen.
    { induction 1 as [|ch b ks' bs Hb HF' IHF]; intros Hsub; cbn [concat];
        [constructor|].
      apply Forall_app. split.
      - assert (ch ∈ kids n) as Hch by (apply Hsub; by left).
        eapply IH; [by eapply kids_children | | exact Hb].
        by eapply call_child.
      - apply IHF. intros ch' Hch'. apply Hsub. by right. }
    by eapply Hgen.
Qed.

(** X1. When [render] returns, [rendered] has as many entries as [lookup],
    and the entry at an index is what painting the node at that index of
    [lookup] returned, at the depth of a call that the walk made on it:
    the number of nodes above it. *)
Theorem rendered_aligned (root : Node) (dv : Derived) :
  render_tree root = inr dv ->
  length (rendered dv) = length (lookup dv)
  /\ forall i n, lookup dv !! i = Some n ->
       exists r ancs d c,
         rendered dv !! i = Some r
         /\ called root ancs n d c /\ d = length ancs
         /\ (n, d) ∈ descendants root 0
         /\ paint n d = inr r.
Proof.
  intros Hdv. destruct (render_inr _ _ _ _ _ _ _ _ _ _ Hdv)
    as (rend & rest & Hout & _ & Hl & Hr & _).
  change (root :: rest.*1) with (((root, rend) :: rest).*1) in Hl.
  change (rend :: rest.*2) with (((root, rend) :: rest).*2) in Hr.
  rewrite Hl, Hr. split; [by rewrite !length_fmap|].
  intros i n Hi. rewrite list_lookup_fmap in Hi.
  destruct (((root, rend) :: rest) !! i) as [[n' r]|] eqn:Hpair; [|done].
  injection Hi as ->.
  pose proof (call_painted _ _ _ _ _ _ _ (call_root _ _ _ _ root) Hout) as Hall.
  rewrite Forall_forall in Hall.
  destruct (Hall (n, r)) as (ancs & d & c & Hcall & Hp);
    [by eapply list_elem_of_lookup_2|].
  exists r, ancs, d, c. rewrite list_lookup_fmap, Hpair.
  split; [reflexivity|]. split; [exact Hcall|].
  split; [by eapply call_depth|]. split; [by eapply call_descendant | exact Hp].
Qed.

(** X2. When [render] returns, [paths_lookup] sends a path to an index
    exactly when the node at that index of [lookup] has the path and no
    later node has it: the keys are the paths of the lines, and of several
    lines with one path the last is the one kept. *)
Theorem paths_lookup_last (root : Node) (dv : Derived) (p : str) (i : nat) :
  render_tree root = inr dv ->
  paths_lookup dv !! p = Some i <->
  (exists n, lookup dv !! i = Some n /\ path n = p)
  /\ (forall j n', lookup dv !! j = Some n' -> path n' = p -> (j <= i)%nat).
Proof.
  intros Hdv. destruct (render_inr _ _ _ _ _ _ _ _ _ _ Hdv)
    as (rend & rest & _ & _ & _ & _ & Hp).
  rewrite Hp, index_paths_from, index_from_spec. split.
  - intros [(i' & n & Hi & Hpath & -> & Hlast) | [_ H]]; [|done].
    split; [eauto | exact Hlast].
  - intros [(n & Hi & Hpath) Hlast]. left. exists i, n. by repeat split.
Qed.


(** When the walk returns, what a call yielded is a run of the result, and
    when that run is not empty the lines of the nodes above stand before it. *)
Lemma call_ancestors (ko : gset str) (root : Node) (out : list (Node * Render))
    ancs n d c :
  inner ko root 0 false = inr out -> called root ancs n d c ->
  exists o l1 l2,
    inner ko n d c = inr o /\ out = l1 ++ o ++ l2
    /\ (o <> [] -> forall a, a ∈ ancs -> a.1 ∈ l1.*1).
Proof.
  intros Hroot. induction 1 as [|ancs n d c ch _ IH Hch].
  - exists out, [], []. rewrite app_nil_r. split; [exact Hroot|].
    split; [reflexivity|]. intros _ a Ha. by apply elem_of_nil in Ha.
  - destruct IH as (o & l1 & l2 & Ho & Hout & Hanc).
    apply render_inner_inv in Ho. destruct Ho as (rend & blocks & _ & HF & Ho).
    apply list_elem_of_lookup in Hch. destruct Hch as (i & Hi).
    destruct (Forall2_lookup_l _ _ _ _ _ HF Hi) as (b & Hb & Hret).
    pose proof (take_drop_middle _ _ _ Hb) as Hmid.
    assert (concat blocks
            = concat (take i blocks) ++ b ++ concat (list.drop (S i) blocks)) as Hcat.
    { rewrite <- Hmid at 1. by rewrite concat_app. }
    destruct b as [|x b].
    + exists [], (l1 ++ o), l2. split; [exact Hret|].
      split; [by rewrite Hout, <- app_assoc | done].
    + assert (nonempty (concat blocks) = true) as Hne.
      { rewrite Hcat. by destruct (concat (take i blocks)). }
      rewrite Hne, orb_true_r in Ho. cbn [orb] in Ho.
      exists (x :: b), (l1 ++ (n, rend) :: concat (take i blocks)),
        (concat (list.drop (S i) blocks) ++ l2).
      split; [exact Hret|]. split.
      * rewrite Hout, Ho, Hcat. by repeat (rewrite <- app_assoc || cbn [app]).
      * intros _ a Ha. rewrite fmap_app, elem_of_app. apply elem_of_cons in Ha.
        destruct Ha as [-> | Ha].
        -- right. simpl. by left.
        -- left. apply Hanc; [|exact Ha]. rewrite Ho. discriminate.
Qed.

(** X3. When [render] returns and a call of the walk yielded something,
    every node above the call's node is in [lookup], before the run that
    the call yielded. *)
Theorem ancestors_shown (root : Node) (dv : Derived) ancs n d c :
  render_tree root = inr dv -> called root ancs n d c ->
  exists out before after,
    inner {[ path root ]} n d c = inr out
    /\ lookup dv = before ++ out.*1 ++ after
    /\ (out <> [] -> forall a, a ∈ ancs -> a.1 ∈ before).
Proof.
  intros Hdv Hcall.
  destruct (render_inr _ _ _ _ _ _ _ _ _ _ Hdv) as (rend & rest & Hwhole & _ & Hl & _).
  destruct (call_ancestors _ _ _ _ _ _ _ Hwhole Hcall)
    as (out & l1 & l2 & Hout & Heq & Hanc).
  exists out, (l1.*1), (l2.*1). split; [exact Hout|]. split; [|exact Hanc].
  rewrite Hl. change (root :: rest.*1) with (((root, rend) :: rest).*1).
  by rewrite Heq, !fmap_app.
Qed.

(** An exception of a call is the exception of painting a node that the
    walk called on. *)
Lemma call_raised (ko : gset str) (root : Node) ancs n d c (e : exn) :
  called root ancs n d c -> inner ko n d c = inl e ->
  exists ancs' n' d' c', called root ancs' n' d' c' /\ paint n' d' = inl e.
Proof.
  revert ancs d c. induction n as [n IH] using Node_ind. intros ancs d c Hcall.
  rewrite render_inner_eq. intros H. apply bind_inl in H.
  destruct H as [H | (rend & _ & H)]; [eauto 6|].
  apply bind_inl in H. destruct H as [H | (chn & _ & H)]; [|discriminate].
  apply collect_inl_inv in H. destruct H as (ch & Hch & H).
  eapply IH; [by eapply kids_children | | exact H].
  by eapply call_child.
Qed.

(** X4. An exception of [render] is never [ValueError]: it is the
    exception that painting a node the walk calls on raised. And when
    painting such a node raises, [render] raises, whether or not the filter
    would have kept the node in the output. *)
Theorem render_failure (root : Node) :
  (forall e, render_tree root = inl e ->
     e <> ValueError
     /\ exists ancs n d c, called root ancs n d c /\ paint n d = inl e)
  /\ (forall ancs n d c e, called root ancs n d c -> paint n d = inl e ->
        exists e', render_tree root = inl e').
Proof.
  split.
  - intros e H. unfold render in H. apply bind_inl in H.
    destruct H as [H | (out & Hout & H)].
    + split; [by eapply render_inner_raises|].
      eapply call_raised; [apply call_root | exact H].
    + destruct (render_root_head _ _ _ _ _ _ _ _ _ _ Hout) as (rend & rest & _ & ->).
      discriminate.
  - intros ancs n d c e Hcall Hp.
    destruct (call_raises _ _ _ _ _ _ _ _ {[ path root ]} _ _ _ _ _ _ Hcall Hp)
      as (e' & He').
    exists e'. by apply render_raises.
Qed.


Lemma gen_spacer_replicate (depth : nat) :
  gen_spacer depth = replicate (2 * depth - 1) 32%N.
Proof.
  unfold gen_spacer, str_mul.
  replace (Z.to_nat (Z.of_nat depth * 2 - 1)) with (2 * depth - 1)%nat by lia.
  induction (2 * depth - 1)%nat as [|k IH]; [reflexivity|].
  simpl. by rewrite IH.
Qed.

(** X5. Every line of the output starts with [2 * k - 1] spaces, [k] being
    the number of nodes above its node (none for the root, one for its
    children), then the selection mark or a space, the mark of the current
    file or a space, and a space. *)
Theorem indentation (root : Node) (dv : Derived) (i : nat) (n : Node) (r : Render) :
  render_tree root = inr dv ->
  lookup dv !! i = Some n -> rendered dv !! i = Some r ->
  exists ancs d c rest,
    called root ancs n d c /\ d = length ancs
    /\ line r
       = replicate (2 * length ancs - 1) 32%N
         ++ (if decide (path n ∈ selection)
             then status_selected (icons (view settings)) else [32%N])
         ++ (if decide (current = Some (path n))
             then status_active (icons (view settings)) else [32%N])
         ++ 32%N :: rest.
Proof.
  intros Hdv Hi Hr. destruct (render_inr _ _ _ _ _ _ _ _ _ _ Hdv)
    as (rend & rest & Hout & _ & Hl & Hrd & _).
  change (root :: rest.*1) with (((root, rend) :: rest).*1) in Hl.
  change (rend :: rest.*2) with (((root, rend) :: rest).*2) in Hrd.
  rewrite Hl, list_lookup_fmap in Hi. rewrite Hrd, list_lookup_fmap in Hr.
  destruct (((root, rend) :: rest) !! i) as [[n' r']|] eqn:Hpair; [|done].
  injection Hi as ->. injection Hr as ->.
  pose proof (call_painted _ _ _ _ _ _ _ (call_root _ _ _ _ root) Hout) as Hall.
  rewrite Forall_forall in Hall.
  destruct (Hall (n, r)) as (ancs & d & c & Hcall & Hp);
    [by eapply list_elem_of_lookup_2|].
  pose proof (call_depth _ _ _ _ _ Hcall) as Hd. cbn [fst snd] in Hcall, Hp.
  apply show_inr in Hp. destruct Hp as (bs & hls & _ & _ & ->).
  exists ancs, d, c. eexists. split; [exact Hcall|]. split; [exact Hd|].
  cbn [line]. unfold gen_decor_pre, gen_icon, gen_status. cbn [concat].
  rewrite gen_spacer_replicate, Hd, app_nil_r, <- !app_assoc. reflexivity.
Qed.

(** With no filter every call yields its own line first. *)
Lemma inner_unfiltered (ko : gset str) (n : Node) (d : nat) (c : bool)
    (out : list (Node * Render)) :
  filter_pattern = None -> inner ko n d c = inr out ->
  exists rend blocks,
    Forall2 (fun ch b => inner ko ch (S d) true = inr b) (kids n) blocks
    /\ out = (n, rend) :: concat blocks.
Proof.
  intros Hnone Hout. apply render_inner_inv in Hout.
  destruct Hout as (rend & blocks & _ & HF & ->).
  assert (clear_of c n = true) as Hclear.
  { unfold is_clear. rewrite Hnone. apply orb_true_r. }
  rewrite Hclear in *. eauto.
Qed.

Lemma inner_unfiltered_perm (ko : gset str) (n : Node) (d : nat) (c : bool)
    (out : list (Node * Render)) :
  filter_pattern = None -> show_hidden = true ->
  inner ko n d c = inr out -> out.*1 ≡ₚ (descendants n d).*1.
Proof.
  intros Hnone Hshow. revert d c out. induction n as [n IH] using Node_ind.
  intros d c out Hout.
  destruct (inner_unfiltered _ _ _ _ _ Hnone Hout) as (rend & blocks & HF & ->).
  rewrite descendants_eq, flat_map_bind, !fmap_cons. cbn [fst]. f_equiv.
  trans ((kids n ≫= fun ch => descendants ch (S d)).*1).
  - assert (forall ch, ch ∈ kids n -> ch ∈ child_nodes n) as Hsub
      by apply kids_children.
    clear Hout. revert Hsub. induction HF as [|ch b ks bs Hb HF IHF]; intros Hsub.
    + reflexivity.
    + cbn [concat]. rewrite bind_cons, !fmap_app. f_equiv.
      * eapply IH; [|exact Hb]. apply Hsub. by left.
      * apply IHF. intros ch' Hch'. apply Hsub. by right.
  - f_equiv. f_equiv. unfold kids_of. rewrite sorted_perm.
    unfold drop. rewrite Hshow. clear.
    induction (child_nodes n) as [|x l IHl]; simpl; [reflexivity|]. by f_equiv.
Qed.

(** X6. With no filter pattern every node the walk calls on is in the
    output; when hidden files are shown as well, the output holds every
    node reachable from the root exactly once. *)
Theorem unfiltered_shows_all (root : Node) (dv : Derived) :
  filter_pattern = None -> render_tree root = inr dv ->
  (forall ancs n d c, called root ancs n d c -> n ∈ lookup dv)
  /\ (show_hidden = true -> lookup dv ≡ₚ (descendants root 0).*1).
Proof.
  intros Hnone Hdv. split.
  - intros ancs n d c Hcall.
    destruct (render_call _ _ _ _ _ _ _ _ _ _ _ _ _ _ Hdv Hcall)
      as (out & before & after & Hout & -> & _).
    destruct (inner_unfiltered _ _ _ _ _ Hnone Hout) as (rend & blocks & _ & ->).
    rewrite !elem_of_app. right. left. simpl. by left.
  - intros Hshow.
    destruct (render_inr _ _ _ _ _ _ _ _ _ _ Hdv) as (rend & rest & Hout & _ & -> & _).
    change (root :: rest.*1) with (((root, rend) :: rest).*1).
    by eapply inner_unfiltered_perm.
Qed.

Lemma sorted_ties {A} (key : A -> list CompVal) (l : list A) :
  (forall x y, tuple_lt (key x) (key y) = false) -> sorted key l = l.
Proof.
  intros Hties. induction l as [|x l IH]; [reflexivity|].
  unfold sorted in *. cbn [foldr]. rewrite IH.
  destruct l as [|y l]; [reflexivity|]. cbn [insort]. by rewrite Hties.
Qed.

Lemma kids_unsorted (n : Node) :
  sort_by (view settings) = [] ->
  kids n = List.filter (fun ch => negb (dropped ch)) (child_nodes n).
Proof.
  intros Hsort. unfold kids_of. apply sorted_ties. intros x y.
  unfold comp. by rewrite Hsort.
Qed.

Lemma inner_unsorted (ko : gset str) (n : Node) (d : nat) (c : bool)
    (out : list (Node * Render)) :
  sort_by (view settings) = [] -> filter_pattern = None -> show_hidden = true ->
  inner ko n d c = inr out -> out.*1 = (descendants n d).*1.
Proof.
  intros Hsort Hnone Hshow. revert d c out. induction n as [n IH] using Node_ind.
  intros d c out Hout.
  destruct (inner_unfiltered _ _ _ _ _ Hnone Hout) as (rend & blocks & HF & ->).
  rewrite descendants_eq, flat_map_bind, !fmap_cons. cbn [fst]. f_equal.
  assert (kids n = child_nodes n) as Hkids.
  { rewrite kids_unsorted by done. unfold drop. rewrite Hshow. clear.
    induction (child_nodes n) as [|x l IHl]; simpl; [reflexivity|]. by f_equal. }
  rewrite Hkids in HF.
  assert (forall ks bs,
            Forall2 (fun ch b => inner ko ch (S d) true = inr b) ks bs ->
            (forall ch, ch ∈ ks -> ch ∈ child_nodes n) ->
            (concat bs).*1 = (ks ≫= fun ch => descendants ch (S d)).*1) as Hgen.
  { induction 1 as [|ch b ks' bs Hb HF' IHF]; intros Hsub; [reflexivity|].
    cbn [concat]. rewrite bind_cons, !fmap_app. f_equal.
    - eapply IH; [|exact Hb]. apply Hsub. by left.
    - apply IHF. intros ch' Hch'. apply Hsub. by right. }
  by eapply Hgen.
Qed.

(** X7. With no sort keys configured the walk takes the children that are
    not dropped in the order of [children]; with no filter and hidden files
    shown, [lookup] is then the tree in pre-order. *)
Theorem listing_order_without_sort_keys (root : Node) (dv : Derived) :
  sort_by (view settings) = [] ->
  (forall n, kids n = List.filter (fun ch => negb (dropped ch)) (child_nodes n))
  /\ (filter_pattern = None -> show_hidden = true ->
      render_tree root = inr dv -> lookup dv = (descendants root 0).*1).
Proof.
  intros Hsort. split; [intros n; by apply kids_unsorted|].
  intros Hnone Hshow Hdv.
  destruct (render_inr _ _ _ _ _ _ _ _ _ _ Hdv) as (rend & rest & Hout & _ & -> & _).
  change (root :: rest.*1) with (((root, rend) :: rest).*1).
  by eapply inner_unsorted.
Qed.


(** A call that is not cleared, on a subtree where no name matches the
    pattern and no path is kept open, yields nothing. *)
Lemma inner_nothing (ko : gset str) (fp : FilterPattern) (n : Node) (d : nat)
    (out : list (Node * Render)) :
  filter_pattern = Some fp ->
  (forall n' d', (n', d') ∈ descendants n d ->
     fnmatch (name n') (pattern fp) = false /\ path n' ∉ ko) ->
  inner ko n d false = inr out -> out = [].
Proof.
  intros Hfp. revert d out. induction n as [n IH] using Node_ind.
  intros d out Hsub Hout. apply render_inner_inv in Hout.
  destruct Hout as (rend & blocks & _ & HF & ->).
  destruct (Hsub n d) as [Hname Hko]; [rewrite descendants_eq; by left|].
  assert (clear_of false n = false) as Hclear.
  { unfold is_clear. by rewrite Hfp. }
  rewrite Hclear in *.
  assert (forall ks bs,
            Forall2 (fun ch b => inner ko ch (S d) false = inr b) ks bs ->
            (forall ch, ch ∈ ks -> ch ∈ kids n) -> concat bs = []) as Hgen.
  { induction 1 as [|ch b ks' bs Hb HF' IHF]; intros Hks; [reflexivity|].
    cbn [concat]. rewrite IHF by (intros ch' Hch'; apply Hks; by right).
    assert (ch ∈ child_nodes n) as Hch by (eapply kids_children, Hks; by left).
    rewrite (IH ch Hch (S d) b); [reflexivity | | exact Hb].
    intros n' d' Hin. apply (Hsub n' d'). rewrite descendants_eq, flat_map_bind.
    right. apply list_elem_of_bind. exists ch. by split. }
  rewrite (Hgen _ _ HF) by done. cbn [nonempty orb app].
  by rewrite bool_decide_eq_false_2.
Qed.

(** X8. When the pattern matches no name in a tree whose reachable nodes
    have pairwise different paths, the output is the root's line alone. *)
Theorem nothing_matches (root : Node) (dv : Derived) (fp : FilterPattern) :
  filter_pattern = Some fp ->
  (forall n d, (n, d) ∈ descendants root 0 ->
     fnmatch (name n) (pattern fp) = false) ->
  NoDup ((fun nd => path nd.1) <$> descendants root 0) ->
  render_tree root = inr dv ->
  lookup dv = [root] /\ paths_lookup dv = {[ path root := 0%nat ]}.
Proof.
  intros Hfp Hnames Huniq Hdv.
  destruct (render_inr _ _ _ _ _ _ _ _ _ _ Hdv)
    as (rend & rest & Hout & _ & Hl & _ & Hp).
  assert (rest = []) as ->.
  { apply render_inner_inv in Hout.
    destruct Hout as (rend' & blocks & _ & HF & Hout).
    rewrite (bool_decide_eq_true_2 (path root ∈ ({[ path root ]} : gset str))),
      orb_true_r in Hout by (by apply elem_of_singleton).
    assert (rest = concat blocks) as -> by (simpl in Hout; congruence).
    assert (clear_of false root = false) as Hclear.
    { unfold is_clear. rewrite Hfp. cbn [orb]. apply Hnames with 0%nat.
      rewrite descendants_eq. by left. }
    rewrite Hclear in HF.
    rewrite descendants_eq, flat_map_bind, fmap_cons in Huniq.
    apply NoDup_cons in Huniq. destruct Huniq as [Hroot _]. cbn [fst] in Hroot.
    assert (forall ks bs,
              Forall2 (fun ch b =>
                inner {[ path root ]} ch 1 false = inr b) ks bs ->
              (forall ch, ch ∈ ks -> ch ∈ child_nodes root) -> concat bs = [])
      as Hgen.
    { induction 1 as [|ch b ks' bs Hb HF' IHF]; intros Hks; [reflexivity|].
      cbn [concat]. rewrite IHF by (intros ch' Hch'; apply Hks; by right).
      assert (ch ∈ child_nodes root) as Hch by (apply Hks; by left).
      rewrite (inner_nothing {[ path root ]} fp ch 1 b Hfp); [reflexivity | | exact Hb].
      intros n' d' Hin.
      assert ((n', d') ∈ child_nodes root ≫= fun c => descendants c 1) as Hin'.
      { apply list_elem_of_bind. exists ch. by split. }
      split.
      - apply Hnames with d'. rewrite descendants_eq, flat_map_bind. by right.
      - intros Hko. apply elem_of_singleton in Hko. apply Hroot.
        apply list_elem_of_fmap. exists (n', d'). by split. }
    eapply Hgen; [exact HF|]. intros ch Hch. by eapply kids_children. }
  rewrite Hp, Hl. split; [reflexivity|].
  unfold index_paths, enumerate. simpl. by rewrite insert_empty.
Qed.

End Output.

(** ** Names that match the filter *)

Section PullUp.
Context {modes : ModeEnum} {platform : Platform}.
Variables (settings : Settings) (index selection : gset str)
  (filter_pattern : option FilterPattern)
  (qf : QuickFix) (vc : VCStatus) (show_hidden : bool) (current : option str).

#[local] Abbreviation inner :=
  (render_inner settings index selection filter_pattern qf vc show_hidden current).
#[local] Abbreviation called := (call settings filter_pattern vc show_hidden).
#[local] Abbreviation render_tree :=
  (render settings index selection filter_pattern qf vc show_hidden current).

(** X23. Filter pull-up. When the name of a node that the walk calls on
    matches the filter pattern, the node is in the output, and so is every
    node above it, before it, whether or not their names match. *)
Theorem filter_pull_up (root : Node) (dv : Derived) (fp : FilterPattern) ancs n d c :
  filter_pattern = Some fp ->
  render_tree root = inr dv -> called root ancs n d c ->
  fnmatch (name n) (pattern fp) = true ->
  exists before rest after,
    lookup dv = before ++ n :: rest ++ after
    /\ forall a, a ∈ ancs -> a.1 ∈ before.
Proof.
  intros Hfp Hdv Hcall Hmatch.
  destruct (render_inr _ _ _ _ _ _ _ _ _ _ Hdv) as (rend & rest & Hwhole & _ & Hl & _).
  destruct (call_ancestors _ _ _ _ _ _ _ _ _ _ _ _ _ _ _ Hwhole Hcall)
    as (out & l1 & l2 & Hout & Heq & Hanc).
  apply render_inner_inv in Hout. destruct Hout as (r & blocks & _ & _ & ->).
  assert (is_clear filter_pattern c n = true) as Hclear.
  { unfold is_clear. rewrite Hfp, Hmatch. apply orb_true_r. }
  rewrite Hclear in *. cbn [orb app] in *.
  exists (l1.*1), ((concat blocks).*1), (l2.*1). split.
  - rewrite Hl. change (root :: rest.*1) with (((root, rend) :: rest).*1).
    by rewrite Heq, fmap_app, fmap_cons, fmap_app.
  - apply Hanc. discriminate.
Qed.

End PullUp.

(** ** Sorting and filtering *)

Section SortFilter.
Context {A : Type} (key : A -> list CompVal).
Hypothesis key_shape : forall a b, Forall2 same_kind (key a) (key b).

Lemma insort_filter (p : A -> bool) (x : A) (l : list A) :
  StronglySorted (key_le key) l ->
  List.filter p (insort key x l)
  = if p x then insort key x (List.filter p l) else List.filter p l.
Proof.
  induction 1 as [|y l Hl IH Hy]; cbn [insort List.filter].
  - by destruct (p x).
  - destruct (tuple_lt (key y) (key x)) eqn:Hyx; cbn [List.filter].
    + rewrite IH. destruct (p y), (p x); cbn [insort]; by rewrite ?Hyx.
    + destruct (p x); [|reflexivity]. f_equal.
      assert (Forall (fun z => tuple_lt (key z) (key x) = false) (y :: l)) as Hall.
      { constructor; [exact Hyx|]. eapply Forall_impl; [exact Hy|].
        intros z Hz. unfold key_le in Hz.
        destruct (tuple_lt (key z) (key x)) eqn:Hzx; [|reflexivity].
        destruct (tuple_lt_negtrans (key z) (key y) (key x)) as [H|H];
          auto; congruence. }
      assert (Forall (fun z => tuple_lt (key z) (key x) = false)
                (List.filter p (y :: l))) as Hall'.
      { rewrite Forall_forall in *. intros z Hz. apply Hall.
        apply list_elem_of_In in Hz. apply filter_In in Hz.
        apply list_elem_of_In, Hz. }
      cbn [List.filter] in Hall'.
      destruct (if p y then y :: List.filter p l else List.filter p l)
        as [|z rest]; [reflexivity|].
      cbn [insort]. inversion Hall' as [|? ? Hz _]; subst. by rewrite Hz.
Qed.

Lemma sorted_filter (p : A -> bool) (l : list A) :
  List.filter p (sorted key l) = sorted key (List.filter p l).
Proof.
  induction l as [|x l IH]; [reflexivity|].
  unfold sorted in *. cbn [foldr List.filter].
  rewrite insort_filter by (by apply sorted_sorted).
  rewrite IH. by destruct (p x).
Qed.

End SortFilter.

Lemma filter_sublist {A} (p : A -> bool) (l : list A) : List.filter p l `sublist_of` l.
Proof.
  induction l as [|x l IH]; simpl; [constructor|].
  destruct (p x); by constructor.
Qed.

(** ** Two walks of the same tree *)

Section TwoWalks.
Context {modes : ModeEnum} {platform : Platform}.
Variables (settings : Settings) (index selection : gset str)
  (qf : QuickFix) (vc : VCStatus) (current : option str).
Variables (pattern1 pattern2 : option FilterPattern) (hidden1 hidden2 : bool).

#[local] Abbreviation paint := (show settings index selection qf vc current).
#[local] Abbreviation inner1 :=
  (render_inner settings index selection pattern1 qf vc hidden1 current).
#[local] Abbreviation inner2 :=
  (render_inner settings index selection pattern2 qf vc hidden2 current).

Hypothesis kids_sublist :
  forall n, kids_of settings vc hidden1 n `sublist_of` kids_of settings vc hidden2 n.
Hypothesis clear_mono :
  forall c1 c2 n, (c1 = true -> c2 = true) ->
    is_clear pattern1 c1 n = true -> is_clear pattern2 c2 n = true.

(** The second walk recurses into at least the children the first one
    does and clears at least the nodes the first one does: what the first
    yields is then a sublist of what the second yields. *)
Lemma inner_sublist (ko : gset str) (n : Node) (d : nat) (c1 c2 : bool)
    (o1 o2 : list (Node * Render)) :
  (c1 = true -> c2 = true) ->
  inner1 ko n d c1 = inr o1 -> inner2 ko n d c2 = inr o2 ->
  o1 `sublist_of` o2.
Proof.
  revert d c1 c2 o1 o2. induction n as [n IH] using Node_ind.
  intros d c1 c2 o1 o2 Hc H1 H2.
  apply render_inner_inv in H1. destruct H1 as (rend1 & blocks1 & Hr1 & HF1 & ->).
  apply render_inner_inv in H2. destruct H2 as (rend2 & blocks2 & Hr2 & HF2 & ->).
  assert (rend2 = rend1) as -> by congruence.
  pose proof (clear_mono c1 c2 n Hc) as Hclear.
  assert (concat blocks1 `sublist_of` concat blocks2) as Hsub.
  { assert (forall ks1 ks2, ks1 `sublist_of` ks2 ->
              forall bs1 bs2,
              Forall2 (fun ch b => inner1 ko ch (S d) (is_clear pattern1 c1 n) = inr b)
                ks1 bs1 ->
              Forall2 (fun ch b => inner2 ko ch (S d) (is_clear pattern2 c2 n) = inr b)
                ks2 bs2 ->
              (forall ch, ch ∈ ks2 -> ch ∈ child_nodes n) ->
              concat bs1 `sublist_of` concat bs2) as Hgen.
    { induction 1 as [|x l1 l2 Hl IHl|x l1 l2 Hl IHl];
        intros bs1 bs2 Hbs1 Hbs2 Hin.
      - inversion Hbs1; subst. inversion Hbs2; subst. constructor.
      - inversion Hbs1 as [|? b1 ? bs1' Hb1 Hbs1']; subst.
        inversion Hbs2 as [|? b2 ? bs2' Hb2 Hbs2']; subst.
        cbn [concat]. apply sublist_app.
        + eapply (IH x); [apply Hin; by left | | exact Hb1 | exact Hb2].
          intros Hc1. apply Hclear, Hc1.
        + apply IHl; [assumption | assumption |].
          intros ch Hch. apply Hin. by right.
      - inversion Hbs2 as [|? b2 ? bs2' Hb2 Hbs2']; subst.
        cbn [concat]. apply sublist_inserts_l.
        apply IHl; [assumption | assumption |].
        intros ch Hch. apply Hin. by right. }
    eapply Hgen; [apply kids_sublist | exact HF1 | exact HF2 |].
    intros ch Hch. by eapply kids_children. }
  apply sublist_app; [|exact Hsub].
  destruct (is_clear pattern1 c1 n || nonempty (concat blocks1)
            || bool_decide (path n ∈ ko)) eqn:Hown1; [|apply sublist_nil_l].
  assert (is_clear pattern2 c2 n || nonempty (concat blocks2)
          || bool_decide (path n ∈ ko) = true) as ->; [|reflexivity].
  rewrite !orb_true_iff in *. destruct Hown1 as [[Hcl|Hne]|Hko]; [auto | | auto].
  left. right. destruct (concat blocks1) as [|x l1]; [discriminate|].
  destruct (concat blocks2); [|reflexivity].
  by apply sublist_nil_r in Hsub.
Qed.

Lemma render_sublist (root : Node) (d1 d2 : Derived) :
  render settings index selection pattern1 qf vc hidden1 current root = inr d1 ->
  render settings index selection pattern2 qf vc hidden2 current root = inr d2 ->
  lookup d1 `sublist_of` lookup d2
  /\ zip (lookup d1) (rendered d1) `sublist_of` zip (lookup d2) (rendered d2).
Proof.
  intros H1 H2.
  destruct (render_inr _ _ _ _ _ _ _ _ _ _ H1) as (r1 & rest1 & Ho1 & _ & Hl1 & Hr1 & _).
  destruct (render_inr _ _ _ _ _ _ _ _ _ _ H2) as (r2 & rest2 & Ho2 & _ & Hl2 & Hr2 & _).
  pose proof (inner_sublist _ _ _ false false _ _ (fun H => H) Ho1 Ho2) as Hsub.
  change (root :: rest1.*1) with (((root, r1) :: rest1).*1) in Hl1.
  change (r1 :: rest1.*2) with (((root, r1) :: rest1).*2) in Hr1.
  change (root :: rest2.*1) with (((root, r2) :: rest2).*1) in Hl2.
  change (r2 :: rest2.*2) with (((root, r2) :: rest2).*2) in Hr2.
  rewrite Hl1, Hl2, Hr1, Hr2, !zip_fst_snd. split; [|exact Hsub].
  by apply fmap_sublist.
Qed.

End TwoWalks.

Section Monotone.
Context {modes : ModeEnum} {platform : Platform}.
Variables (settings : Settings) (index selection : gset str)
  (qf : QuickFix) (vc : VCStatus) (current : option str).

(** X9. A filter pattern only takes lines away: what [render] returns with
    a pattern is a sublist, lines in the same order and painted the same,
    of what it returns without one. *)
Theorem filter_only_hides (filter_pattern : option FilterPattern)
    (show_hidden : bool) (root : Node) (d1 d2 : Derived) :
  render settings index selection filter_pattern qf vc show_hidden current root = inr d1 ->
  render settings index selection None qf vc show_hidden current root = inr d2 ->
  lookup d1 `sublist_of` lookup d2
  /\ zip (lookup d1) (rendered d1) `sublist_of` zip (lookup d2) (rendered d2).
Proof.
  apply render_sublist.
  - reflexivity.
  - intros c1 c2 n _ _. unfold is_clear. apply orb_true_r.
Qed.

Lemma kids_hidden (n : Node) :
  kids_of settings vc false n `sublist_of` kids_of settings vc true n.
Proof.
  unfold kids_of, drop.
  rewrite <- (sorted_filter _ (comp_shape (sort_by (view settings)))).
  etrans; [apply filter_sublist|].
  assert (List.filter (fun _ : Node => negb false) (child_nodes n) = child_nodes n) as ->;
    [|reflexivity].
  induction (child_nodes n) as [|x l IHl]; simpl; [reflexivity|]. by f_equal.
Qed.

(** X10. Hiding only takes lines away: what [render] returns without
    [show_hidden] is a sublist, lines in the same order and painted the
    same, of what it returns with it. *)
Theorem hidden_only_hides (filter_pattern : option FilterPattern)
    (root : Node) (d1 d2 : Derived) :
  render settings index selection filter_pattern qf vc false current root = inr d1 ->
  render settings index selection filter_pattern qf vc true current root = inr d2 ->
  lookup d1 `sublist_of` lookup d2
  /\ zip (lookup d1) (rendered d1) `sublist_of` zip (lookup d2) (rendered d2).
Proof.
  apply render_sublist.
  - apply kids_hidden.
  - intros c1 c2 n Hc. unfold is_clear. rewrite !orb_true_iff.
    intros [H|H]; auto.
Qed.

End Monotone.

(** ** What the painting does not decide *)

Section Independence.
Context {modes : ModeEnum} {platform : Platform}.
Variables (settings settings' : Settings) (index index' selection selection' : gset str)
  (filter_pattern : option FilterPattern)
  (qf qf' : QuickFix) (vc vc' : VCStatus) (show_hidden : bool)
  (current current' : option str).

Hypothesis same_ignores : ignores settings = ignores settings'.
Hypothesis same_sort_by : sort_by (view settings) = sort_by (view settings').
Hypothesis same_ignored : ignored vc = ignored vc'.

Lemma kids_same (n : Node) :
  kids_of settings vc show_hidden n = kids_of settings' vc' show_hidden n.
Proof.
  unfold kids_of, drop, _ignore.
  by rewrite same_ignores, same_sort_by, same_ignored.
Qed.

Lemma inner_same_nodes (ko : gset str) (n : Node) (d : nat) (c : bool)
    (o1 o2 : list (Node * Render)) :
  render_inner settings index selection filter_pattern qf vc show_hidden current
    ko n d c = inr o1 ->
  render_inner settings' index' selection' filter_pattern qf' vc' show_hidden current'
    ko n d c = inr o2 ->
  o1.*1 = o2.*1.
Proof.
  revert d c o1 o2. induction n as [n IH] using Node_ind. intros d c o1 o2 H1 H2.
  apply render_inner_inv in H1. destruct H1 as (rend1 & blocks1 & _ & HF1 & ->).
  apply render_inner_inv in H2. destruct H2 as (rend2 & blocks2 & _ & HF2 & ->).
  rewrite <- kids_same in HF2.
  assert ((concat blocks1).*1 = (concat blocks2).*1) as Hsame.
  { assert (forall ks bs1 bs2,
              Forall2 (fun ch b =>
                render_inner settings index selection filter_pattern qf vc
                  show_hidden current ko ch (S d) (is_clear filter_pattern c n)
                = inr b) ks bs1 ->
              Forall2 (fun ch b =>
                render_inner settings' index' selection' filter_pattern qf' vc'
                  show_hidden current' ko ch (S d) (is_clear filter_pattern c n)
                = inr b) ks bs2 ->
              (forall ch, ch ∈ ks -> ch ∈ child_nodes n) ->
              (concat bs1).*1 = (concat bs2).*1) as Hgen.
    { induction ks as [|ch ks IHks]; intros bs1 bs2 Hbs1 Hbs2 Hin.
      - inversion Hbs1; subst. by inversion Hbs2; subst.
      - inversion Hbs1 as [|? b1 ? bs1' Hb1 Hbs1']; subst.
        inversion Hbs2 as [|? b2 ? bs2' Hb2 Hbs2']; subst.
        cbn [concat]. rewrite !fmap_app. f_equal.
        + eapply (IH ch); [apply Hin; by left | exact Hb1 | exact Hb2].
        + apply IHks; [assumption | assumption |].
          intros ch' Hch'. apply Hin. by right. }
    eapply Hgen; [exact HF1 | exact HF2 |].
    intros ch Hch. by eapply kids_children. }
  rewrite !fmap_app, Hsame. f_equal.
  assert (nonempty (concat blocks1) = nonempty (concat blocks2)) as ->.
  { destruct (concat blocks1), (concat blocks2); done. }
  by destruct (_ || _ || _).
Qed.

(** X11. Which nodes are shown, and where, does not depend on what only
    the painter reads: two renders of a tree that agree on the ignore
    patterns, the sort keys, the ignored set, the filter and [show_hidden]
    return the same [lookup] and [paths_lookup], whatever the index, the
    selection, the quickfix counts, the statuses, the current file and the
    rest of the settings are. *)
Theorem lookup_independent_of_painting (root : Node) (d1 d2 : Derived) :
  render settings index selection filter_pattern qf vc show_hidden current root
  = inr d1 ->
  render settings' index' selection' filter_pattern qf' vc' show_hidden current' root
  = inr d2 ->
  lookup d1 = lookup d2 /\ paths_lookup d1 = paths_lookup d2.
Proof.
  intros H1 H2.
  destruct (render_inr _ _ _ _ _ _ _ _ _ _ H1) as (r1 & rest1 & Ho1 & _ & Hl1 & _ & Hp1).
  destruct (render_inr _ _ _ _ _ _ _ _ _ _ H2) as (r2 & rest2 & Ho2 & _ & Hl2 & _ & Hp2).
  pose proof (inner_same_nodes _ _ _ _ _ _ Ho1 Ho2) as Hsame.
  assert (lookup d1 = lookup d2) as Hl.
  { rewrite Hl1, Hl2. exact Hsame. }
  split; [exact Hl|]. by rewrite Hp1, Hp2, Hl.
Qed.

End Independence.

(** ** Lines of ASCII characters *)

Lemma encode_opt_ascii (s : str) :
  Forall (fun c => (c < 0x80)%N) s -> encode_opt s = Some s.
Proof.
  induction 1 as [|c s Hc _ IH]; [reflexivity|].
  cbn [encode_opt]. rewrite IH. unfold encode_cp.
  by rewrite (proj2 (N.ltb_lt _ _) Hc).
Qed.

Lemma encoded_len_ascii (s : str) :
  Forall (fun c => (c < 0x80)%N) s -> encoded_len s = inr (length s).
Proof.
  intros Hs. unfold encoded_len, str_encode. by rewrite encode_opt_ascii.
Qed.

Section Ascii.
Context {modes : ModeEnum} {platform : Platform}.
Variables (settings : Settings) (index selection : gset str)
  (qf : QuickFix) (vc : VCStatus) (current : option str).

(** X12. On a line of ASCII characters the byte offsets are character
    counts: the span of the extension's group covers the icon region, the
    span of the resolved group the name region, counted in characters. *)
Theorem ascii_offsets (node : Node) (depth : nat) (r : Render) :
  show settings index selection qf vc current node depth = inr r ->
  Forall (fun c => (c < 0x80)%N) (line r) ->
  let pre := length (decor_pre settings selection current node depth) in
  let icon := length (icon_text settings index node) in
  let nm := length (name_text settings node) in
  render_highlights r
  = match exts (highlights (view settings)) !! ext_or_empty node with
    | Some grp =>
        [ {| group := hl_name grp; begin := pre; end_ := (pre + icon)%nat |} ]
    | None => []
    end
    ++ match search_hl settings node with
       | Some grp =>
           [ {| group := hl_name grp; begin := (pre + icon)%nat;
                end_ := (pre + icon + nm)%nat |} ]
       | None => []
       end.
Proof.
  intros Hr Hascii. apply show_inr in Hr. destruct Hr as (bs & hls & _ & Hhls & ->).
  fold (decor_pre settings selection current node depth)
    (icon_text settings index node) (name_text settings node)
    (decor_post settings node) in *.
  cbn [line render_highlights] in *.
  rewrite !Forall_app in Hascii. destruct Hascii as (Hpre & Hicon & Hname & _).
  apply gen_highlights_inr in Hhls.
  destruct Hhls as (pre_len & icon_len & Hpl & Hil & name_span & -> & Hspan).
  rewrite encoded_len_ascii in Hpl by done. rewrite encoded_len_ascii in Hil by done.
  injection Hpl as <-. injection Hil as <-. cbv zeta. f_equal.
  destruct (search_hl settings node) as [grp|]; [|exact Hspan].
  destruct Hspan as (name_len & Hnl & ->).
  rewrite encoded_len_ascii in Hnl by done. by injection Hnl as <-.
Qed.

End Ascii.

(** ** Escaping the line separator *)

Lemma startswith_true (s old : str) :
  startswith s old = true <-> exists rest, s = old ++ rest.
Proof.
  split; [apply startswith_prefix|]. intros (rest & ->).
  induction old as [|o old IH]; [by destruct rest|]. simpl.
  by rewrite bool_decide_eq_true_2.
Qed.

Lemma replace_from_skip (old new : str) (skip : nat) (s : str) :
  replace_from old new skip s = replace_from old new 0 (list.drop skip s).
Proof.
  revert skip. induction s as [|c s IH]; intros [|k]; try reflexivity.
  cbn [replace_from]. by rewrite IH.
Qed.

Lemma replace_from_step (o : codepoint) (old new : str) (c : codepoint) (s : str) :
  replace_from (o :: old) new 0 (c :: s)
  = if startswith (c :: s) (o :: old)
    then new ++ replace_from (o :: old) new 0 (list.drop (length old) s)
    else c :: replace_from (o :: old) new 0 s.
Proof.
  cbn [replace_from]. destruct (startswith (c :: s) (o :: old)); [|reflexivity].
  rewrite replace_from_skip. do 3 f_equal. simpl. lia.
Qed.

Section Replace.
Variables (o : codepoint) (old new : str).
Hypothesis new_nonempty : new <> [].
Hypothesis new_apart : forall a, a ∈ new -> a ∉ o :: old.

(** A run of code points of [old] at the head of the result was copied
    from the head of the string. *)
Lemma replace_from_copied (u s : str) :
  u <> [] -> (forall a, a ∈ u -> a ∈ o :: old) ->
  (exists rest, replace_from (o :: old) new 0 s = u ++ rest) ->
  startswith s (o :: old) = false /\ exists rest, s = u ++ rest.
Proof.
  revert u. induction s as [|c s IH]; intros u Hne Hu (rest & Heq).
  - destruct u; [done | discriminate].
  - rewrite replace_from_step in Heq.
    destruct u as [|a u]; [done|].
    destruct (startswith (c :: s) (o :: old)) eqn:Hstart.
    + destruct new as [|b new']; [done|]. injection Heq as -> _.
      destruct (new_apart a); [by left | apply Hu; by left].
    + split; [reflexivity|]. injection Heq as <- Heq.
      destruct u as [|a' u]; [by exists s|].
      destruct (IH (a' :: u)) as (_ & rest' & ->); [done | | by exists rest |].
      * intros x Hx. apply Hu. by right.
      * by exists rest'.
Qed.

Lemma occurs_after_new (t : str) :
  occurs_in (o :: old) (new ++ t) -> occurs_in (o :: old) t.
Proof.
  assert (forall w, (forall a, a ∈ w -> a ∈ new) ->
            occurs_in (o :: old) (w ++ t) -> occurs_in (o :: old) t) as Hgen.
  { induction w as [|b w IH]; intros Hw (pre & post & Heq); [by exists pre, post|].
    destruct pre as [|x pre].
    - injection Heq as -> _. destruct (new_apart o); [apply Hw |]; by left.
    - injection Heq as _ Heq. apply IH; [|by exists pre, post].
      intros a Ha. apply Hw. by right. }
  by apply Hgen.
Qed.

Lemma replace_from_clean (s : str) :
  ~ occurs_in (o :: old) (replace_from (o :: old) new 0 s).
Proof.
  remember (length s) as k eqn:Hk. revert s Hk.
  induction k as [k IH] using lt_wf_ind. intros s -> (pre & post & Heq).
  destruct s as [|c s]; [by destruct pre|].
  destruct (startswith (c :: s) (o :: old)) eqn:Hstart.
  - rewrite replace_from_step, Hstart in Heq.
    apply (IH (length (list.drop (length old) s))) with (list.drop (length old) s);
      [rewrite length_drop; simpl; lia | reflexivity |].
    apply occurs_after_new. rewrite Heq. by exists pre, post.
  - destruct pre as [|x pre].
    + destruct (replace_from_copied (o :: old) (c :: s)) as [_ (rest & Hpre)];
        [done | done | by exists post |].
      assert (startswith (c :: s) (o :: old) = true) as Htrue
        by (apply startswith_true; eauto).
      congruence.
    + rewrite replace_from_step, Hstart in Heq. injection Heq as _ Heq.
      apply (IH (length s)) with s; [simpl; lia | reflexivity |].
      by exists pre, post.
Qed.

End Replace.

Lemma replace_absent (s old new : str) :
  old <> [] -> ~ occurs_in old s -> replace s old new = s.
Proof.
  intros Hne. destruct old as [|o old]; [done|]. clear Hne. unfold replace.
  induction s as [|c s IH]; intros Hno; [reflexivity|].
  rewrite replace_from_step.
  destruct (startswith (c :: s) (o :: old)) eqn:Hstart.
  - destruct Hno. apply startswith_true in Hstart. destruct Hstart as (rest & ->).
    by exists [], rest.
  - f_equal. apply IH. intros (pre & post & ->). apply Hno.
    by exists (c :: pre), post.
Qed.

Section Names.
Context {modes : ModeEnum} {platform : Platform}.
Variable settings : Settings.

(** X13. When the line separator is not empty and holds neither a
    backslash nor the letter n, the name that [gen_name] yields holds no
    line separator, and it holds every code point of the node's name that
    is not part of the separator. *)
Theorem escaped_name_has_no_line_separator (node : Node) :
  linesep <> [] -> 92%N ∉ linesep -> 110%N ∉ linesep ->
  exists nm rest,
    gen_name settings node = nm :: rest
    /\ ~ occurs_in linesep nm
    /\ (forall c, c ∈ name node -> c ∉ linesep -> c ∈ nm).
Proof.
  intros Hne Hb Hn. eexists _, _. split; [reflexivity|]. split.
  - unfold replace. destruct linesep as [|o old] eqn:Hsep; [done|].
    apply replace_from_clean; [discriminate|].
    intros a Ha Hin. apply list_elem_of_In in Ha. simpl in Ha.
    destruct Ha as [<-|[<-|[]]]; auto.
  - intros c Hc Hsep. by apply replace_keeps.
Qed.

(** X14. A name in which the line separator does not occur is shown as it
    is, followed by the path separator for a folder when icons are off. *)
Theorem name_without_line_separator_unchanged (node : Node) :
  linesep <> [] -> ~ occurs_in linesep (name node) ->
  name_text settings node
  = name node
    ++ (if negb (use_icons (view settings)) && bool_decide (Mode_folder ∈ mode node)
        then sep else []).
Proof.
  intros Hne Hno. unfold name_text, gen_name. cbn [concat].
  rewrite replace_absent by done. f_equal.
  destruct (_ && _); [apply app_nil_r | reflexivity].
Qed.

End Names.

(** ** Folders first *)

Section Order.
Context {modes : ModeEnum} {platform : Platform}.
Variables (settings : Settings) (vc : VCStatus) (show_hidden : bool).

(** X15. When [is_folder] is the first sort key, the walk takes every
    folder among the children of a node before every child that is not a
    folder. *)
Theorem folders_first (n : Node) (rest : list Sortby) l1 a l2 b l3 :
  sort_by (view settings) = is_folder :: rest ->
  kids_of settings vc show_hidden n = l1 ++ a :: l2 ++ b :: l3 ->
  Mode_folder ∈ mode b -> Mode_folder ∈ mode a.
Proof.
  intros Hsort Hsplit Hb.
  pose proof (sorted_sorted (comp (sort_by (view settings)))
                (comp_shape (sort_by (view settings)))
                (List.filter (fun ch => negb (drop settings vc show_hidden ch))
                   (child_nodes n))) as Hs.
  fold (kids_of settings vc show_hidden n) in Hs. rewrite Hsplit in Hs.
  apply StronglySorted_before in Hs. unfold key_le in Hs.
  rewrite Hsort in Hs. cbn [comp List.map tuple_lt] in Hs.
  rewrite (decide_True (P := Mode_folder ∈ mode b)) in Hs by done.
  destruct (decide (Mode_folder ∈ mode a)) as [Ha|Ha]; [exact Ha|].
  rewrite decide_False in Hs by discriminate. discriminate.
Qed.

End Order.

Lemma occurs_in_elem (c : codepoint) (old s : str) : occurs_in (c :: old) s -> c ∈ s.
Proof. intros (pre & post & ->). rewrite elem_of_app. right. by left. Qed.

(** * Dictionaries, paths, the transitions and the text decorations *)

(** ** Dictionaries *)

Lemma dict_setitem_fresh {V} (d : pydict V) (k : str) (v : V) :
  k ∉ d.*1 -> dict_setitem d k v = d ++ [(k, v)].
Proof.
  induction d as [|[k' v'] d IH]; intros Hk; [reflexivity|].
  rewrite fmap_cons, not_elem_of_cons in Hk. destruct Hk as [Hne Hk]. simpl in Hne.
  cbn [dict_setitem]. rewrite decide_False by done. by rewrite IH.
Qed.

Lemma dict_setitem_keys {V} (d : pydict V) (k : str) (v : V) :
  (dict_setitem d k v).*1 = if decide (k ∈ d.*1) then d.*1 else d.*1 ++ [k].
Proof.
  induction d as [|[k' v'] d IH]; [reflexivity|]. cbn [dict_setitem].
  destruct (decide (k' = k)) as [->|Hne].
  - rewrite decide_True by (rewrite fmap_cons; by left). reflexivity.
  - rewrite !fmap_cons, IH. cbn [fst].
    destruct (decide (k ∈ d.*1)) as [Hin|Hnin].
    + rewrite decide_True by (by right). reflexivity.
    + rewrite decide_False; [reflexivity|].
      rewrite not_elem_of_cons. split; [congruence | exact Hnin].
Qed.

Lemma dict_get_setitem {V} (d : pydict V) (k : str) (v : V) (k' : str) :
  dict_get (dict_setitem d k v) k'
  = if decide (k = k') then Some v else dict_get d k'.
Proof.
  induction d as [|[k0 v0] d IH]; cbn [dict_setitem dict_get].
  - reflexivity.
  - destruct (decide (k0 = k)) as [->|Hne]; cbn [dict_get].
    + destruct (decide (k = k')); reflexivity.
    + rewrite IH. destruct (decide (k0 = k')) as [->|Hne'].
      * by rewrite decide_False.
      * reflexivity.
Qed.

Lemma dict_get_None {V} (d : pydict V) (k : str) :
  dict_get d k = None <-> k ∉ d.*1.
Proof.
  induction d as [|[k' v'] d IH]; cbn [dict_get].
  - split; [intros _; apply not_elem_of_nil | reflexivity].
  - rewrite fmap_cons, not_elem_of_cons. cbn [fst].
    destruct (decide (k' = k)) as [->|Hne].
    + split; [discriminate | intros [? _]; congruence].
    + rewrite IH. split; [intros ?; split; congruence | intros [_ ?]; assumption].
Qed.

(** A comprehension, item by item: the items go behind the ones that are
    there; a key met again keeps its place and takes the later value. *)
Lemma foldl_setitem_NoDup {V} (acc items : pydict V) :
  NoDup (acc.*1 ++ items.*1) ->
  foldl (fun d kv => dict_setitem d kv.1 kv.2) acc items = acc ++ items.
Proof.
  revert acc. induction items as [|[k v] items IH]; intros acc Hnd.
  - by rewrite app_nil_r.
  - cbn [foldl]. cbn [fst snd]. rewrite fmap_cons in Hnd. cbn [fst] in Hnd.
    rewrite dict_setitem_fresh.
    + rewrite IH; [by rewrite <- app_assoc|].
      by rewrite fmap_app, <- app_assoc.
    + apply NoDup_app in Hnd. destruct Hnd as (_ & Hdisj & _).
      intros Hin. apply (Hdisj k Hin). by left.
Qed.

Lemma dict_of_NoDup {V} (items : pydict V) :
  NoDup items.*1 -> dict_of items = items.
Proof. intros Hnd. unfold dict_of. by rewrite foldl_setitem_NoDup. Qed.

Lemma foldl_setitem_get {V} (acc items : pydict V) (k : str) :
  dict_get (foldl (fun d kv => dict_setitem d kv.1 kv.2) acc items) k
  = match dict_get (reverse items) k with
    | Some v => Some v
    | None => dict_get acc k
    end.
Proof.
  revert acc. induction items as [|[k0 v0] items IH]; intros acc; [reflexivity|].
  cbn [foldl]. rewrite IH, reverse_cons. cbn [fst snd].
  assert (forall (d1 d2 : pydict V),
            dict_get (d1 ++ d2) k
            = match dict_get d1 k with Some v => Some v | None => dict_get d2 k end)
    as Happ.
  { induction d1 as [|[k1 v1] d1 IHd]; intros d2; [reflexivity|].
    cbn [app dict_get]. destruct (decide (k1 = k)); [reflexivity | apply IHd]. }
  rewrite Happ. destruct (dict_get (reverse items) k) as [v|]; [reflexivity|].
  rewrite dict_get_setitem. cbn [dict_get].
  destruct (decide (k0 = k)); reflexivity.
Qed.

Lemma dict_of_get {V} (items : pydict V) (k : str) :
  dict_get (dict_of items) k = dict_get (reverse items) k.
Proof.
  unfold dict_of. rewrite foldl_setitem_get.
  by destruct (dict_get (reverse items) k).
Qed.

Lemma foldl_setitem_keys_NoDup {V} (acc items : pydict V) :
  NoDup acc.*1 ->
  NoDup (foldl (fun d kv => dict_setitem d kv.1 kv.2) acc items).*1.
Proof.
  revert acc. induction items as [|[k v] items IH]; intros acc Hnd; [exact Hnd|].
  cbn [foldl]. apply IH. rewrite dict_setitem_keys. cbn [fst snd].
  destruct (decide (k ∈ acc.*1)); [exact Hnd|].
  apply NoDup_app. split; [exact Hnd|]. split.
  - intros x Hx Hin. apply list_elem_of_singleton in Hin. by subst.
  - apply NoDup_singleton.
Qed.

Lemma foldl_setitem_keys_sub {V} (acc items : pydict V) (k : str) :
  k ∈ (foldl (fun d kv => dict_setitem d kv.1 kv.2) acc items).*1 <->
  k ∈ acc.*1 \/ k ∈ items.*1.
Proof.
  revert acc. induction items as [|[k0 v0] items IH]; intros acc.
  - cbn [foldl]. rewrite fmap_nil, elem_of_nil. tauto.
  - cbn [foldl]. rewrite IH, dict_setitem_keys, fmap_cons, elem_of_cons. cbn [fst snd].
    destruct (decide (k0 ∈ acc.*1)) as [Hin|Hnin].
    + split; [tauto|]. intros [?|[->|?]]; auto.
    + rewrite elem_of_app, list_elem_of_singleton. tauto.
Qed.

Lemma dict_get_app {V} (d1 d2 : pydict V) (k : str) :
  dict_get (d1 ++ d2) k
  = match dict_get d1 k with Some v => Some v | None => dict_get d2 k end.
Proof.
  induction d1 as [|[k1 v1] d1 IH]; [reflexivity|].
  cbn [app dict_get]. destruct (decide (k1 = k)); [reflexivity | apply IH].
Qed.

(** Looking a key up from the end finds the last item that has it. *)
Lemma dict_get_reverse {V} (items : pydict V) (k : str) (v : V) :
  dict_get (reverse items) k = Some v <->
  exists i, items !! i = Some (k, v)
    /\ forall j v', items !! j = Some (k, v') -> (j <= i)%nat.
Proof.
  induction items as [|[k0 v0] items IH] using rev_ind.
  - split; [discriminate | intros (i & Hi & _); done].
  - rewrite reverse_app. cbn [reverse rev_append app dict_get].
    destruct (decide (k0 = k)) as [->|Hne].
    + split.
      * intros [= ->]. exists (length items). split.
        -- by rewrite lookup_app_r, Nat.sub_diag.
        -- intros j v' Hj. apply lookup_lt_Some in Hj.
           rewrite length_app in Hj. simpl in Hj. lia.
      * intros (i & Hi & Hlast).
        assert (i = length items) as ->.
        { assert ((items ++ [(k, v0)]) !! length items = Some (k, v0)) as Hend
            by (by rewrite lookup_app_r, Nat.sub_diag).
          specialize (Hlast _ _ Hend). apply lookup_lt_Some in Hi.
          rewrite length_app in Hi. simpl in Hi. lia. }
        rewrite lookup_app_r, Nat.sub_diag in Hi by lia. by injection Hi as ->.
    + rewrite IH. split.
      * intros (i & Hi & Hlast). exists i. split.
        -- by apply lookup_app_l_Some.
        -- intros j v' Hj. apply lookup_app_Some in Hj.
           destruct Hj as [Hj | [_ Hj]]; [by eapply Hlast|].
           destruct (j - length items)%nat; simpl in Hj; [congruence | done].
      * intros (i & Hi & Hlast). exists i. apply lookup_app_Some in Hi.
        destruct Hi as [Hi | [_ Hi]].
        -- split; [exact Hi|]. intros j v' Hj. eapply Hlast.
           by apply lookup_app_l_Some.
        -- destruct (i - length items)%nat; simpl in Hi; [congruence | done].
Qed.

Lemma map_keys_elem {V W} (g : str -> str) (f : str * V -> W) (d : list (str * V))
    (k : str) :
  k ∈ (List.map (fun kv => (g kv.1, f kv)) d).*1 -> exists k0, k0 ∈ d.*1 /\ k = g k0.
Proof.
  induction d as [|[k1 v1] d IH]; simpl; [by intros ?%elem_of_nil|].
  intros [->|Hin]%elem_of_cons.
  - exists k1. split; [by left | reflexivity].
  - destruct (IH Hin) as (k0 & Hk0 & ->). exists k0. split; [by right | reflexivity].
Qed.

Lemma NoDup_map_keys {V W} (g : str -> str) (f : str * V -> W) (d : list (str * V)) :
  (forall k1 k2, g k1 = g k2 -> k1 = k2) -> NoDup d.*1 ->
  NoDup (List.map (fun kv => (g kv.1, f kv)) d).*1.
Proof.
  intros Hinj. induction d as [|[k v] d IH]; simpl; [constructor|].
  intros [Hk Hnd]%NoDup_cons. apply NoDup_cons. split; [|by apply IH].
  intros Hin. apply map_keys_elem in Hin. destruct Hin as (k0 & Hk0 & Heq).
  apply Hinj in Heq. by subst.
Qed.

Lemma dict_of_map_values {V W} (f : V -> W) (d : pydict V) :
  NoDup d.*1 ->
  dict_of (List.map (fun kv => (kv.1, f kv.2)) d) = List.map (fun kv => (kv.1, f kv.2)) d.
Proof.
  intros Hnd. apply dict_of_NoDup.
  by apply (NoDup_map_keys (fun k => k) (fun kv => f kv.2)).
Qed.

Lemma dict_get_map_values {V W} (f : V -> W) (d : pydict V) (k : str) :
  dict_get (List.map (fun kv => (kv.1, f kv.2)) d) k = f <$> dict_get d k.
Proof.
  induction d as [|[k0 v0] d IH]; [reflexivity|]. cbn [List.map dict_get fst snd].
  destruct (decide (k0 = k)); [reflexivity | exact IH].
Qed.

Lemma dict_popitem_snoc {V} (d : pydict V) (kv : str * V) :
  dict_popitem (d ++ [kv]) = Some (kv, d).
Proof.
  unfold dict_popitem. rewrite reverse_app, reverse_singleton. cbn [app].
  by rewrite reverse_involutive.
Qed.

Lemma dict_setitem_NoDup {V} (d : pydict V) (k : str) (v : V) :
  NoDup d.*1 -> NoDup (dict_setitem d k v).*1.
Proof.
  intros Hnd. rewrite dict_setitem_keys. destruct (decide (k ∈ d.*1)); [exact Hnd|].
  apply NoDup_app. split; [exact Hnd|]. split.
  - intros x Hx Hin. apply list_elem_of_singleton in Hin. by subst.
  - apply NoDup_singleton.
Qed.

Lemma dict_get_Some_NoDup {V} (d : pydict V) (k : str) (v : V) :
  NoDup d.*1 -> dict_get d k = Some v <-> (k, v) ∈ d.
Proof.
  induction d as [|[k0 v0] d IH]; intros Hnd; cbn [dict_get].
  - split; [discriminate | by intros ?%elem_of_nil].
  - rewrite fmap_cons in Hnd. apply NoDup_cons in Hnd. destruct Hnd as [Hk0 Hnd].
    cbn [fst] in Hk0. rewrite elem_of_cons.
    destruct (decide (k0 = k)) as [->|Hne].
    + split; [intros [= ->]; by left|]. intros [[= ->]|Hin]; [reflexivity|].
      destruct Hk0. apply list_elem_of_fmap. by exists (k, v).
    + rewrite IH by done. split; [by right|]. intros [[= ? ?]|?]; [congruence | done].
Qed.

Lemma dict_get_reverse_NoDup {V} (d : pydict V) (k : str) :
  NoDup d.*1 -> dict_get (reverse d) k = dict_get d k.
Proof.
  intros Hnd. apply option_eq. intros v.
  rewrite !dict_get_Some_NoDup, elem_of_reverse; [reflexivity | exact Hnd |].
  by rewrite fmap_reverse, reverse_Permutation.
Qed.

Lemma dict_merge_get {V} (a b : pydict V) (k : str) :
  NoDup b.*1 ->
  dict_get (dict_merge a b) k
  = match dict_get b k with Some v => Some v | None => dict_get a k end.
Proof.
  intros Hnd. unfold dict_merge. by rewrite foldl_setitem_get, dict_get_reverse_NoDup.
Qed.

Lemma filter_keys_NoDup {V} (p : str * V -> bool) (d : pydict V) :
  NoDup d.*1 -> NoDup (List.filter p d).*1.
Proof.
  intros Hnd. eapply sublist_NoDup; [exact Hnd|]. apply fmap_sublist, filter_sublist.
Qed.


(** ** The text decorations *)

Lemma process_exts_map (exts : pydict str) :
  NoDup exts.*1 ->
  TextDecorations._process_exts exts
  = List.map (fun kv => (lit "." ++ kv.1, kv.2)) exts.
Proof.
  intros Hnd. apply dict_of_NoDup.
  apply (NoDup_map_keys (fun k => lit "." ++ k) (fun kv => kv.2)); [|exact Hnd].
  intros k1 k2 Heq. by simplify_list_eq.
Qed.

Lemma process_exts_get (exts : pydict str) (k : str) :
  NoDup exts.*1 ->
  dict_get (TextDecorations._process_exts exts) (lit "." ++ k) = dict_get exts k.
Proof.
  intros Hnd. rewrite process_exts_map by done. clear Hnd.
  induction exts as [|[k0 v0] d IH]; [reflexivity|]. cbn [List.map dict_get fst snd].
  destruct (decide (k0 = k)) as [->|Hne].
  - by rewrite decide_True.
  - rewrite decide_False; [exact IH|]. intros Heq. by simplify_list_eq.
Qed.

Section IconGlyphs.
Variables (Folder Link Status : Type).
#[local] Abbreviation IconGlyphs := (TextDecorations.IconGlyphs Folder Link Status).

(** X16. [_process_icons] puts a dot before every extension and changes
    nothing else about the extension glyphs: the keys keep their order, the
    glyph of [k] is found under [.k], and nothing is found under a key that
    does not start with a dot. The exact names and the default icon are
    handed on as they are. *)
Theorem process_icons_extensions (icons : IconGlyphs) :
  NoDup (TextDecorations.ext_exact _ _ _ icons).*1 ->
  let processed := TextDecorations._process_icons _ _ _ icons in
  (TextDecorations.ext_exact _ _ _ processed).*1
  = (fun k => lit "." ++ k) <$> (TextDecorations.ext_exact _ _ _ icons).*1
  /\ (forall k, dict_get (TextDecorations.ext_exact _ _ _ processed) (lit "." ++ k)
                = dict_get (TextDecorations.ext_exact _ _ _ icons) k)
  /\ (forall k', is_Some (dict_get (TextDecorations.ext_exact _ _ _ processed) k') ->
        exists k, k' = lit "." ++ k)
  /\ TextDecorations.name_exact _ _ _ processed = TextDecorations.name_exact _ _ _ icons
  /\ TextDecorations.default_icon _ _ _ processed = TextDecorations.default_icon _ _ _ icons.
Proof.
  intros Hnd. cbv zeta. cbn [TextDecorations._process_icons TextDecorations.ext_exact
    TextDecorations.name_exact TextDecorations.default_icon].
  split; [|split; [|split; [|split; reflexivity]]].
  - rewrite process_exts_map by done. clear.
    induction (TextDecorations.ext_exact _ _ _ icons) as [|[k v] d IH];
      [reflexivity|]. simpl. f_equal. exact IH.
  - intros k. by apply process_exts_get.
  - intros k' [v Hv]. rewrite process_exts_map in Hv by done.
    destruct (decide (k' ∈ (List.map (fun kv : str * str => (lit "." ++ kv.1, kv.2))
                    (TextDecorations.ext_exact _ _ _ icons)).*1)) as [Hin|Hn].
    + apply (map_keys_elem (fun k => lit "." ++ k) (fun kv => kv.2)) in Hin.
      destruct Hin as (k0 & _ & ->). by exists k0.
    + apply dict_get_None in Hn. discriminate (eq_trans (eq_sym Hn) Hv).
Qed.

End IconGlyphs.

Lemma rstrip_last (chars s : str) (c : codepoint) :
  last (rstrip chars s) = Some c -> c ∉ chars.
Proof.
  induction s as [|c0 s IH]; cbn [rstrip]; [discriminate|].
  destruct (rstrip chars s) as [|x t].
  - destruct (bool_decide_reflect (c0 ∈ chars)) as [Hin|Hnin]; [discriminate|].
    by intros [= <-].
  - rewrite last_cons_cons. exact IH.
Qed.

Lemma replace_from_nil (o : codepoint) (old new : str) (s : str) :
  new <> [] -> replace_from (o :: old) new 0 s = [] -> s = [].
Proof.
  intros Hnew. destruct s as [|c s]; [reflexivity|]. rewrite replace_from_step.
  destruct (startswith (c :: s) (o :: old)); [|discriminate].
  destruct new; [done | discriminate].
Qed.

(** The last code point of the result is the last one of the string or
    the last one of [new]. *)
Lemma replace_from_last (o : codepoint) (old new : str) (s : str) (c : codepoint) :
  new <> [] -> last (replace_from (o :: old) new 0 s) = Some c ->
  last s = Some c \/ last new = Some c.
Proof.
  intros Hnew. remember (length s) as k eqn:Hk. revert s Hk.
  induction k as [k IH] using lt_wf_ind. intros s -> Hlast.
  destruct s as [|c0 s]; [discriminate|]. rewrite replace_from_step in Hlast.
  destruct (startswith (c0 :: s) (o :: old)).
  - apply last_app_Some in Hlast. destruct Hlast as [Hlast | [_ Hlast]]; [|by right].
    apply (IH (length (list.drop (length old) s))) in Hlast;
      [|rewrite length_drop; simpl; lia | reflexivity].
    destruct Hlast as [Hlast|Hlast]; [left | by right].
    rewrite <- (take_drop (length old) s).
    change (c0 :: take (length old) s ++ list.drop (length old) s)
      with ((c0 :: take (length old) s) ++ list.drop (length old) s).
    rewrite last_app, Hlast. reflexivity.
  - destruct (replace_from (o :: old) new 0 s) as [|x t] eqn:Hrest.
    + apply replace_from_nil in Hrest; [|exact Hnew]. subst s. by left.
    + rewrite last_cons_cons, <- Hrest in Hlast.
      apply (IH (length s)) in Hlast; [|simpl; lia | reflexivity].
      destruct Hlast as [Hlast|Hlast]; [left | by right].
      destruct s as [|y s]; [discriminate|]. by rewrite last_cons_cons.
Qed.

Lemma glob_key_last (k : str) : last (TextDecorations.glob_key k) <> Some 36%N.
Proof.
  unfold TextDecorations.glob_key. intros Hlast.
  apply (replace_from_last 92%N [46%N] [46%N]) in Hlast; [|discriminate].
  destruct Hlast as [Hlast|Hlast]; [|discriminate].
  apply rstrip_last in Hlast. apply Hlast. by left.
Qed.

Lemma map_lookup_key {V} (g : str -> str) (d : list (str * V)) (i : nat) (k : str) (v : V) :
  List.map (fun kv => (g kv.1, kv.2)) d !! i = Some (k, v) <->
  exists k0, d !! i = Some (k0, v) /\ g k0 = k.
Proof.
  revert i. induction d as [|[k1 v1] d IH]; intros i.
  - split; [done | by intros (? & ? & _)].
  - destruct i as [|i]; simpl.
    + split; [intros [= <- <-]; eauto | intros (k0 & [= -> ->] & <-); reflexivity].
    + apply IH.
Qed.

(** X17. The keys that [_process_glob] returns are pairwise different and
    none ends in a dollar sign; of several patterns that are processed to
    one key, the value of the last is kept; and when the processed keys are
    pairwise different the items keep their order. *)
Theorem process_glob_keys (glob : pydict str) :
  NoDup (TextDecorations._process_glob glob).*1
  /\ (forall k, k ∈ (TextDecorations._process_glob glob).*1 -> last k <> Some 36%N)
  /\ (forall k v,
        dict_get (TextDecorations._process_glob glob) k = Some v <->
        exists i k0,
          glob !! i = Some (k0, v) /\ TextDecorations.glob_key k0 = k
          /\ forall j k1 v1, glob !! j = Some (k1, v1) ->
               TextDecorations.glob_key k1 = k -> (j <= i)%nat)
  /\ (NoDup (TextDecorations.glob_key <$> glob.*1) ->
      TextDecorations._process_glob glob
      = List.map (fun kv => (TextDecorations.glob_key kv.1, kv.2)) glob).
Proof.
  unfold TextDecorations._process_glob. split; [|split; [|split]].
  - apply foldl_setitem_keys_NoDup. constructor.
  - intros k Hk. apply foldl_setitem_keys_sub in Hk.
    destruct Hk as [Hk|Hk]; [by apply elem_of_nil in Hk|].
    apply (map_keys_elem TextDecorations.glob_key (fun kv => kv.2)) in Hk.
    destruct Hk as (k0 & _ & ->). apply glob_key_last.
  - intros k v. rewrite dict_of_get, dict_get_reverse. split.
    + intros (i & Hi & Hlast). apply map_lookup_key in Hi.
      destruct Hi as (k0 & Hi & Hk). exists i, k0. split; [exact Hi|].
      split; [exact Hk|]. intros j k1 v1 Hj Hk1. apply (Hlast j v1).
      apply map_lookup_key. eauto.
    + intros (i & k0 & Hi & Hk & Hlast). exists i. split.
      * apply map_lookup_key. eauto.
      * intros j v' Hj. apply map_lookup_key in Hj.
        destruct Hj as (k1 & Hj & Hk1). by eapply Hlast.
  - intros Hnd. apply dict_of_NoDup.
    assert (forall d : list (str * str),
              (List.map (fun kv => (TextDecorations.glob_key kv.1, kv.2)) d).*1
              = TextDecorations.glob_key <$> d.*1) as Hkeys.
    { induction d as [|[k v] d IH]; [reflexivity|]. simpl. f_equal. exact IH. }
    exact (eq_rect_r NoDup Hnd (Hkeys glob)).
Qed.

(** X18. The light colours are made from the processed dark ones: the
    colour [v] of extension [k] is found under [.k] as
    [hex_inverse("#" + v)], the colour of an exact name under the name as
    it is, and the keys are the processed keys in their order. *)
Theorem lightmode_colours (hex_inverse : str -> str)
    (colours : TextDecorations.TextColours) :
  NoDup (TextDecorations.colours_ext_exact colours).*1 ->
  NoDup (TextDecorations.colours_name_exact colours).*1 ->
  let dark := TextDecorations._process_colours colours in
  let light := TextDecorations._make_lightmode hex_inverse dark in
  (TextDecorations.colours_ext_exact light).*1
  = (fun k => lit "." ++ k) <$> (TextDecorations.colours_ext_exact colours).*1
  /\ (TextDecorations.colours_name_exact light).*1
     = (TextDecorations.colours_name_exact colours).*1
  /\ (forall k,
        dict_get (TextDecorations.colours_ext_exact light) (lit "." ++ k)
        = (fun v => hex_inverse (lit "#" ++ v))
          <$> dict_get (TextDecorations.colours_ext_exact colours) k)
  /\ (forall k,
        dict_get (TextDecorations.colours_name_exact light) k
        = (fun v => hex_inverse (lit "#" ++ v))
          <$> dict_get (TextDecorations.colours_name_exact colours) k).
Proof.
  intros Hext Hname. cbv zeta.
  cbn [TextDecorations._make_lightmode TextDecorations._process_colours
       TextDecorations.colours_ext_exact TextDecorations.colours_name_exact].
  unfold TextDecorations._process_inverse, TextDecorations._process_hexcode.
  assert (forall (f : str -> str) (d : list (str * str)),
            (List.map (fun kv => (kv.1, f kv.2)) d).*1 = d.*1) as Hkeys.
  { intros f d. induction d as [|[k v] d IH]; [reflexivity|]. simpl. f_equal. exact IH. }
  assert (NoDup (TextDecorations._process_exts
                   (TextDecorations.colours_ext_exact colours)).*1) as Hext'.
  { apply foldl_setitem_keys_NoDup. constructor. }
  rewrite (dict_of_map_values (fun v => lit "#" ++ v)
             (TextDecorations._process_exts (TextDecorations.colours_ext_exact colours)))
    by exact Hext'.
  rewrite (dict_of_map_values (fun v => lit "#" ++ v)
             (TextDecorations.colours_name_exact colours)) by exact Hname.
  rewrite !(dict_of_map_values hex_inverse)
    by (exact (eq_rect_r NoDup Hext' (Hkeys _ _))
        || exact (eq_rect_r NoDup Hname (Hkeys _ _))).
  split; [|split; [|split]].
  - rewrite !Hkeys, process_exts_map by exact Hext. clear.
    induction (TextDecorations.colours_ext_exact colours) as [|[k v] d IH];
      [reflexivity|]. simpl. f_equal. exact IH.
  - by rewrite !Hkeys.
  - intros k. rewrite !dict_get_map_values, process_exts_get by exact Hext.
    by destruct (dict_get _ k).
  - intros k. rewrite !dict_get_map_values. by destruct (dict_get _ k).
Qed.

(** ** Paths *)

Lemma rsplit_unique (h t : str) :
  posixpath.slash ∉ t -> h = [] \/ last h = Some posixpath.slash ->
  posixpath.rsplit (h ++ t) = (h, t).
Proof.
  intros Ht. induction h as [|c h IH]; intros Hh.
  - clear Hh. simpl. induction t as [|c t IHt]; [reflexivity|].
    rewrite not_elem_of_cons in Ht. destruct Ht as [Hc Ht].
    cbn [posixpath.rsplit]. rewrite (IHt Ht).
    by rewrite bool_decide_eq_false_2.
  - destruct Hh as [Hh|Hh]; [discriminate|]. cbn [app posixpath.rsplit].
    destruct h as [|c' h].
    + injection Hh as ->. rewrite IH by (by left). cbn [app].
      by rewrite bool_decide_eq_true_2.
    + rewrite last_cons_cons in Hh. by rewrite IH by (by right).
Qed.

Lemma rsplit_spec (p : str) :
  p = (posixpath.rsplit p).1 ++ (posixpath.rsplit p).2
  /\ (posixpath.slash ∉ (posixpath.rsplit p).2)
  /\ ((posixpath.rsplit p).1 = [] \/ last (posixpath.rsplit p).1 = Some posixpath.slash).
Proof.
  induction p as [|c p (Heq & Hno & Hlast)]; cbn [posixpath.rsplit].
  - split; [reflexivity|]. split; [apply not_elem_of_nil | by left].
  - destruct (posixpath.rsplit p) as [[|x h] t]; cbn [fst snd] in *.
    + destruct (bool_decide_reflect (c = posixpath.slash)) as [->|Hc]; cbn [fst snd].
      * split; [by rewrite Heq|]. split; [exact Hno | by right].
      * split; [by rewrite Heq|]. split; [|by left].
        rewrite not_elem_of_cons. by split.
    + split; [by rewrite Heq|]. split; [exact Hno|]. right.
      destruct Hlast as [?|Hlast]; [discriminate|]. by rewrite last_cons_cons.
Qed.

Lemma startswith_no_slash (t : str) :
  posixpath.slash ∉ t -> startswith t [posixpath.slash] = false.
Proof.
  destruct t as [|c t]; [reflexivity|]. rewrite not_elem_of_cons. intros [Hc _].
  simpl. by rewrite bool_decide_eq_false_2.
Qed.

Lemma endswith_slash (a : str) :
  endswith a [posixpath.slash] = true <-> last a = Some posixpath.slash.
Proof.
  unfold endswith. rewrite last_Some. split.
  - intros H. apply startswith_prefix in H. destruct H as (rest & Hrev).
    exists (reverse rest). apply (f_equal reverse) in Hrev.
    rewrite reverse_involutive in Hrev. rewrite Hrev.
    by rewrite reverse_app, reverse_involutive.
  - intros (l' & ->). rewrite reverse_app, !reverse_singleton. simpl.
    rewrite ?bool_decide_eq_true_2 by done. by destruct (reverse l').
Qed.

Lemma rstrip_snoc_other (chars s : str) (c : codepoint) :
  c ∉ chars -> rstrip chars (s ++ [c]) = s ++ [c].
Proof.
  intros Hc. induction s as [|x s IH]; cbn [app rstrip].
  - by rewrite bool_decide_eq_false_2.
  - rewrite IH. by destruct s.
Qed.

Lemma rstrip_snoc_in (chars s : str) (c : codepoint) :
  c ∈ chars -> rstrip chars (s ++ [c]) = rstrip chars s.
Proof.
  intros Hc. induction s as [|x s IH]; cbn [app rstrip].
  - by rewrite bool_decide_eq_true_2.
  - by rewrite IH.
Qed.

Lemma rstrip_stable (chars s : str) :
  (forall c, last s = Some c -> c ∉ chars) -> rstrip chars s = s.
Proof.
  destruct s as [|x s] using rev_ind; [reflexivity|]. intros Hlast.
  apply rstrip_snoc_other, Hlast, last_snoc.
Qed.

(** The head that [dirname] returns ends in no separator, unless it is
    made of separators only. *)
Lemma dirname_stable (p : str) :
  last (posixpath.dirname p) <> Some posixpath.slash
  \/ posixpath.dirname p
     = replicate (length (posixpath.dirname p)) posixpath.slash.
Proof.
  unfold posixpath.dirname. cbv zeta.
  destruct (bool_decide_reflect ((posixpath.rsplit p).1 <> [])) as [Hne|He]; cbn [andb].
  - destruct (bool_decide_reflect
                ((posixpath.rsplit p).1
                 <> replicate (length (posixpath.rsplit p).1) posixpath.slash))
      as [Hns|Hall].
    + left. intros Hlast. apply rstrip_last in Hlast. apply Hlast. by left.
    + right. apply dec_stable in Hall. exact Hall.
  - right. apply dec_stable in He. by rewrite He.
Qed.

Lemma join_rsplit (parent name : str) :
  posixpath.slash ∉ name ->
  posixpath.rsplit (posixpath.join parent name)
  = (if bool_decide (parent = []) || endswith parent [posixpath.slash]
     then parent else parent ++ [posixpath.slash], name).
Proof.
  intros Hname. unfold posixpath.join. rewrite startswith_no_slash by done.
  destruct (bool_decide_reflect (parent = [])) as [->|Hne]; cbn [orb].
  - by apply rsplit_unique; [|left].
  - destruct (endswith parent [posixpath.slash]) eqn:Hend.
    + apply rsplit_unique; [done|]. right. by apply endswith_slash.
    + change (parent ++ posixpath.slash :: name)
        with (parent ++ [posixpath.slash] ++ name).
      rewrite app_assoc. apply rsplit_unique; [done|]. right. apply last_snoc.
Qed.

Lemma join_dirname (parent name : str) :
  posixpath.slash ∉ name ->
  last parent <> Some posixpath.slash
  \/ parent = replicate (length parent) posixpath.slash ->
  posixpath.dirname (posixpath.join parent name) = parent.
Proof.
  intros Hname Hparent. unfold posixpath.dirname. rewrite join_rsplit by done.
  cbv zeta. cbn [fst].
  destruct (bool_decide_reflect (parent = [])) as [->|Hne]; cbn [orb]; [reflexivity|].
  destruct (endswith parent [posixpath.slash]) eqn:Hend.
  - apply endswith_slash in Hend. destruct Hparent as [Hp|Hp]; [done|].
    rewrite (bool_decide_eq_false_2 (parent <> replicate _ _)) by (by intros []).
    by rewrite andb_false_r.
  - assert (last parent <> Some posixpath.slash) as Hlast.
    { intros Hl. apply endswith_slash in Hl. congruence. }
    rewrite bool_decide_eq_true_2 by (by destruct parent).
    rewrite bool_decide_eq_true_2.
    + cbn [andb]. rewrite rstrip_snoc_in by (by left).
      apply rstrip_stable. intros c Hc Hin. apply list_elem_of_singleton in Hin.
      by subst.
    + intros Heq. apply Hlast.
      destruct parent as [|x parent] using rev_ind; [done|].
      rewrite last_snoc. f_equal.
      rewrite !length_app in Heq. simpl in Heq.
      assert (x ∈ replicate (length parent + 1 + 1) posixpath.slash) as Hx.
      { rewrite <- Heq. rewrite !elem_of_app. left. right. by left. }
      by apply elem_of_replicate in Hx as [-> _].
Qed.

Section FindDest.
Variables (is_dir : Node -> bool).

(** X19. The destination keeps the base name of the source. It lies in
    the folder of a node that is not a folder; and in the node itself when
    it is a folder whose path does not end in a separator, or is made of
    separators only. *)
Theorem find_dest_keeps_name (src : str) (node : Node) :
  posixpath.basename (CutCopy._find_dest is_dir src node) = posixpath.basename src
  /\ (is_dir node = false ->
      posixpath.dirname (CutCopy._find_dest is_dir src node)
      = posixpath.dirname (path node))
  /\ (is_dir node = true ->
      last (path node) <> Some posixpath.slash
      \/ path node = replicate (length (path node)) posixpath.slash ->
      posixpath.dirname (CutCopy._find_dest is_dir src node) = path node).
Proof.
  unfold CutCopy._find_dest. cbv zeta.
  destruct (rsplit_spec src) as (_ & Hname & _).
  fold (posixpath.basename src) in Hname.
  split; [|split].
  - unfold posixpath.basename at 1. by rewrite join_rsplit.
  - intros ->. apply join_dirname; [exact Hname | apply dirname_stable].
  - intros -> Hpath. by apply join_dirname.
Qed.

End FindDest.

(** ** The dialog of [_operation] *)

Section Dialog.
Context {platform : Platform}.
Variables (is_dir : Node -> bool) (path_exists : str -> bool)
  (display_path : str -> str) (Exn : Type).

#[local] Abbreviation ask := CutCopy.ask.
#[local] Abbreviation find_dest := (CutCopy._find_dest is_dir).
#[local] Abbreviation operation :=
  (CutCopy._operation is_dir path_exists display_path Exn).

Lemma ask_nil (answers : list (str * bool)) (new_operations : pydict str) :
  ask answers [] new_operations = Some ([], new_operations).
Proof. by destruct answers. Qed.

Lemma ask_snoc (a : str * bool) (answers : list (str * bool))
    (rest : pydict str) (source dest : str) (new_operations : pydict str) :
  ask (a :: answers) (rest ++ [(source, dest)]) new_operations
  = match a.1 with
    | [] => Some (rest, new_operations)
    | _ :: _ =>
        if a.2 then ask answers (dict_setitem rest source a.1) new_operations
        else ask answers rest (dict_setitem new_operations source a.1)
    end.
Proof. destruct a as [resp ex]. cbn [CutCopy.ask]. by rewrite dict_popitem_snoc. Qed.

Lemma ask_waiting (rest : pydict str) (kv : str * str) (new_operations : pydict str) :
  ask [] (rest ++ [kv]) new_operations = None.
Proof. destruct kv. cbn [CutCopy.ask]. by rewrite dict_popitem_snoc. Qed.

(** When no answer is empty and the loop ends: no conflict is left, the
    entries of [new_operations] for other sources are as they were, and
    every source that had a conflict has an answer that did not exist. *)
Lemma ask_answered (answers : list (str * bool)) (pre_existing new_operations : pydict str)
    (left_over result : pydict str) :
  NoDup pre_existing.*1 -> NoDup new_operations.*1 ->
  (forall a, a ∈ answers -> a.1 <> []) ->
  ask answers pre_existing new_operations = Some (left_over, result) ->
  left_over = [] /\ NoDup result.*1
  /\ (forall s, s ∉ pre_existing.*1 -> dict_get result s = dict_get new_operations s)
  /\ (forall s, s ∈ pre_existing.*1 ->
        exists d, dict_get result s = Some d /\ (d, false) ∈ answers).
Proof.
  revert pre_existing new_operations.
  induction answers as [|[resp ex] answers IH]; intros pe no Hpe Hno Hans Hask.
  - destruct pe as [|kv pe _] using rev_ind.
    + rewrite ask_nil in Hask. injection Hask as <- <-.
      split; [reflexivity|]. split; [exact Hno|]. split; [done|].
      by intros s ?%elem_of_nil.
    + by rewrite ask_waiting in Hask.
  - destruct pe as [|[s0 d0] rest _] using rev_ind.
    + rewrite ask_nil in Hask. injection Hask as <- <-.
      split; [reflexivity|]. split; [exact Hno|]. split; [done|].
      by intros s ?%elem_of_nil.
    + rewrite ask_snoc in Hask. cbn [fst snd] in Hask.
      rewrite fmap_app in Hpe. apply NoDup_app in Hpe.
      destruct Hpe as (Hrest & Hdisj & _).
      assert (s0 ∉ rest.*1) as Hs0.
      { intros Hin. apply (Hdisj _ Hin). by left. }
      destruct resp as [|c resp]; [by destruct (Hans ([], ex)); [left|]|].
      assert (forall a, a ∈ answers -> a.1 <> []) as Hans'
        by (intros a Ha; apply Hans; by right).
      destruct ex.
      * rewrite dict_setitem_fresh in Hask by exact Hs0.
        apply IH in Hask; [| |exact Hno|exact Hans'].
        -- destruct Hask as (Hleft & Hnd & Hother & Hconf).
           rewrite fmap_app in Hother, Hconf. cbn [fmap list_fmap fst] in Hother, Hconf.
           split; [exact Hleft|]. split; [exact Hnd|]. rewrite fmap_app.
           split; [exact Hother|]. intros s Hs. destruct (Hconf s Hs) as (d & Hd & Hin).
           exists d. split; [exact Hd | by right].
        -- rewrite fmap_app. apply NoDup_app. split; [exact Hrest|]. split.
           ++ intros x Hx Hin. apply list_elem_of_singleton in Hin. by subst.
           ++ apply NoDup_singleton.
      * apply IH in Hask; [|exact Hrest|by apply dict_setitem_NoDup|exact Hans'].
        destruct Hask as (Hleft & Hnd & Hother & Hconf).
        split; [exact Hleft|]. split; [exact Hnd|]. rewrite fmap_app. split.
        -- intros s Hs. rewrite not_elem_of_app in Hs. destruct Hs as [Hs Hs'].
           rewrite Hother, dict_get_setitem by exact Hs.
           rewrite decide_False; [reflexivity|]. intros <-. apply Hs'. by left.
        -- intros s Hs. apply elem_of_app in Hs. destruct Hs as [Hs|Hs].
           ++ destruct (Hconf s Hs) as (d & Hd & Hin). exists d.
              split; [exact Hd | by right].
           ++ apply list_elem_of_singleton in Hs. cbn [fst] in Hs. subst s.
              exists (c :: resp). split; [|by left].
              rewrite Hother, dict_get_setitem by exact Hs0. by rewrite decide_True.
Qed.

(** While every answer names a path that exists, the loop goes on. *)
Lemma ask_existing (answers : list (str * bool)) (pre_existing new_operations : pydict str) :
  pre_existing <> [] ->
  (forall a, a ∈ answers -> a.1 <> [] /\ a.2 = true) ->
  ask answers pre_existing new_operations = None.
Proof.
  revert pre_existing. induction answers as [|[resp ex] answers IH];
    intros pe Hne Hans; (destruct pe as [|[s0 d0] rest _] using rev_ind; [done|]).
  - apply ask_waiting.
  - rewrite ask_snoc. cbn [fst snd].
    destruct (Hans (resp, ex)) as [Hresp Hex]; [by left|]. cbn [fst snd] in *.
    subst ex. destruct resp as [|c resp]; [done|].
    apply IH.
    + by destruct rest as [|[k v] rest]; simpl; [|destruct (decide (k = s0))].
    + intros a Ha. apply Hans. by right.
Qed.

(** With an answer that does not exist for every conflict, the loop ends. *)
Lemma ask_fresh (answers : list (str * bool)) (pre_existing new_operations : pydict str) :
  (length pre_existing <= length answers)%nat ->
  (forall a, a ∈ answers -> a.1 <> [] /\ a.2 = false) ->
  exists result, ask answers pre_existing new_operations = Some ([], result).
Proof.
  revert pre_existing new_operations.
  induction answers as [|[resp ex] answers IH]; intros pe no Hlen Hans;
    (destruct pe as [|[s0 d0] rest _] using rev_ind; [rewrite ask_nil; eauto|]).
  - rewrite length_app in Hlen. simpl in Hlen. lia.
  - rewrite ask_snoc. cbn [fst snd].
    destruct (Hans (resp, ex)) as [Hresp Hex]; [by left|]. cbn [fst snd] in *.
    subst ex. destruct resp as [|c resp]; [done|].
    apply IH.
    + rewrite length_app in Hlen. simpl in Hlen. lia.
    + intros a Ha. apply Hans. by right.
Qed.


(** [pre_operations] and the conflicts among them. *)
Lemma pre_operations_spec (node : Node) (unified : list str) :
  let pre_operations :=
    dict_of (List.map (fun src => (src, find_dest src node)) unified) in
  NoDup pre_operations.*1
  /\ (forall s, s ∈ pre_operations.*1 <-> s ∈ unified)
  /\ (forall s d, dict_get pre_operations s = Some d -> d = find_dest s node).
Proof.
  cbv zeta. split; [|split].
  - apply foldl_setitem_keys_NoDup. constructor.
  - intros s. unfold dict_of. rewrite foldl_setitem_keys_sub, fmap_nil, elem_of_nil.
    rewrite <- list_fmap_compose.
    assert (fst ∘ (fun src => (src, find_dest src node)) = id) as -> by done.
    rewrite list_fmap_id. tauto.
  - intros s d. rewrite dict_of_get. intros Hl.
    apply dict_get_reverse in Hl. destruct Hl as (i & Hi & _).
    apply list_elem_of_lookup_2, list_elem_of_In, in_map_iff in Hi.
    by destruct Hi as (src & [= -> ->] & _).
Qed.

(** [_operation] once something is selected and a node is under the cursor. *)
Lemma operation_eq (node : Node) (unified : list str) (state_index : gset str)
    (op_name : str) (answers : list (str * bool)) (confirm : Z)
    (action : pydict str -> option Exn) :
  unified <> [] ->
  let pre_operations :=
    dict_of (List.map (fun src => (src, find_dest src node)) unified) in
  operation (Some node) unified state_index op_name answers confirm action
  = match ask answers (List.filter (fun sd => path_exists sd.2) pre_operations) [] with
    | None => CutCopy.awaiting_answer Exn
    | Some ((_ :: _) as pre_existing, _) =>
        CutCopy.already_exist Exn
          ([0x26A0%N; 0xFE0F%N] ++ lit "  -- " ++ op_name
           ++ lit ": path(s) already exist! :: "
           ++ str_join (lit ", ") (CutCopy.arrows display_path pre_existing))
    | Some ([], new_operations) =>
        let operations := dict_merge pre_operations new_operations in
        let question :=
          op_name ++ linesep
          ++ str_join linesep (CutCopy.arrows display_path operations) ++ lit "?" in
        if confirm =? 1 then
          match action operations with
          | Some e => CutCopy.action_failed Exn question operations e
          | None =>
              let paths : gset str :=
                list_to_set (List.map posixpath.dirname
                               (operations.*1 ++ operations.*2)) in
              CutCopy.staged Exn question operations paths (state_index ∪ paths)
          end
        else CutCopy.declined Exn question
    end.
Proof.
  intros Hne. cbv zeta. unfold CutCopy._operation.
  destruct unified as [|u us]; [done|].
  rewrite (dict_of_NoDup (List.filter _ _)); [reflexivity|].
  apply filter_keys_NoDup. apply foldl_setitem_keys_NoDup. constructor.
Qed.

(** Whatever the answers are, the loop leaves in [new_operations] what
    was there and sources that had a conflict, each once. *)
Lemma ask_keys (answers : list (str * bool)) (pre_existing new_operations : pydict str)
    (left_over result : pydict str) :
  NoDup new_operations.*1 ->
  ask answers pre_existing new_operations = Some (left_over, result) ->
  NoDup result.*1
  /\ forall s, s ∈ result.*1 -> s ∈ new_operations.*1 \/ s ∈ pre_existing.*1.
Proof.
  revert pre_existing new_operations.
  induction answers as [|[resp ex] answers IH]; intros pe no Hno Hask;
    (destruct pe as [|[s0 d0] rest _] using rev_ind;
     [rewrite ask_nil in Hask; injection Hask as <- <-; split; [exact Hno | by left]|]).
  - by rewrite ask_waiting in Hask.
  - rewrite ask_snoc in Hask. cbn [fst snd] in Hask.
    destruct resp as [|ch resp];
      [injection Hask as <- <-; split; [exact Hno | by left]|].
    rewrite fmap_app. destruct ex.
    + apply IH in Hask; [|exact Hno]. destruct Hask as [Hnd Hsub].
      split; [exact Hnd|]. intros s Hs. destruct (Hsub s Hs) as [H|H]; [by left|].
      right. rewrite dict_setitem_keys in H. rewrite elem_of_app.
      destruct (decide (s0 ∈ rest.*1)); [by left|].
      apply elem_of_app in H. destruct H as [H|H]; [by left | by right].
    + apply IH in Hask; [|by apply dict_setitem_NoDup]. destruct Hask as [Hnd Hsub].
      split; [exact Hnd|]. intros s Hs. rewrite elem_of_app.
      destruct (Hsub s Hs) as [H|H]; [|by right; left].
      rewrite dict_setitem_keys in H.
      destruct (decide (s0 ∈ no.*1)); [by left|].
      apply elem_of_app in H. destruct H as [H|H]; [by left | by right; right].
Qed.

(** X20. The action is called only after the confirmation was answered
    with 1, and the operations it is called with hold exactly the selected
    sources, each once. When no answer of the dialog was empty, every
    destination is the default one, which did not exist when the call
    started, or an answer that did not exist when it was given. *)
Theorem operations_checked (node : option Node) (unified : list str)
    (state_index : gset str) (op_name : str) (answers : list (str * bool))
    (confirm : Z) (action : pydict str -> option Exn) (operations : pydict str) :
  acted_on (operation node unified state_index op_name answers confirm action)
  = Some operations ->
  confirm = 1
  /\ NoDup operations.*1
  /\ (forall s, s ∈ operations.*1 <-> s ∈ unified)
  /\ exists n, node = Some n
       /\ ((forall a, a ∈ answers -> a.1 <> []) ->
           forall s d, dict_get operations s = Some d ->
             (d = find_dest s n /\ path_exists d = false) \/ (d, false) ∈ answers).
Proof.
  intros Hacted.
  destruct node as [n|]; [|by destruct unified].
  destruct (decide (unified = [])) as [->|Hne]; [discriminate|].
  rewrite operation_eq in Hacted by exact Hne. cbv zeta in Hacted.
  destruct (pre_operations_spec n unified) as (Hnd & Hkeys & Hdest).
  cbv zeta in Hnd, Hkeys, Hdest.
  set (pre_operations :=
         dict_of (List.map (fun src => (src, find_dest src n)) unified)) in *.
  set (conflicts := List.filter (fun sd : str * str => path_exists sd.2) pre_operations)
    in *.
  assert (NoDup conflicts.*1) as Hcnd by (by apply filter_keys_NoDup).
  destruct (ask answers conflicts []) as [[left_over new_operations]|] eqn:Hask;
    [|discriminate].
  destruct left_over as [|kv left_over]; [|discriminate].
  destruct (ask_keys _ _ _ _ _ (NoDup_nil_2 : NoDup ([] : pydict str).*1) Hask)
    as [Hnew Hsub0].
  assert (forall s, s ∈ new_operations.*1 -> s ∈ conflicts.*1) as Hsub.
  { intros s Hs. destruct (Hsub0 s Hs) as [H|H]; [by apply elem_of_nil in H | exact H]. }
  assert (forall s, s ∈ conflicts.*1 -> s ∈ pre_operations.*1) as Hsub'.
  { intros s Hs. eapply elem_of_sublist; [exact Hs|].
    apply fmap_sublist, filter_sublist. }
  assert (operations = dict_merge pre_operations new_operations /\ confirm = 1)
    as [-> Hconfirm].
  { destruct (Z.eqb_spec confirm 1) as [->|?]; [|discriminate].
    destruct (action _); by injection Hacted as <-. }
  split; [exact Hconfirm|]. split; [|split].
  - by apply foldl_setitem_keys_NoDup.
  - intros s. unfold dict_merge. rewrite foldl_setitem_keys_sub, <- Hkeys.
    split; [intros [?|?]; auto | by left].
  - exists n. split; [reflexivity|]. intros Hans s d.
    destruct (ask_answered _ _ _ _ _ Hcnd (NoDup_nil_2 : NoDup ([] : pydict str).*1)
                Hans Hask) as (_ & _ & Hother & Hconf).
    rewrite dict_merge_get by exact Hnew.
    destruct (dict_get new_operations s) as [d'|] eqn:Hd'.
    + intros [= ->]. right.
      assert (s ∈ conflicts.*1) as Hs.
      { apply Hsub. destruct (decide (s ∈ new_operations.*1)) as [?|Hn]; [done|].
        apply dict_get_None in Hn. congruence. }
      destruct (Hconf s Hs) as (d0 & Hd0 & Hin). congruence.
    + intros Hd. left. split; [by apply Hdest|].
      destruct (path_exists d) eqn:Hex; [|reflexivity].
      assert (s ∈ conflicts.*1) as Hs.
      { apply list_elem_of_fmap. exists (s, d). split; [reflexivity|].
        apply list_elem_of_In, filter_In. split; [|exact Hex].
        apply list_elem_of_In. by apply dict_get_Some_NoDup. }
      destruct (Hconf s Hs) as (d0 & Hd0 & _). congruence.
Qed.

(** X21. The conflict that is asked about is taken out of [pre_existing]
    before the answer is read. When the answer is empty and other
    conflicts are left, the error names those only; when it was the only
    one, no error is reported and the confirmation goes on with the
    destination that exists. *)
Theorem cancelled_conflict_is_forgotten (node : Node) (unified : list str)
    (state_index : gset str) (op_name : str) (more : list (str * bool)) (b : bool)
    (confirm : Z) (action : pydict str -> option Exn)
    (rest : pydict str) (source dest : str) :
  unified <> [] ->
  let pre_operations :=
    dict_of (List.map (fun src => (src, find_dest src node)) unified) in
  let result :=
    operation (Some node) unified state_index op_name (([], b) :: more)
      confirm action in
  List.filter (fun sd => path_exists sd.2) pre_operations = rest ++ [(source, dest)] ->
  dict_get pre_operations source = Some dest /\ path_exists dest = true
  /\ (rest <> [] ->
      result
      = CutCopy.already_exist Exn
          ([0x26A0%N; 0xFE0F%N] ++ lit "  -- " ++ op_name
           ++ lit ": path(s) already exist! :: "
           ++ str_join (lit ", ") (CutCopy.arrows display_path rest)))
  /\ (rest = [] ->
      acted_on result
      = if confirm =? 1 then Some pre_operations else None).
Proof.
  intros Hne. cbv zeta. intros Hconflicts.
  rewrite operation_eq by exact Hne. cbv zeta. rewrite Hconflicts, ask_snoc.
  cbn [fst snd].
  destruct (pre_operations_spec node unified) as (Hnd & _ & _). cbv zeta in Hnd.
  assert ((source, dest)
          ∈ List.filter (fun sd : str * str => path_exists sd.2)
              (dict_of (List.map (fun src => (src, find_dest src node)) unified)))
    as Hin.
  { rewrite Hconflicts, elem_of_app. right. by left. }
  apply list_elem_of_In, filter_In in Hin. destruct Hin as [Hin Hex].
  apply list_elem_of_In in Hin. cbn [snd] in Hex.
  split; [by apply dict_get_Some_NoDup|]. split; [exact Hex|]. split.
  - intros Hrest. by destruct rest.
  - intros ->. unfold dict_merge. cbn [foldl].
    destruct (confirm =? 1); [|reflexivity]. by destruct (action _).
Qed.

(** X22. While every answer names a path that exists, the dialog keeps
    asking; with an answer that does not exist for every conflict it ends,
    with no conflict left, and the confirmation decides. *)
Theorem dialog_termination (node : Node) (unified : list str)
    (state_index : gset str) (op_name : str) (answers : list (str * bool))
    (confirm : Z) (action : pydict str -> option Exn) :
  unified <> [] ->
  let conflicts :=
    List.filter (fun sd => path_exists sd.2)
      (dict_of (List.map (fun src => (src, find_dest src node)) unified)) in
  let result :=
    operation (Some node) unified state_index op_name answers confirm action in
  (conflicts <> [] -> (forall a, a ∈ answers -> a.1 <> [] /\ a.2 = true) ->
   result = CutCopy.awaiting_answer Exn)
  /\ ((length conflicts <= length answers)%nat ->
      (forall a, a ∈ answers -> a.1 <> [] /\ a.2 = false) ->
      (confirm = 1 -> is_Some (acted_on result))
      /\ (confirm <> 1 -> exists question, result = CutCopy.declined Exn question)).
Proof.
  intros Hne. cbv zeta. rewrite operation_eq by exact Hne. cbv zeta. split.
  - intros Hconf Hans. by rewrite ask_existing.
  - intros Hlen Hans.
    destruct (ask_fresh answers _ [] Hlen Hans) as (new_operations & ->).
    split.
    + intros ->. cbn [Z.eqb Pos.eqb]. destruct (action _); simpl; eauto.
    + intros Hc. destruct (Z.eqb_spec confirm 1) as [?|_]; [done|]. eauto.
Qed.

End Dialog.

(** * The statements at work

    The theorems above, applied to the small trees of [Ex] on the POSIX
    platform, and the inputs on which the claims fail as they are worded. *)

#[local] Existing Instances posix mode_values.

Import Ex.

(** Membership in a list that computes to explicit elements. *)
Ltac elem_by_compute :=
  apply list_elem_of_In; vm_compute; repeat (first [left; reflexivity | right]).


(** Folder first, then by name: [/r/A] is taken before [/r/b.txt]. *)
Lemma preorder_and_sibling_order_witness :
  exists dv (out : list (Node * Render)) rend blocks,
    render settings0 ∅ ∅ None counter0 vc0 true None root = inr dv
    /\ lookup dv = out.*1
    /\ (out = (root, rend) :: concat blocks \/ (out = [] /\ concat blocks = []))
    /\ ~ ranks_before [is_folder; fname] b_txt dir_A.
Proof.
  destruct (render settings0 ∅ ∅ None counter0 vc0 true None root)
    as [e|dv] eqn:Hdv; [vm_compute in Hdv; discriminate|].
  destruct (preorder_and_sibling_order settings0 ∅ ∅ None counter0 vc0 true None
              root dv [] root 0 false Hdv (call_root _ _ _ _ _))
    as (out & before & after & rend & blocks & _ & Hl & Hzero & _ & Hshape & _ & _
        & Horder & _).
  destruct (Hzero eq_refl) as [-> ->]. rewrite app_nil_l, app_nil_r in Hl.
  exists dv, out, rend, blocks. split; [reflexivity|]. split; [exact Hl|].
  split; [exact Hshape|].
  apply (Horder [] dir_A [] b_txt []). reflexivity.
Defined.

(** The filter [*.txt] matches neither [/r] nor [/r/A]; the root is in
    the index all the same. *)
Lemma root_always_visible_witness :
  exists d,
    render settings0 ∅ ∅ (Some txt_only) counter0 vc0 true None root = inr d
    /\ is_Some (paths_lookup d !! path root)
    /\ lookup d !! 0%nat = Some root.
Proof.
  destruct (render settings0 ∅ ∅ (Some txt_only) counter0 vc0 true None root)
    as [e|d] eqn:Hd; [vm_compute in Hd; discriminate|].
  exists d. split; [reflexivity|].
  apply (root_always_visible settings0 ∅ ∅ (Some txt_only) counter0 vc0 true None
           root). exact Hd.
Defined.



(** A two-byte name under a four-byte icon: the spans are (2, 8) and
    (8, 14). *)
Lemma byte_offsets_witness :
  exists r,
    show settings_hl ∅ ∅ counter0 vc0 None e_txt 0 = inr r
    /\ Forall (fun h =>
         char_boundary (line r) (begin h) /\ char_boundary (line r) (end_ h)
         /\ (0 <= begin h <= end_ h)%nat /\ within_encoded (line r) (end_ h))
         (render_highlights r)
    /\ render_highlights r
       = [ {| group := lit "Txt"; begin := 2; end_ := 8 |};
           {| group := lit "Normal"; begin := 8; end_ := 14 |} ].
Proof.
  destruct (show settings_hl ∅ ∅ counter0 vc0 None e_txt 0) as [e|r] eqn:Hr;
    [vm_compute in Hr; discriminate|].
  exists r. split; [reflexivity|]. split.
  - apply (byte_offsets settings_hl ∅ ∅ counter0 vc0 None e_txt 0 r Hr).
  - vm_compute in Hr. injection Hr as <-. reflexivity.
Defined.

(** The two entries of the small tree under [*.txt]. *)
Lemma lookup_round_trip_witness :
  exists d,
    render settings0 ∅ ∅ (Some txt_only) counter0 vc0 true None root = inr d
    /\ lookup d !! 1%nat = Some b_txt
    /\ paths_lookup d !! path b_txt = Some 1%nat.
Proof.
  destruct (render settings0 ∅ ∅ (Some txt_only) counter0 vc0 true None root)
    as [e|d] eqn:Hd; [vm_compute in Hd; discriminate|].
  exists d. split; [reflexivity|].
  assert (lookup d !! 1%nat = Some b_txt) as Hi.
  { pose proof Hd as Hd'. vm_compute in Hd'. injection Hd' as <-. reflexivity. }
  split; [exact Hi|].
  apply (lookup_round_trip settings0 ∅ ∅ (Some txt_only) counter0 vc0 true None
           root d 1 b_txt).
  - refine (bool_decide_unpack _ _). vm_compute. exact I.
  - exact Hd.
  - exact Hi.
Defined.

(** Three quickfix locations and status "M": "(3)" and then "[M]". *)
Lemma badges_rule_witness :
  exists r,
    show settings0 ∅ ∅ qf3 vc_M None b_txt 1 = inr r
    /\ badges r
       = [ {| text := lit "(3)"; badge_group := lit "QF" |};
           {| text := lit "[M]"; badge_group := lit "VC" |} ].
Proof.
  destruct (show settings0 ∅ ∅ qf3 vc_M None b_txt 1) as [e|r] eqn:Hr;
    [vm_compute in Hr; discriminate|].
  exists r. split; [reflexivity|].
  destruct (badges_rule settings0 ∅ ∅ qf3 vc_M None b_txt 1 r Hr)
    as (count & Hcount & ->).
  vm_compute in Hcount. injection Hcount as <-. reflexivity.
Defined.

(** The path has a status, the empty string, and there is no badge. *)
Lemma vc_badge_counterexample :
  status vc_blank !! path b_txt = Some []
  /\ exists r,
       show settings0 ∅ ∅ counter0 vc_blank None b_txt 1 = inr r
       /\ badges r = []
       /\ ~ vc_badge_as_specified settings0 vc_blank b_txt r.
Proof.
  split; [reflexivity|].
  destruct (show settings0 ∅ ∅ counter0 vc_blank None b_txt 1) as [e|r] eqn:Hr;
    [vm_compute in Hr; discriminate|].
  assert (badges r = []) as Hbs.
  { pose proof Hr as Hr'. vm_compute in Hr'. injection Hr' as <-. reflexivity. }
  exists r. split; [reflexivity|]. split; [exact Hbs|]. intros Hspec.
  destruct (Hspec []) as [_ Hbadge].
  assert (vc_badge settings0 [] ∈ badges r) as Hin by (apply Hbadge; reflexivity).
  rewrite Hbs in Hin. by apply elem_of_nil in Hin.
Qed.

(** A lone surrogate in a name, and a fallback group: the render ends
    with the encoding error. *)
Lemma unencodable_name_witness :
  exists e, render settings_hl ∅ ∅ None counter0 vc0 true None root_bad = inl e.
Proof.
  assert (call settings_hl None vc0 true root_bad
            [(root_bad, is_clear None false root_bad)] bad 1
            (is_clear None false root_bad)) as Hcall.
  { apply call_child; [apply call_root|]. elem_by_compute. }
  destruct (unencodable_name settings_hl ∅ ∅ None counter0 vc0 true None
              root_bad _ bad 1 _ 0xDC80%N Hcall) as [Hraise _].
  - by left.
  - reflexivity.
  - discriminate.
  - destruct (Hraise grp_normal) as (_ & Habort & _); [reflexivity|].
    exact Habort.
Defined.

(** One node with such a name, and the whole render is lost. *)
Lemma encoding_errors_counterexample :
  render settings_hl ∅ ∅ None counter0 vc0 true None root_bad
  = inl (UnicodeEncodeError [0xDC80%N])
  /\ ~ encoding_errors_non_fatal settings_hl ∅ ∅ None counter0 vc0 true None
        root_bad.
Proof.
  split; [reflexivity|]. intros Hspec.
  apply (Hspec (UnicodeEncodeError [0xDC80%N])) with (s := [0xDC80%N]);
    reflexivity.
Qed.

(** A plain [dict] without an entry for [/r]: painting the root raises
    the lookup error and the render ends. *)
Lemma quickfix_subscript_witness :
  show settings0 ∅ ∅ dict0 vc0 None root 0 = inl (KeyError (path root))
  /\ exists e, render settings0 ∅ ∅ None dict0 vc0 true None root = inl e.
Proof.
  destruct (quickfix_subscript settings0 ∅ ∅ None dict0 vc0 true None root)
    as (_ & Hraise & _).
  apply (Hraise [] root 0%nat false); [apply call_root | reflexivity..].
Defined.

(** ** More statements at work *)

Lemma rendered_aligned_witness :
  exists dv r d,
    render settings0 ∅ ∅ None counter0 vc0 true None root = inr dv
    /\ length (rendered dv) = length (lookup dv)
    /\ lookup dv !! 2%nat = Some b_txt
    /\ rendered dv !! 2%nat = Some r
    /\ show settings0 ∅ ∅ counter0 vc0 None b_txt d = inr r.
Proof.
  destruct (render settings0 ∅ ∅ None counter0 vc0 true None root)
    as [e|dv] eqn:Hdv; [vm_compute in Hdv; discriminate|].
  assert (lookup dv !! 2%nat = Some b_txt) as Hi.
  { pose proof Hdv as Hdv'. vm_compute in Hdv'. injection Hdv' as <-. reflexivity. }
  destruct (rendered_aligned settings0 ∅ ∅ None counter0 vc0 true None root dv Hdv)
    as [Hlen Hall].
  destruct (Hall 2%nat b_txt Hi) as (r & ancs & d & c & Hr & _ & _ & _ & Hp).
  exists dv, r, d. by repeat split.
Defined.

Lemma paths_lookup_last_witness :
  exists dv,
    render settings0 ∅ ∅ (Some txt_only) counter0 vc0 true None root_dup = inr dv
    /\ lookup dv = [root_dup; dup]
    /\ paths_lookup dv !! lit "/r" = Some 1%nat.
Proof.
  destruct (render settings0 ∅ ∅ (Some txt_only) counter0 vc0 true None root_dup)
    as [e|dv] eqn:Hdv; [vm_compute in Hdv; discriminate|].
  assert (lookup dv = [root_dup; dup]) as Hl.
  { pose proof Hdv as Hdv'. vm_compute in Hdv'. injection Hdv' as <-. reflexivity. }
  exists dv. split; [reflexivity|]. split; [exact Hl|].
  apply (paths_lookup_last settings0 ∅ ∅ (Some txt_only) counter0 vc0 true None
           root_dup dv (lit "/r") 1 Hdv).
  rewrite Hl. split.
  - exists dup. by split.
  - intros j n' Hj _. apply lookup_lt_Some in Hj. simpl in Hj. lia.
Defined.

Lemma ancestors_shown_witness :
  exists dv (out : list (Node * Render)) before after,
    render settings0 ∅ ∅ (Some txt_only) counter0 vc0 true None root = inr dv
    /\ lookup dv = before ++ out.*1 ++ after
    /\ out <> []
    /\ root ∈ before.
Proof.
  destruct (render settings0 ∅ ∅ (Some txt_only) counter0 vc0 true None root)
    as [e|dv] eqn:Hdv; [vm_compute in Hdv; discriminate|].
  assert (call settings0 (Some txt_only) vc0 true root
            [(root, is_clear (Some txt_only) false root)] b_txt 1
            (is_clear (Some txt_only) false root)) as Hcall.
  { apply call_child; [apply call_root|]. elem_by_compute. }
  destruct (ancestors_shown settings0 ∅ ∅ (Some txt_only) counter0 vc0 true None
              root dv _ b_txt 1 _ Hdv Hcall)
    as (out & before & after & Hout & Hl & Hanc).
  assert (out <> []) as Hne.
  { intros ->. vm_compute in Hout. discriminate. }
  exists dv, out, before, after. split; [reflexivity|]. split; [exact Hl|].
  split; [exact Hne|].
  apply (Hanc Hne (root, is_clear (Some txt_only) false root)). by left.
Defined.

Lemma indentation_witness :
  exists dv r (ancs : list (Node * bool)) (rest : str),
    render settings0 ∅ ∅ None counter0 vc0 true None root = inr dv
    /\ lookup dv !! 2%nat = Some b_txt
    /\ rendered dv !! 2%nat = Some r
    /\ line r = replicate (2 * length ancs - 1) 32%N ++ lit "  " ++ 32%N :: rest.
Proof.
  destruct (render settings0 ∅ ∅ None counter0 vc0 true None root)
    as [e|dv] eqn:Hdv; [vm_compute in Hdv; discriminate|].
  assert (lookup dv !! 2%nat = Some b_txt
          /\ exists r, rendered dv !! 2%nat = Some r) as [Hi (r & Hr)].
  { pose proof Hdv as Hdv'. vm_compute in Hdv'. injection Hdv' as <-.
    split; [reflexivity | eexists; reflexivity]. }
  destruct (indentation settings0 ∅ ∅ None counter0 vc0 true None root dv 2 b_txt r
              Hdv Hi Hr) as (ancs & d & c & rest & Hcall & Hd & Hline).
  exists dv, r, ancs, rest. split; [reflexivity|]. split; [exact Hi|].
  split; [exact Hr | exact Hline].
Defined.

Lemma unfiltered_shows_all_witness :
  exists dv,
    render settings0 ∅ ∅ None counter0 vc0 true None root = inr dv
    /\ b_txt ∈ lookup dv
    /\ lookup dv ≡ₚ (descendants root 0).*1.
Proof.
  destruct (render settings0 ∅ ∅ None counter0 vc0 true None root)
    as [e|dv] eqn:Hdv; [vm_compute in Hdv; discriminate|].
  destruct (unfiltered_shows_all settings0 ∅ ∅ None counter0 vc0 true None root dv
              eq_refl Hdv) as [Hall Hperm].
  exists dv. split; [reflexivity|]. split; [|by apply Hperm].
  apply (Hall [(root, is_clear None false root)] b_txt 1%nat (is_clear None false root)).
  apply call_child; [apply call_root|]. elem_by_compute.
Defined.

Lemma listing_order_without_sort_keys_witness :
  exists dv,
    render settings_unsorted ∅ ∅ None counter0 vc0 true None root3 = inr dv
    /\ lookup dv = [root3; b_txt; dir_B; dir_A].
Proof.
  destruct (render settings_unsorted ∅ ∅ None counter0 vc0 true None root3)
    as [e|dv] eqn:Hdv; [vm_compute in Hdv; discriminate|].
  exists dv. split; [reflexivity|].
  destruct (listing_order_without_sort_keys settings_unsorted ∅ ∅ None counter0 vc0
              true None root3 dv eq_refl) as [_ Hl].
  rewrite (Hl eq_refl eq_refl Hdv). reflexivity.
Defined.

Lemma nothing_matches_witness :
  exists dv,
    render settings0 ∅ ∅ (Some md_only) counter0 vc0 true None root3 = inr dv
    /\ lookup dv = [root3]
    /\ paths_lookup dv = {[ path root3 := 0%nat ]}.
Proof.
  destruct (render settings0 ∅ ∅ (Some md_only) counter0 vc0 true None root3)
    as [e|dv] eqn:Hdv; [vm_compute in Hdv; discriminate|].
  exists dv. split; [reflexivity|].
  apply (nothing_matches settings0 ∅ ∅ (Some md_only) counter0 vc0 true None
           root3 dv md_only eq_refl).
  - intros n d Hin. apply list_elem_of_In in Hin. vm_compute in Hin.
    destruct Hin as [[= <- <-]|[[= <- <-]|[[= <- <-]|[[= <- <-]|[]]]]]; reflexivity.
  - refine (bool_decide_unpack _ _). vm_compute. exact I.
  - exact Hdv.
Defined.

Lemma folders_first_witness :
  kids_of settings0 vc0 true root3 = [dir_A; dir_B; b_txt]
  /\ Mode_folder ∈ mode dir_A.
Proof.
  assert (kids_of settings0 vc0 true root3 = [] ++ dir_A :: [] ++ dir_B :: [b_txt])
    as Hkids by (vm_compute; reflexivity).
  split; [exact Hkids|].
  apply (folders_first settings0 vc0 true root3 [fname] [] dir_A [] dir_B [b_txt]
           eq_refl Hkids).
  vm_compute. reflexivity.
Defined.

Lemma filter_only_hides_witness :
  exists d1 d2,
    render settings0 ∅ ∅ (Some txt_only) counter0 vc0 true None root3 = inr d1
    /\ render settings0 ∅ ∅ None counter0 vc0 true None root3 = inr d2
    /\ lookup d1 = [root3; b_txt]
    /\ lookup d2 = [root3; dir_A; dir_B; b_txt]
    /\ lookup d1 `sublist_of` lookup d2.
Proof.
  destruct (render settings0 ∅ ∅ (Some txt_only) counter0 vc0 true None root3)
    as [e|d1] eqn:H1; [vm_compute in H1; discriminate|].
  destruct (render settings0 ∅ ∅ None counter0 vc0 true None root3)
    as [e|d2] eqn:H2; [vm_compute in H2; discriminate|].
  exists d1, d2. split; [reflexivity|]. split; [reflexivity|].
  split; [pose proof H1 as H; vm_compute in H; injection H as <-; reflexivity|].
  split; [pose proof H2 as H; vm_compute in H; injection H as <-; reflexivity|].
  apply (filter_only_hides settings0 ∅ ∅ counter0 vc0 None (Some txt_only) true
           root3 d1 d2 H1 H2).
Defined.

Lemma hidden_only_hides_witness :
  exists d1 d2,
    render settings0 ∅ ∅ None counter0 vc_A_ignored false None root3 = inr d1
    /\ render settings0 ∅ ∅ None counter0 vc_A_ignored true None root3 = inr d2
    /\ lookup d1 = [root3; dir_B; b_txt]
    /\ lookup d2 = [root3; dir_A; dir_B; b_txt]
    /\ lookup d1 `sublist_of` lookup d2.
Proof.
  destruct (render settings0 ∅ ∅ None counter0 vc_A_ignored false None root3)
    as [e|d1] eqn:H1; [vm_compute in H1; discriminate|].
  destruct (render settings0 ∅ ∅ None counter0 vc_A_ignored true None root3)
    as [e|d2] eqn:H2; [vm_compute in H2; discriminate|].
  exists d1, d2. split; [reflexivity|]. split; [reflexivity|].
  split; [pose proof H1 as H; vm_compute in H; injection H as <-; reflexivity|].
  split; [pose proof H2 as H; vm_compute in H; injection H as <-; reflexivity|].
  apply (hidden_only_hides settings0 ∅ ∅ counter0 vc_A_ignored None None
           root3 d1 d2 H1 H2).
Defined.

Lemma lookup_independent_of_painting_witness :
  exists d1 d2,
    render settings0 ∅ ∅ None counter0 vc0 true None root3 = inr d1
    /\ render settings_ascii {[ lit "/r/A" ]} {[ lit "/r/b.txt" ]} None qf3 vc_M true
         (Some (lit "/r/B")) root3 = inr d2
    /\ rendered d1 <> rendered d2
    /\ lookup d1 = lookup d2 /\ paths_lookup d1 = paths_lookup d2.
Proof.
  destruct (render settings0 ∅ ∅ None counter0 vc0 true None root3)
    as [e|d1] eqn:H1; [vm_compute in H1; discriminate|].
  destruct (render settings_ascii {[ lit "/r/A" ]} {[ lit "/r/b.txt" ]} None qf3 vc_M
              true (Some (lit "/r/B")) root3)
    as [e|d2] eqn:H2; [vm_compute in H2; discriminate|].
  exists d1, d2. split; [reflexivity|]. split; [reflexivity|]. split.
  - pose proof H1 as H. vm_compute in H. injection H as <-.
    pose proof H2 as H. vm_compute in H. injection H as <-.
    vm_compute. discriminate.
  - apply (lookup_independent_of_painting settings0 settings_ascii ∅ {[ lit "/r/A" ]}
             ∅ {[ lit "/r/b.txt" ]} None counter0 qf3 vc0 vc_M true None
             (Some (lit "/r/B")) eq_refl eq_refl eq_refl root3 d1 d2 H1 H2).
Defined.

Lemma ascii_offsets_witness :
  exists r,
    show settings_ascii ∅ ∅ counter0 vc0 None b_txt 1 = inr r
    /\ line r = lit "    f b.txt"
    /\ render_highlights r
       = [ {| group := lit "Txt"; begin := 3; end_ := 6 |};
           {| group := lit "Normal"; begin := 6; end_ := 11 |} ].
Proof.
  destruct (show settings_ascii ∅ ∅ counter0 vc0 None b_txt 1) as [e|r] eqn:Hr;
    [vm_compute in Hr; discriminate|].
  assert (line r = lit "    f b.txt") as Hline.
  { pose proof Hr as Hr'. vm_compute in Hr'. injection Hr' as <-. reflexivity. }
  exists r. split; [reflexivity|]. split; [exact Hline|].
  rewrite (ascii_offsets settings_ascii ∅ ∅ counter0 vc0 None b_txt 1 r Hr).
  - reflexivity.
  - rewrite Hline. refine (bool_decide_unpack _ _). vm_compute. exact I.
Defined.

Lemma escaped_name_has_no_line_separator_witness :
  exists nm rest,
    gen_name settings0 two_lines = nm :: rest
    /\ nm = lit "a\nb"
    /\ ~ occurs_in linesep nm.
Proof.
  destruct (escaped_name_has_no_line_separator settings0 two_lines)
    as (nm & rest & Hgen & Hno & _).
  - discriminate.
  - intros H. apply list_elem_of_In in H. vm_compute in H. intuition discriminate.
  - intros H. apply list_elem_of_In in H. vm_compute in H. intuition discriminate.
  - exists nm, rest. split; [exact Hgen|]. split; [|exact Hno].
    vm_compute in Hgen. by injection Hgen as <- _.
Defined.

Lemma name_without_line_separator_unchanged_witness :
  name_text settings0 b_txt = lit "b.txt".
Proof.
  rewrite (name_without_line_separator_unchanged settings0 b_txt).
  - reflexivity.
  - discriminate.
  - intros H. apply occurs_in_elem in H. apply list_elem_of_In in H.
    vm_compute in H. intuition discriminate.
Defined.

Lemma filter_pull_up_witness :
  exists dv before rest after,
    render settings0 ∅ ∅ (Some txt_only) counter0 vc0 true None root3 = inr dv
    /\ lookup dv = before ++ b_txt :: rest ++ after
    /\ root3 ∈ before.
Proof.
  destruct (render settings0 ∅ ∅ (Some txt_only) counter0 vc0 true None root3)
    as [e|dv] eqn:Hdv; [vm_compute in Hdv; discriminate|].
  assert (call settings0 (Some txt_only) vc0 true root3
            [(root3, is_clear (Some txt_only) false root3)] b_txt 1
            (is_clear (Some txt_only) false root3)) as Hcall.
  { apply call_child; [apply call_root|]. elem_by_compute. }
  destruct (filter_pull_up settings0 ∅ ∅ (Some txt_only) counter0 vc0 true None
              root3 dv txt_only _ b_txt 1 _ eq_refl Hdv Hcall eq_refl)
    as (before & rest & after & Hl & Hanc).
  exists dv, before, rest, after. split; [reflexivity|]. split; [exact Hl|].
  apply (Hanc (root3, is_clear (Some txt_only) false root3)). by left.
Defined.

(** ** The transitions and the text decorations at work *)

Lemma process_icons_extensions_witness :
  dict_get (TextDecorations.ext_exact _ _ _ (TextDecorations._process_icons _ _ _ glyphs))
    (lit ".md") = Some (lit "M").
Proof.
  destruct (process_icons_extensions unit unit unit glyphs) as (_ & Hget & _).
  - refine (bool_decide_unpack _ _). vm_compute. exact I.
  - exact (eq_trans (Hget (lit "md")) eq_refl).
Defined.

Lemma process_glob_keys_witness :
  TextDecorations._process_glob (TextDecorations.name_glob _ _ _ glyphs)
  = [(lit "*.lock", lit "l"); (lit "*~", lit "b")]
  /\ dict_get (TextDecorations._process_glob (TextDecorations.name_glob _ _ _ glyphs))
       (lit "*.lock") = Some (lit "l").
Proof.
  split; [reflexivity|].
  apply (process_glob_keys (TextDecorations.name_glob _ _ _ glyphs)).
  exists 1%nat, (lit "*.lock"). split; [reflexivity|]. split; [reflexivity|].
  intros j k1 v1 Hj Hk.
  destruct j as [|[|[|j]]]; [lia | lia | | discriminate].
  injection Hj as <- _. vm_compute in Hk. discriminate.
Defined.

Lemma lightmode_colours_witness :
  dict_get
    (TextDecorations.colours_ext_exact
       (TextDecorations._make_lightmode (fun v => lit "~" ++ v)
          (TextDecorations._process_colours palette)))
    (lit ".txt")
  = Some (lit "~#ffffff").
Proof.
  destruct (lightmode_colours (fun v => lit "~" ++ v) palette) as (_ & _ & Hget & _).
  - refine (bool_decide_unpack _ _). vm_compute. exact I.
  - refine (bool_decide_unpack _ _). vm_compute. exact I.
  - exact (eq_trans (Hget (lit "txt")) eq_refl).
Defined.

Lemma find_dest_keeps_name_witness :
  CutCopy._find_dest folder_mode (lit "/r/b.txt") dir_A = lit "/r/A/b.txt"
  /\ posixpath.dirname (CutCopy._find_dest folder_mode (lit "/r/b.txt") dir_A)
     = lit "/r/A".
Proof.
  split; [reflexivity|].
  apply (find_dest_keeps_name folder_mode (lit "/r/b.txt") dir_A).
  - reflexivity.
  - left. discriminate.
Defined.

(** The one conflict is answered with nothing, and the action is called
    with the destination that exists. *)
Lemma cancelled_conflict_is_forgotten_witness :
  on_disk (lit "/r/A/b.txt") = true
  /\ acted_on
       (CutCopy._operation folder_mode on_disk (fun p => p) str (Some dir_A)
          [lit "/r/b.txt"] ∅ (lit "copy") [([], false)] 1 (fun _ => None))
     = Some [(lit "/r/b.txt", lit "/r/A/b.txt")].
Proof.
  destruct (cancelled_conflict_is_forgotten folder_mode on_disk (fun p => p) str
              dir_A [lit "/r/b.txt"] ∅ (lit "copy") [] false 1 (fun _ => None)
              [] (lit "/r/b.txt") (lit "/r/A/b.txt"))
    as (_ & Hex & _ & Hlast).
  - discriminate.
  - reflexivity.
  - split; [exact Hex|]. exact (eq_trans (Hlast eq_refl) eq_refl).
Defined.

(** The conflict is answered with a path that does not exist. *)
Lemma operations_checked_witness :
  acted_on
    (CutCopy._operation folder_mode on_disk (fun p => p) str (Some dir_A)
       [lit "/r/b.txt"] ∅ (lit "copy") [(lit "/r/A/c.txt", false)] 1 (fun _ => None))
  = Some [(lit "/r/b.txt", lit "/r/A/c.txt")]
  /\ ((lit "/r/A/c.txt" = CutCopy._find_dest folder_mode (lit "/r/b.txt") dir_A
       /\ on_disk (lit "/r/A/c.txt") = false)
      \/ (lit "/r/A/c.txt", false) ∈ [(lit "/r/A/c.txt", false)]).
Proof.
  assert (acted_on
            (CutCopy._operation folder_mode on_disk (fun p => p) str (Some dir_A)
               [lit "/r/b.txt"] ∅ (lit "copy") [(lit "/r/A/c.txt", false)] 1
               (fun _ => None))
          = Some [(lit "/r/b.txt", lit "/r/A/c.txt")]) as Hacted by reflexivity.
  split; [exact Hacted|].
  assert (forall a : str * bool, a ∈ [(lit "/r/A/c.txt", false)] -> a.1 <> []) as Hans.
  { intros a Ha. apply list_elem_of_singleton in Ha. by subst. }
  destruct (operations_checked folder_mode on_disk (fun p => p) str (Some dir_A)
              [lit "/r/b.txt"] ∅ (lit "copy") [(lit "/r/A/c.txt", false)] 1
              (fun _ => None) [(lit "/r/b.txt", lit "/r/A/c.txt")] Hacted)
    as (_ & _ & _ & n & [= <-] & Hall).
  apply (Hall Hans (lit "/r/b.txt")). reflexivity.
Defined.

(** An answer that exists: the editor asks again. *)
Lemma dialog_termination_witness :
  CutCopy._operation folder_mode on_disk (fun p => p) str (Some dir_A)
    [lit "/r/b.txt"] ∅ (lit "copy") [(lit "/r/A/b.txt", true)] 1 (fun _ => None)
  = CutCopy.awaiting_answer str.
Proof.
  apply (dialog_termination folder_mode on_disk (fun p => p) str dir_A
           [lit "/r/b.txt"] ∅ (lit "copy") [(lit "/r/A/b.txt", true)] 1
           (fun _ => None)).
  - discriminate.
  - discriminate.
  - intros a Ha. apply list_elem_of_singleton in Ha. by subst.
Defined.
